(** * Wilson-style maze generation (HytopiaGameDev/maze-game)

    A shallow embedding of the maze core of [src/index.ts] (class
    [WilsonMaze]) and of the earlier variant of [src/unnamed/part_001]
    (class [Maze]), followed by the properties of the generator.

    JavaScript numbers are modelled by [Z]: every value the generator
    computes is an integer, and once the grid has been allocated all of
    them are far below 2^53, where doubles are exact.  [Math.random()] is
    modelled by a supply of rationals of the half-open unit interval. *)

From stdpp Require Import gmap strings pretty list fin_maps.
From Stdlib Require Import ZArith Lia Ascii.

Open Scope Z_scope.

(** ** Values shared by both variants *)

(** [enum CellType { Solid = 0, Empty }] *)
Inductive CellType := Solid | Empty.

(** [const enum Direction { Up, Down, Left, Right }] *)
Inductive Direction := Up | Down | Left | Right.

(** [type Vector2 = { x: number; z: number }] *)
Record Vector2 := mkVec { vx : Z; vz : Z }.

Global Instance CellType_eq_dec : EqDecision CellType.
Proof. solve_decision. Defined.
Global Instance Direction_eq_dec : EqDecision Direction.
Proof. solve_decision. Defined.
Global Instance Vector2_eq_dec : EqDecision Vector2.
Proof. solve_decision. Defined.

(** What a call can do besides returning. [RangeError] is thrown by
    [new Array(n)] for a length that is no unsigned 32-bit integer,
    [TypeError] by a property access on [undefined], [PlainError] by
    [throw new Error()]. [OutOfBounds] exists
    only in the checked reading of the array (see [readCell]). *)
Inductive Error := RangeError | TypeError | PlainError | OutOfBounds.

(** [Starved]: the finite supply of random draws, or of loop steps, was
    used up before the call returned. *)
Inductive Outcome (A : Type) :=
  | Done (a : A)
  | Throw (e : Error)
  | Starved.
Arguments Done {A} a.
Arguments Throw {A} e.
Arguments Starved {A}.

Global Instance Outcome_bind : MBind Outcome := fun A B k o =>
  match o with
  | Done a => k a
  | Throw e => Throw e
  | Starved => Starved
  end.

(** One result of [Math.random()]: the rational
    [rnum / (rnum + rgap + 1)], so that every value lies in [0, 1) and
    every rational of [0, 1) is some value. *)
Record Rand := mkRand { rnum : N; rgap : N }.

Definition rden (r : Rand) : Z := Z.of_N (rnum r) + Z.of_N (rgap r) + 1.

(** [Math.floor(Math.random() * k)] *)
Definition floorTimes (r : Rand) (k : Z) : Z := (Z.of_N (rnum r) * k) / rden r.

(** [stepIn] of index.ts, named [offset] in part_001. *)
Definition stepIn (pos : Vector2) (dir : Direction) (scale : Z) : Vector2 :=
  match dir with
  | Up => mkVec (vx pos) (vz pos - scale)
  | Down => mkVec (vx pos) (vz pos + scale)
  | Left => mkVec (vx pos - scale) (vz pos)
  | Right => mkVec (vx pos + scale) (vz pos)
  end.

(** ToInt32: the wrap-around of JavaScript's bit operators. *)
Definition toInt32 (n : Z) : Z := (n + 2147483648) mod 4294967296 - 2147483648.

(** [((vec.x & 0xFFFF) << 16) | (vec.z & 0xFFFF)] *)
Definition hash (vec : Vector2) : Z :=
  toInt32 (Z.lor (toInt32 (Z.shiftl (Z.land (vx vec) 65535) 16))
                 (Z.land (vz vec) 65535)).

(** [for (let i = 0; i < n; i++) s = body(i, s)], iterated on the binary
    representation of [n] so that it evaluates on large grids. *)
Definition forZ {S : Type} (n : Z) (body : Z -> S -> S) (s : S) : S :=
  snd (N.iter (Z.to_N n) (fun p => (fst p + 1, body (fst p) (snd p))) (0, s)).

(** [new Array(n)]: an array of [n] holes, or a RangeError. *)
Definition newArray (n : Z) : Outcome (gmap Z CellType) :=
  if (0 <=? n) && (n <? 4294967296) then Done ∅ else Throw RangeError.

(** ** The grid, common to both classes

    [cells] is a JavaScript array used as a map from index to cell: a read
    of an index never written gives [undefined] ([None]), a write to any
    index stores the value.  With [checked = true] an access outside
    [0, width * height) is reported as [OutOfBounds] instead; with
    [checked = false] the functions are the JavaScript ones. *)
Section Grid.
Variable checked : bool.
Variables width height : Z.

Definition linearize (x z : Z) : Z := z * width + x.

Definition delinearize (index : Z) : Vector2 :=
    mkVec (Z.rem index width) (index / width).

Definition inRange (i : Z) : bool := (0 <=? i) && (i <? width * height).

Definition readCell (cells : gmap Z CellType) (i : Z) : Outcome (option CellType) :=
    if checked && negb (inRange i) then Throw OutOfBounds else Done (cells !! i).

Definition writeCell (cells : gmap Z CellType) (i : Z) (c : CellType)
    : Outcome (gmap Z CellType) :=
    if checked && negb (inRange i) then Throw OutOfBounds else Done (<[i := c]> cells).

Definition setCellType (cells : gmap Z CellType) (x z : Z) (c : CellType) :=
    writeCell cells (linearize x z) c.

Definition getCellType (cells : gmap Z CellType) (x z : Z) :=
    readCell cells (linearize x z).

  (** The two nested [for] loops of the constructor. *)
Definition fillRow (z : Z) (acc : Outcome (gmap Z CellType)) : Outcome (gmap Z CellType) :=
    forZ width (fun x acc => m ← acc; writeCell m (z * width + x) Solid) acc.

Definition fillSolid (cells : gmap Z CellType) : Outcome (gmap Z CellType) :=
    forZ height fillRow (Done cells).

  (** The bounds test of [randomWalk]. *)
Definition outside (p : Vector2) : bool :=
    (vx p <? 0) || (vz p <? 0) || (vx p >? width - 1) || (vz p >? height - 1).
End Grid.

(** ** [class WilsonMaze] of src/index.ts *)
Module WilsonMaze.

Record t := mk {
    width : Z;
    height : Z;
    cells : gmap Z CellType;
    startIndex : Z;
    goalIndex : Z
  }.

  (** [Math.floor(Math.random() * 4) as Direction]; the index is one of
      0, 1, 2, 3 (see [floorTimes_range]). *)
Definition randomDir (r : Rand) : Direction :=
    match floorTimes r 4 with
    | 0 => Up
    | 1 => Down
    | 2 => Left
    | _ => Right
    end.

  (** [Math.floor(Math.random() * (this.width - 1) / 2)], the product
      first, then the division. *)
Definition randomOdd (r : Rand) (n : Z) : Z :=
    (Z.of_N (rnum r) * (n - 1)) / (2 * rden r).

Section Methods.
Variable checked : bool.
Variables w h : Z.

Definition randomOddCell (r1 r2 : Rand) : Vector2 :=
      let x := randomOdd r1 w in
      let z := randomOdd r2 h in
      mkVec (2 * x + 1) (2 * z + 1).

    (** The [while] loop of [randomWalk]; one draw per iteration. *)
Fixpoint randomWalk_loop (ds : list Rand) (cells : gmap Z CellType)
        (path : gmap Z Direction) (curr : Vector2)
      : Outcome (gmap Z Direction * list Rand) :=
      c ← getCellType checked w h cells (vx curr) (vz curr);
      if decide (c = Some Solid) then
        match ds with
        | [] => Starved
        | r :: ds' =>
          let dir := randomDir r in
          let nextPos := stepIn curr dir 2 in
          if outside w h nextPos then randomWalk_loop ds' cells path curr
          else
            let path' := <[hash curr := dir]> path in
            n ← getCellType checked w h cells (vx nextPos) (vz nextPos);
            if decide (n <> Some Solid) then Done (path', ds')
            else randomWalk_loop ds' cells path' nextPos
        end
      else Done (path, ds).

Definition randomWalk (ds : list Rand) (cells : gmap Z CellType) (start : Vector2) :=
      randomWalk_loop ds cells ∅ start.

    (** The inner [while] loop of [generateMaze], which replays the
        recorded path. [path.get(hash(curr))!] is [undefined] when nothing
        was recorded; [stepIn] then returns [undefined] and [between.x]
        throws. *)
Fixpoint replay (fuel : nat) (cells : gmap Z CellType) (path : gmap Z Direction)
        (curr : Vector2) (unvisited : Z) : Outcome (gmap Z CellType * Z) :=
      c ← getCellType checked w h cells (vx curr) (vz curr);
      if decide (c = Some Solid) then
        match fuel with
        | O => Starved
        | S fuel' =>
          cells1 ← setCellType checked w h cells (vx curr) (vz curr) Empty;
          match path !! hash curr with
          | None => Throw TypeError
          | Some dir =>
            let between := stepIn curr dir 1 in
            cells2 ← setCellType checked w h cells1 (vx between) (vz between) Empty;
            replay fuel' cells2 path (stepIn curr dir 2) (unvisited - 1)
          end
        end
      else Done (cells, unvisited).

    (** One iteration of the outer [while] loop of [generateMaze]. *)
Definition generateStep (fuel : nat) (ds : list Rand) (cells : gmap Z CellType)
        (unvisited : Z) : Outcome (gmap Z CellType * Z * list Rand) :=
      match ds with
      | r1 :: r2 :: ds1 =>
        let start := randomOddCell r1 r2 in
        '(path, ds2) ← randomWalk ds1 cells start;
        '(cells', unvisited') ← replay fuel cells path start unvisited;
        Done (cells', unvisited', ds2)
      | _ => Starved
      end.

Fixpoint generate_loop (fuel : nat) (ds : list Rand) (cells : gmap Z CellType)
        (unvisited : Z) : Outcome (gmap Z CellType) :=
      if unvisited >? 0 then
        match fuel with
        | O => Starved
        | S fuel' =>
          '(cells', unvisited', ds') ← generateStep (S fuel') ds cells unvisited;
          generate_loop fuel' ds' cells' unvisited'
        end
      else Done cells.

Definition generateMaze (fuel : nat) (ds : list Rand) (cells : gmap Z CellType) :=
      generate_loop fuel ds cells ((w / 2) * (h / 2) - 1).
End Methods.

  (** [width + (width % 2 == 0 ? 1 : 0)] *)
Definition normalize (n : Z) : Z := n + (if Z.rem n 2 =? 0 then 1 else 0).

  (** The grid as the constructor hands it to [generateMaze]: allocated,
      filled with [Solid], the start cell [Empty]. *)
Definition initialCells (checked : bool) (w h startIndex : Z)
    : Outcome (gmap Z CellType) :=
    cells0 ← newArray (w * h);
    cells1 ← fillSolid checked w h cells0;
    writeCell checked w h cells1 startIndex Empty.

  (** The constructor. [fuel] bounds the loop iterations, [ds] is the
      supply of [Math.random()] results. *)
Definition new (checked : bool) (fuel : nat) (ds : list Rand)
      (width height : Z) (startPos goalPos : option Vector2) : Outcome t :=
    let w := normalize width in
    let h := normalize height in
    let start := default (mkVec 1 1) startPos in
    let goal := default (mkVec (w - 2) (h - 2)) goalPos in
    let startIndex := linearize w (vx start) (vz start) in
    let goalIndex := linearize w (vx goal) (vz goal) in
    cells2 ← initialCells checked w h startIndex;
    cells3 ← generateMaze checked w h fuel ds cells2;
    Done (mk w h cells3 startIndex goalIndex).

Definition startPos (m : t) : Vector2 := delinearize (width m) (startIndex m).
Definition goalPos (m : t) : Vector2 := delinearize (width m) (goalIndex m).

End WilsonMaze.

(** ** [class Maze] of src/unnamed/part_001, the earlier variant *)
Module Maze.

  (** [`${vec.x},${vec.z}`] *)
Definition keyOf (vec : Vector2) : string :=
    pretty (vx vec) +:+ "," +:+ pretty (vz vec).

  (** The [switch] of [randomDir]; its [default] throws. *)
Definition randomDir (r : Rand) : Outcome Direction :=
    match floorTimes r 4 with
    | 0 => Done Up
    | 1 => Done Down
    | 2 => Done Left
    | 3 => Done Right
    | _ => Throw PlainError
    end.

Section Methods.
Variable checked : bool.
Variables w h : Z.

Fixpoint randomWalk_loop (ds : list Rand) (cells : gmap Z CellType)
        (path : gmap string Direction) (curr : Vector2)
      : Outcome (gmap string Direction * list Rand) :=
      c ← getCellType checked w h cells (vx curr) (vz curr);
      if decide (c = Some Solid) then
        match ds with
        | [] => Starved
        | r :: ds' =>
          dir ← randomDir r;
          let nextPos := stepIn curr dir 2 in
          if outside w h nextPos then randomWalk_loop ds' cells path curr
          else
            n ← getCellType checked w h cells (vx nextPos) (vz nextPos);
            if decide (n = Some Solid)
            then randomWalk_loop ds' cells (<[keyOf curr := dir]> path) nextPos
            else Done (<[keyOf curr := dir]> path, ds')
        end
      else Done (path, ds).

Definition randomWalk (ds : list Rand) (cells : gmap Z CellType) (start : Vector2) :=
      randomWalk_loop ds cells ∅ start.
End Methods.

End Maze.

(** ** Observations on a grid *)
Section Observe.
Variables w h : Z.
Variable cells : gmap Z CellType.

Definition cellAt (c : Vector2) : option CellType :=
    cells !! linearize w (vx c) (vz c).

Definition inGrid (c : Vector2) : bool :=
    (0 <=? vx c) && (vx c <? w) && (0 <=? vz c) && (vz c <? h).

  (** A cell of the grid that is marked [Empty]. *)
Definition isEmpty (c : Vector2) : bool :=
    inGrid c && bool_decide (cellAt c = Some Empty).

Definition isSolid (c : Vector2) : bool :=
    inGrid c && bool_decide (cellAt c = Some Solid).

  (** The cells [x = 0], [x = w - 1], [z = 0], [z = h - 1]. *)
Definition onBoundary (c : Vector2) : bool :=
    inGrid c &&
    ((vx c =? 0) || (vx c =? w - 1) || (vz c =? 0) || (vz c =? h - 1)).

  (** An intersection: a cell of the grid with both coordinates odd. *)
Definition isIntersection (c : Vector2) : bool :=
    inGrid c && Z.odd (vx c) && Z.odd (vz c).

  (** The sum of [f] over all cells of the grid, row by row. *)
Definition gridSum (f : Vector2 -> Z) : Z :=
    forZ h (fun z acc => forZ w (fun x acc => acc + f (mkVec x z)) acc) 0.

Definition ind (b : bool) : Z := if b then 1 else 0.

Definition same (u c : Vector2) : bool := (vx u =? vx c) && (vz u =? vz c).

  (** The number of [Empty] cells. *)
Definition emptyCount : Z := gridSum (fun c => ind (isEmpty c)).

  (** [c] and its neighbour in direction [d] are both [Empty]. *)
Definition connected (c : Vector2) (d : Direction) : bool :=
    isEmpty c && isEmpty (stepIn c d 1).

  (** The number of grid-adjacent pairs of [Empty] cells; every unordered
      pair is met once, from its left or its upper cell. *)
Definition connections : Z :=
    gridSum (fun c => ind (connected c Right) + ind (connected c Down)).

  (** The number of intersections still [Solid]. *)
Definition solidIntersections : Z :=
    gridSum (fun c => ind (isIntersection c && isSolid c)).

  (** What a breadth-first traversal from [from] reaches: [from] itself if
      it is [Empty], and every [Empty] grid neighbour of a reached cell. *)
Inductive reach (from : Vector2) : Vector2 -> Prop :=
    | reach_start : isEmpty from = true -> reach from from
    | reach_step c d :
        reach from c -> isEmpty (stepIn c d 1) = true -> reach from (stepIn c d 1).
End Observe.

(** ** Proof devices: the loops and sums unfolded over [nat] *)

Fixpoint forNat {S : Type} (n : nat) (i : Z) (body : Z -> S -> S) (s : S) : S :=
  match n with
  | O => s
  | S n' => forNat n' (i + 1) body (body i s)
  end.

Fixpoint sumUpto (n : nat) (g : Z -> Z) : Z :=
  match n with
  | O => 0
  | S n' => sumUpto n' g + g (Z.of_nat n')
  end.

(** ** The state of a run of [generateMaze] *)
Section Invariant.
Variables w h : Z.
  (** The cell that the constructor marks [Empty]. *)
Variable start : Vector2.

  (** What one iteration of the replay loop writes from [c] in
      direction [d]. *)
Definition carve (cells : gmap Z CellType) (c : Vector2) (d : Direction)
    : gmap Z CellType :=
    <[linearize w (vx (stepIn c d 1)) (vz (stepIn c d 1)) := Empty]>
      (<[linearize w (vx c) (vz c) := Empty]> cells).

Definition carveAll (cells : gmap Z CellType) (steps : list (Vector2 * Direction))
    : gmap Z CellType :=
    foldr (fun s acc => carve acc s.1 s.2) cells steps.

  (** [steps] leads from [from] to [to]: each step starts where the one
      before it arrived, two cells further. *)
Fixpoint chained (from : Vector2) (steps : list (Vector2 * Direction))
      (to : Vector2) : Prop :=
    match steps with
    | [] => from = to
    | s :: rest => s.1 = from /\ chained (stepIn s.1 s.2 2) rest to
    end.

  (** The array holds a cell exactly on the indices of the grid. *)
Definition wellFormed (cells : gmap Z CellType) : Prop :=
    forall i, is_Some (cells !! i) <-> 0 <= i < w * h.

  (** The carved cells form a tree over the intersections, rooted at
      [start], and [unvisited] counts the intersections not yet carved. *)
Record Inv (cells : gmap Z CellType) (unvisited : Z) : Prop := {
    inv_wf : wellFormed cells;
    inv_start : isEmpty w h cells start = true;
    inv_hlink : forall c, isEmpty w h cells c = true -> Z.even (vx c) = true ->
      Z.odd (vz c) = true /\
      isEmpty w h cells (mkVec (vx c - 1) (vz c)) = true /\
      isEmpty w h cells (mkVec (vx c + 1) (vz c)) = true;
    inv_vlink : forall c, isEmpty w h cells c = true -> Z.even (vz c) = true ->
      Z.odd (vx c) = true /\
      isEmpty w h cells (mkVec (vx c) (vz c - 1)) = true /\
      isEmpty w h cells (mkVec (vx c) (vz c + 1)) = true;
    inv_reach : forall c, isEmpty w h cells c = true -> reach w h cells start c;
    inv_count : emptyCount w h cells = connections w h cells + 1;
    inv_unvisited : unvisited = solidIntersections w h cells
  }.

  (** The loop-erased trail of a walk that stands on [curr]: following the
      recorded directions from [start] leads to [curr] through distinct
      [Solid] intersections. *)
Definition onTrail (cells : gmap Z CellType) (path : gmap Z Direction)
      (s : Vector2 * Direction) : Prop :=
    isIntersection w h s.1 = true /\ isSolid w h cells s.1 = true /\
    path !! hash s.1 = Some s.2 /\ isIntersection w h (stepIn s.1 s.2 2) = true.

Definition Trail (cells : gmap Z CellType) (path : gmap Z Direction)
      (from : Vector2) (steps : list (Vector2 * Direction)) (curr : Vector2) : Prop :=
    chained from steps curr /\ NoDup (steps.*1 ++ [curr]) /\
    Forall (onTrail cells path) steps /\ isIntersection w h curr = true.
End Invariant.

(** The upper or left cell of the two pairs that a step in direction [d]
    from [c] connects. *)
Definition firstOf (c : Vector2) (d : Direction) : Vector2 :=
  match d with Right | Down => c | _ => stepIn c d 1 end.
Definition secondOf (c : Vector2) (d : Direction) : Vector2 :=
  match d with Right | Down => stepIn c d 1 | _ => stepIn c d 2 end.


Definition opposite (d : Direction) : Direction :=
  match d with Up => Down | Down => Up | Left => Right | Right => Left end.

(** ** Concrete inputs *)

(** The draw [a / b]. *)
Definition rand (a b : N) : Rand := mkRand a (b - a - 1).

(** The draw on which [randomDir] chooses [d]. *)
Definition drawOf (d : Direction) : Rand :=
  match d with Up => rand 0 4 | Down => rand 1 4 | Left => rand 2 4 | Right => rand 3 4 end.

(** A run on a 5 x 5 grid: a walk from (3,3) that goes up, comes back
    (a loop, erased), then left and up onto the start cell; then a walk
    from (3,1) whose first step leaves the grid and is drawn again. *)
Definition sample_draws : list Rand :=
  [rand 1 2; rand 1 2] ++ (drawOf <$> [Up; Down; Left; Up]) ++
  [rand 1 2; rand 0 2] ++ (drawOf <$> [Up; Down]).

Definition cells_1x5 : gmap Z CellType :=
  <[2 := Empty]> (list_to_map ((fun i => (i, Solid)) <$> [0; 1; 2; 3; 4])).

Definition maze_1x5 : WilsonMaze.t := WilsonMaze.mk 1 5 cells_1x5 2 2.

Definition cells_3x3 : gmap Z CellType :=
  <[4 := Empty]> (list_to_map ((fun i => (i, Solid)) <$> [0; 1; 2; 3; 4; 5; 6; 7; 8])).

Definition maze_3x3 : WilsonMaze.t := WilsonMaze.mk 3 3 cells_3x3 4 4.

(** The grid of a 5 x 3 maze before generation: (1,1) is [Empty]. *)
Definition cells_5x3 : gmap Z CellType :=
  <[6 := Empty]>
    (list_to_map ((fun i => (i, Solid)) <$> [0; 1; 2; 3; 4; 5; 6; 7; 8; 9; 10; 11; 12; 13; 14])).

(** ** Comparing the walks of the two variants *)

(** The coordinates that [hash] keeps apart. *)
Definition inHash (c : Vector2) : Prop :=
  0 <= vx c < 65536 /\ 0 <= vz c < 65536.

(** The two path maps hold the same direction for every coordinate. *)
Definition samePath (p1 : gmap Z Direction) (p2 : gmap string Direction) : Prop :=
  forall c, inHash c -> p1 !! hash c = p2 !! Maze.keyOf c.

Definition sameRecord (o1 : Outcome (gmap Z Direction * list Rand))
    (o2 : Outcome (gmap string Direction * list Rand)) : Prop :=
  match o1, o2 with
  | Done (p1, ds1), Done (p2, ds2) => ds1 = ds2 /\ samePath p1 p2
  | Throw e1, Throw e2 => e1 = e2
  | Starved, Starved => True
  | _, _ => False
  end.

Fixpoint noComma (s : string) : bool :=
  match s with
  | EmptyString => true
  | String a s' => negb (Ascii.eqb a ","%char) && noComma s'
  end.

(** The grid of a 5 x 5 maze before generation: (1,1) is [Empty]. *)
Definition cells_5x5 : gmap Z CellType :=
  <[6 := Empty]>
    (list_to_map ((fun i => (i, Solid)) <$>
       [0; 1; 2; 3; 4; 5; 6; 7; 8; 9; 10; 11; 12; 13; 14; 15; 16; 17; 18; 19;
        20; 21; 22; 23; 24])).



(** ** [class MazeWorld] of src/index.ts and src/game/MazeWorld.ts

    [blocks] is the object that maps the coordinate string of a block to
    the id of its block type. *)
Module MazeWorld.

Definition BLOCK_TYPE_FLOOR : Z := 1.
Definition BLOCK_TYPE_START : Z := 2.
Definition BLOCK_TYPE_GOAL : Z := 3.
Definition BLOCK_TYPE_WALL : Z := 4.
Definition BLOCK_TYPE_VISITED : Z := 5.

  (** [`${x},${y},${z}`] *)
Definition blockKey (x y z : Z) : string :=
    pretty x +:+ "," +:+ pretty y +:+ "," +:+ pretty z.

Definition addBlock (blocks : gmap string Z) (x y z id : Z) : gmap string Z :=
    <[blockKey x y z := id]> blocks.

  (** The [length] of the array as far as [forEach] needs it: above every
      array index that holds an element (the indices beyond are holes, which
      [forEach] skips). *)
Definition arrayLength (cells : gmap Z CellType) : Z :=
    foldr (fun kv acc =>
             if (0 <=? kv.1) && (kv.1 <? 4294967295) then Z.max acc (kv.1 + 1) else acc)
          0 (map_to_list cells).

  (** [cells.forEach((cell, index) => ...)]: the indices below [length] in
      ascending order, those that hold an element. *)
Definition forEach {S : Type} (cells : gmap Z CellType)
      (callback : CellType -> Z -> S -> S) (s : S) : S :=
    forZ (arrayLength cells)
      (fun index s => match cells !! index with
                      | Some cell => callback cell index s
                      | None => s
                      end) s.

  (** [let id = 1; if (index == startIndex) id = 2; else if (index == goalIndex) id = 3] *)
Definition floorId (maze : WilsonMaze.t) (index : Z) : Z :=
    if decide (index = WilsonMaze.startIndex maze) then BLOCK_TYPE_START
    else if decide (index = WilsonMaze.goalIndex maze) then BLOCK_TYPE_GOAL
    else BLOCK_TYPE_FLOOR.

  (** The callback of the constructor. *)
Definition placeCell (maze : WilsonMaze.t) (cell : CellType) (index : Z)
      (blocks : gmap string Z) : gmap string Z :=
    let pos := delinearize (WilsonMaze.width maze) index in
    let blocks1 :=
      if decide (cell = Solid)
      then addBlock (addBlock blocks (vx pos) 1 (vz pos) BLOCK_TYPE_WALL)
             (vx pos) 2 (vz pos) BLOCK_TYPE_WALL
      else blocks in
    addBlock blocks1 (vx pos) 0 (vz pos) (floorId maze index).

  (** The [blocks] of [new MazeWorld(maze)]. *)
Definition new (maze : WilsonMaze.t) : gmap string Z :=
    forEach (WilsonMaze.cells maze) (placeCell maze) ∅.

End MazeWorld.

(** ** [class Maze] of src/unnamed/part_001, continued: the cell picker,
    the generation loop and the constructor.  The walk is [Maze.randomWalk];
    the grid statements of the constructor are those of [WilsonMaze]. *)
Module MazeGen.

Section Methods.
Variable checked : bool.
Variables w h : Z.

    (** [randomOddCell]: the [while (true)] loop draws a cell of the grid,
        two draws an iteration, until both coordinates are odd. *)
Fixpoint randomOddCell (ds : list Rand) : Outcome (Vector2 * list Rand) :=
      match ds with
      | r1 :: r2 :: ds' =>
        let x := floorTimes r1 w in
        let z := floorTimes r2 h in
        if (Z.rem x 2 =? 1) && (Z.rem z 2 =? 1) then Done (mkVec x z, ds')
        else randomOddCell ds'
      | _ => Starved
      end.

    (** The inner [while] loop of [generateMaze]. *)
Fixpoint replay (fuel : nat) (cells : gmap Z CellType) (path : gmap string Direction)
        (curr : Vector2) (unvisited : Z) : Outcome (gmap Z CellType * Z) :=
      c ← getCellType checked w h cells (vx curr) (vz curr);
      if decide (c = Some Solid) then
        match fuel with
        | O => Starved
        | S fuel' =>
          cells1 ← setCellType checked w h cells (vx curr) (vz curr) Empty;
          match path !! Maze.keyOf curr with
          | None => Throw TypeError
          | Some dir =>
            let between := stepIn curr dir 1 in
            cells2 ← setCellType checked w h cells1 (vx between) (vz between) Empty;
            replay fuel' cells2 path (stepIn curr dir 2) (unvisited - 1)
          end
        end
      else Done (cells, unvisited).

    (** One iteration of the outer [while] loop of [generateMaze]. *)
Definition generateStep (fuel : nat) (ds : list Rand) (cells : gmap Z CellType)
        (unvisited : Z) : Outcome (gmap Z CellType * Z * list Rand) :=
      '(start, ds1) ← randomOddCell ds;
      '(path, ds2) ← Maze.randomWalk checked w h ds1 cells start;
      '(cells', unvisited') ← replay fuel cells path start unvisited;
      Done (cells', unvisited', ds2).

Fixpoint generate_loop (fuel : nat) (ds : list Rand) (cells : gmap Z CellType)
        (unvisited : Z) : Outcome (gmap Z CellType) :=
      if unvisited >? 0 then
        match fuel with
        | O => Starved
        | S fuel' =>
          '(cells', unvisited', ds') ← generateStep (S fuel') ds cells unvisited;
          generate_loop fuel' ds' cells' unvisited'
        end
      else Done cells.

Definition generateMaze (fuel : nat) (ds : list Rand) (cells : gmap Z CellType) :=
      generate_loop fuel ds cells ((w / 2) * (h / 2) - 1).
End Methods.

  (** The constructor: start (1,1), goal (width-2, height-2). *)
Definition new (checked : bool) (fuel : nat) (ds : list Rand) (width height : Z)
    : Outcome WilsonMaze.t :=
    let w := WilsonMaze.normalize width in
    let h := WilsonMaze.normalize height in
    let startIndex := linearize w 1 1 in
    let goalIndex := linearize w (w - 2) (h - 2) in
    cells2 ← WilsonMaze.initialCells checked w h startIndex;
    cells3 ← generateMaze checked w h fuel ds cells2;
    Done (WilsonMaze.mk w h cells3 startIndex goalIndex).

End MazeGen.

(** The trail of a walk of [Maze.randomWalk], whose record is keyed by
    [Maze.keyOf]. *)
Section TrailByKey.
Variables w h : Z.

Definition onTrailK (cells : gmap Z CellType) (path : gmap string Direction)
      (s : Vector2 * Direction) : Prop :=
    isIntersection w h s.1 = true /\ isSolid w h cells s.1 = true /\
    path !! Maze.keyOf s.1 = Some s.2 /\ isIntersection w h (stepIn s.1 s.2 2) = true.

Definition TrailK (cells : gmap Z CellType) (path : gmap string Direction)
      (from : Vector2) (steps : list (Vector2 * Direction)) (curr : Vector2) : Prop :=
    chained from steps curr /\ NoDup (steps.*1 ++ [curr]) /\
    Forall (onTrailK cells path) steps /\ isIntersection w h curr = true.
End TrailByKey.

(** A run of the generator of part_001 on a 5 x 5 grid: (3,1) is picked
    and joined to the start cell on its left, (1,3) to the start cell
    above it, (3,3) to (3,1) above it. *)
Definition maze_draws : list Rand :=
  [rand 3 5; rand 1 5; drawOf Left; rand 1 5; rand 3 5; drawOf Up;
   rand 3 5; rand 3 5; drawOf Up].

(** ** The player callbacks of the server (src/index.ts, src/unnamed/part_000)

    The callbacks compare objects, and [!=] on objects compares
    identities: a [Vector2] of the source is a reference into a heap of
    objects, and every object literal that is evaluated is a new object. *)
Module Server.

Record Heap := mkHeap { next : nat; objs : gmap nat Vector2 }.

  (** [{ x: ..., z: ... }] *)
Definition alloc (v : Vector2) (hp : Heap) : nat * Heap :=
    (next hp, mkHeap (S (next hp)) (<[next hp := v]> (objs hp))).

  (** [startPos()] and [goalPos()] return the literal of [delinearize]. *)
Definition startPos (maze : WilsonMaze.t) (hp : Heap) : nat * Heap :=
    alloc (WilsonMaze.startPos maze) hp.
Definition goalPos (maze : WilsonMaze.t) (hp : Heap) : nat * Heap :=
    alloc (WilsonMaze.goalPos maze) hp.

  (** A call [world.chunkLattice.setBlock({ x, y, z }, id)]. *)
Record SetBlock := mkSetBlock { bx : Z; by' : Z; bz : Z; bid : Z }.

  (** [onTick]; [fx] and [fz] are [Math.floor(com.x)] and
      [Math.floor(com.z)] of the entity's centre of mass.  The result is
      the list of [setBlock] calls of the tick. *)
Definition onTick (currentMaze : WilsonMaze.t) (fx fz : Z) (hp : Heap)
    : list SetBlock * Heap :=
    let '(currentStart, hp1) := startPos currentMaze hp in
    let '(currentGoal, hp2) := goalPos currentMaze hp1 in
    let '(entityPos, hp3) := alloc (mkVec fx fz) hp2 in
    if negb (entityPos =? currentStart)%nat && negb (entityPos =? currentGoal)%nat then
      match objs hp3 !! entityPos with
      | Some pos => ([mkSetBlock (vx pos) 0 (vz pos) MazeWorld.BLOCK_TYPE_VISITED], hp3)
      | None => ([], hp3)
      end
    else ([], hp3).

  (** The two chat messages of [onBlockCollision]. *)
Inductive Message := Congratulations | HowToGenerate.

  (** One collision event: the player whose entity collides, the id of
      the block type, and [started]. *)
Record Collision := mkCollision { player : nat; blockTypeId : Z; started : bool }.

  (** [onBlockCollision]; [playerInGoal] is the variable of the module,
      one for all players.  The result is its new value and the messages
      sent, each with the player it is sent to. *)
Definition onBlockCollision (playerInGoal : bool) (e : Collision)
    : bool * list (nat * Message) :=
    if negb (started e) || playerInGoal
       || negb (blockTypeId e =? MazeWorld.BLOCK_TYPE_GOAL)
    then (playerInGoal, [])
    else (true, [(player e, Congratulations); (player e, HowToGenerate)]).

  (** The collision events of a session, in order. *)
Fixpoint collisions (playerInGoal : bool) (events : list Collision)
    : bool * list (nat * Message) :=
    match events with
    | [] => (playerInGoal, [])
    | e :: events' =>
      let '(flag, sent) := onBlockCollision playerInGoal e in
      let '(flag', sent') := collisions flag events' in
      (flag', sent ++ sent')
    end.

End Server.
(** * Properties *)

(** [lia] is to decide goals with division and remainder by constants. *)
Ltac Zify.zify_post_hook ::= Z.to_euclidean_division_equations.

(** ** Loops and sums *)

Lemma forNat_snoc {S : Type} (body : Z -> S -> S) n i s :
  forNat (Datatypes.S n) i body s = body (i + Z.of_nat n) (forNat n i body s).
Proof.
  revert i s. induction n as [|n IH]; intros i s.
  - simpl. by rewrite Z.add_0_r.
  - change (forNat (Datatypes.S (Datatypes.S n)) i body s)
      with (forNat (Datatypes.S n) (i + 1) body (body i s)).
    rewrite IH. simpl. f_equal. lia.
Qed.

Lemma forZ_forNat {S : Type} n (body : Z -> S -> S) s :
  forZ n body s = forNat (Z.to_nat n) 0 body s.
Proof.
  unfold forZ. rewrite N2Nat.inj_iter.
  replace (N.to_nat (Z.to_N n)) with (Z.to_nat n) by lia.
  generalize (Z.to_nat n) as k. intros k.
  assert (H : Nat.iter k (fun p : Z * S => (p.1 + 1, body p.1 p.2)) (0, s)
              = (Z.of_nat k, forNat k 0 body s)).
  { induction k as [|k IH]; [done|].
    rewrite forNat_snoc. simpl Nat.iter. rewrite IH. simpl. f_equal. lia. }
  by rewrite H.
Qed.

Lemma forZ_sum n g a :
  forZ n (fun i acc => acc + g i) a = a + sumUpto (Z.to_nat n) g.
Proof.
  rewrite forZ_forNat. generalize (Z.to_nat n) as k. intros k.
  induction k as [|k IH]; [simpl; lia|].
  rewrite forNat_snoc, IH, Z.add_0_l. simpl. lia.
Qed.

Lemma sumUpto_ext n f g :
  (forall i, 0 <= i < Z.of_nat n -> f i = g i) -> sumUpto n f = sumUpto n g.
Proof.
  induction n as [|n IH]; intros H; [done|]. simpl.
  rewrite IH, H; [done|lia|]. intros i Hi. apply H. lia.
Qed.

Lemma sumUpto_add n f g :
  sumUpto n (fun i => f i + g i) = sumUpto n f + sumUpto n g.
Proof. induction n as [|n IH]; simpl; lia. Qed.

Lemma sumUpto_zero n : sumUpto n (fun _ => 0) = 0.
Proof. induction n as [|n IH]; simpl; lia. Qed.

Lemma sumUpto_scale n k f :
  sumUpto n (fun i => k * f i) = k * sumUpto n f.
Proof. induction n as [|n IH]; simpl; lia. Qed.

Lemma sumUpto_delta n i0 :
  sumUpto n (fun i => if decide (i = i0) then 1 else 0)
  = if decide (0 <= i0 < Z.of_nat n) then 1 else 0.
Proof.
  induction n as [|n IH]; simpl.
  - case_decide; lia.
  - rewrite IH. repeat case_decide; lia.
Qed.

Lemma sumUpto_odd n :
  sumUpto n (fun i => if Z.odd i then 1 else 0) = Z.of_nat n / 2.
Proof.
  induction n as [|n IH]; [done|]. simpl sumUpto. rewrite IH.
  destruct (Z.odd (Z.of_nat n)) eqn:E.
  - rewrite Z.odd_spec in E. destruct E as [k Hk]. lia.
  - rewrite <- Z.negb_even in E. apply negb_false_iff in E.
    rewrite Z.even_spec in E. destruct E as [k Hk]. lia.
Qed.

Section GridSums.
Variables w h : Z.

Lemma gridSum_sumUpto f :
    gridSum w h f
    = sumUpto (Z.to_nat h) (fun z => sumUpto (Z.to_nat w) (fun x => f (mkVec x z))).
  Proof.
    unfold gridSum.
    rewrite <- (Z.add_0_l (sumUpto _ _)), <- forZ_sum.
    rewrite !forZ_forNat. generalize 0 at 2 4. generalize 0.
    induction (Z.to_nat h) as [|k IH]; intros i a; [done|].
    simpl. rewrite IH. f_equal. apply forZ_sum.
  Qed.

Lemma gridSum_ext f g :
    (forall c, inGrid w h c = true -> f c = g c) -> gridSum w h f = gridSum w h g.
  Proof.
    intros H. rewrite !gridSum_sumUpto.
    apply sumUpto_ext. intros z Hz. apply sumUpto_ext. intros x Hx.
    apply H. unfold inGrid. simpl. 
    repeat (apply andb_true_intro; split); lia.
  Qed.

Lemma gridSum_add f g :
    gridSum w h (fun c => f c + g c) = gridSum w h f + gridSum w h g.
  Proof.
    rewrite !gridSum_sumUpto, <- sumUpto_add.
    apply sumUpto_ext. intros z _. apply sumUpto_add.
  Qed.

Lemma gridSum_zero : gridSum w h (fun _ => 0) = 0.
  Proof.
    rewrite gridSum_sumUpto.
    transitivity (sumUpto (Z.to_nat h) (fun _ => 0)); [|apply sumUpto_zero].
    apply sumUpto_ext. intros z _. apply sumUpto_zero.
  Qed.

Lemma gridSum_delta c0 :
    inGrid w h c0 = true ->
    gridSum w h (fun c => ind (bool_decide (c = c0))) = 1.
  Proof.
    intros Hc. rewrite gridSum_sumUpto.
    unfold inGrid in Hc. destruct c0 as [x0 z0]. simpl in Hc.
    rewrite (sumUpto_ext _ _ (fun z => if decide (z = z0) then 1 else 0)).
    - rewrite sumUpto_delta. case_decide; lia.
    - intros z Hz.
      rewrite (sumUpto_ext _ _
        (fun x => if decide (z = z0) then (if decide (x = x0) then 1 else 0) else 0)).
      + destruct (decide (z = z0)).
        * rewrite sumUpto_delta. case_decide; lia.
        * apply sumUpto_zero.
      + intros x Hx. unfold ind. case_bool_decide as E; repeat case_decide; try done.
        * inversion E; lia.
        * inversion E; lia.
        * subst; done.
  Qed.

Lemma gridSum_intersections :
    0 <= w -> 0 <= h ->
    gridSum w h (fun c => ind (isIntersection w h c)) = (w / 2) * (h / 2).
  Proof.
    intros Hw Hh.
    rewrite (gridSum_ext _ (fun c => ind (Z.odd (vx c)) * ind (Z.odd (vz c)))).
    - rewrite gridSum_sumUpto. simpl.
      rewrite (sumUpto_ext _ _ (fun z => (w / 2) * ind (Z.odd z))).
      + rewrite sumUpto_scale. unfold ind. rewrite sumUpto_odd. do 2 f_equal. lia.
      + intros z _.
        rewrite (sumUpto_ext _ _ (fun x => ind (Z.odd z) * ind (Z.odd x))) by (intros; lia).
        rewrite sumUpto_scale. unfold ind at 2. rewrite sumUpto_odd.
        replace (Z.of_nat (Z.to_nat w)) with w by lia. lia.
    - intros c Hc. unfold isIntersection. rewrite Hc. simpl.
      unfold ind. destruct (Z.odd (vx c)), (Z.odd (vz c)); done.
  Qed.
End GridSums.

(** ** Random draws *)

Lemma rden_pos r : 0 < rden r.
Proof. unfold rden. lia. Qed.

Lemma floorTimes_range r k : 0 < k -> 0 <= floorTimes r k < k.
Proof.
  intros Hk. unfold floorTimes. pose proof (rden_pos r) as Hd.
  assert (Hn : 0 <= Z.of_N (rnum r) < rden r) by (unfold rden; lia).
  split.
  - apply Z.div_pos; nia.
  - apply Z.div_lt_upper_bound; nia.
Qed.

Lemma randomOdd_range r n : 3 <= n -> Z.odd n = true ->
  0 <= WilsonMaze.randomOdd r n /\ 2 * WilsonMaze.randomOdd r n + 1 <= n - 2.
Proof.
  intros Hn Ho. unfold WilsonMaze.randomOdd. pose proof (rden_pos r) as Hd.
  assert (Hr : 0 <= Z.of_N (rnum r) < rden r) by (unfold rden; lia).
  rewrite Z.odd_spec in Ho. destruct Ho as [k ->].
  replace (2 * k + 1 - 1) with (2 * k) by lia.
  replace (Z.of_N (rnum r) * (2 * k)) with ((Z.of_N (rnum r) * k) * 2) by lia.
  rewrite (Z.mul_comm 2 (rden r)), Z.div_mul_cancel_r by lia.
  assert (0 <= Z.of_N (rnum r) * k / rden r < k); [|lia].
  split.
  - apply Z.div_pos; nia.
  - apply Z.div_lt_upper_bound; nia.
Qed.

(** ** The coordinate hash *)

Lemma lor_shifted k z : 0 <= z < 65536 -> Z.lor (k * 65536) z = k * 65536 + z.
Proof.
  intros Hz.
  assert (H0 : Z.land (k * 65536) z = 0).
  { apply Z.bits_inj'. intros n Hn. rewrite Z.land_spec, Z.bits_0.
    change 65536 with (2 ^ 16). rewrite <- Z.shiftl_mul_pow2 by lia.
    destruct (Z.lt_ge_cases n 16) as [Hlt|Hge].
    - by rewrite Z.shiftl_spec_low.
    - replace z with (z mod 2 ^ 16) by (apply Z.mod_small; lia).
      rewrite Z.mod_pow2_bits_high by lia. apply andb_false_r. }
  by rewrite <- Z.lxor_lor, <- Z.add_nocarry_lxor.
Qed.

Lemma hash_small x z : 0 <= x < 65536 -> 0 <= z < 65536 ->
  hash (mkVec x z) = (if x <? 32768 then x else x - 65536) * 65536 + z.
Proof.
  intros Hx Hz. unfold hash. simpl.
  change 65535 with (Z.ones 16). rewrite !Z.land_ones by lia.
  rewrite !Z.mod_small by lia. rewrite Z.shiftl_mul_pow2 by lia.
  change (2 ^ 16) with 65536.
  assert (E : toInt32 (x * 65536) = (if x <? 32768 then x else x - 65536) * 65536).
  { unfold toInt32. destruct (Z.ltb_spec x 32768); lia. }
  rewrite E, lor_shifted by lia.
  unfold toInt32. destruct (Z.ltb_spec x 32768); lia.
Qed.

Lemma hash_inj c c' :
  0 <= vx c < 65536 -> 0 <= vz c < 65536 ->
  0 <= vx c' < 65536 -> 0 <= vz c' < 65536 ->
  hash c = hash c' -> c = c'.
Proof.
  destruct c as [x z], c' as [x' z']. simpl. intros Hx Hz Hx' Hz'.
  rewrite !hash_small by lia. intros E.
  destruct (Z.ltb_spec x 32768), (Z.ltb_spec x' 32768);
    (assert (x = x' /\ z = z') as [-> ->] by lia; done).
Qed.

(** ** Indices and the array *)

Section GridFacts.
Variable checked : bool.
Variables w h : Z.

Lemma inRange_spec i : inRange w h i = true <-> 0 <= i < w * h.
  Proof. unfold inRange. rewrite andb_true_iff, Z.leb_le, Z.ltb_lt. done. Qed.

Lemma inGrid_spec c :
    inGrid w h c = true <-> 0 <= vx c < w /\ 0 <= vz c < h.
  Proof. unfold inGrid. rewrite !andb_true_iff, !Z.leb_le, !Z.ltb_lt. tauto. Qed.

Lemma linearize_range x z :
    0 <= x < w -> 0 <= z < h -> 0 <= linearize w x z < w * h.
  Proof. unfold linearize. nia. Qed.

Lemma linearize_inj x z x' z' :
    0 <= x < w -> 0 <= x' < w -> linearize w x z = linearize w x' z' ->
    x = x' /\ z = z'.
  Proof.
    unfold linearize. intros Hx Hx' E.
    assert (z = z'); [|subst; lia].
    destruct (Z.lt_trichotomy z z') as [Hlt|[Heq|Hgt]]; [|done|]; nia.
  Qed.

Lemma delinearize_linearize x z :
    0 <= x < w -> 0 <= z -> delinearize w (linearize w x z) = mkVec x z.
  Proof.
    intros Hx Hz. unfold delinearize, linearize.
    rewrite Z.rem_mod_nonneg by nia.
    f_equal.
    - symmetry. apply (Z.mod_unique _ _ z); lia.
    - symmetry. apply (Z.div_unique _ _ _ x); lia.
  Qed.

Lemma readCell_in cells i :
    0 <= i < w * h -> readCell checked w h cells i = Done (cells !! i).
  Proof.
    intros Hi. unfold readCell.
    apply inRange_spec in Hi. rewrite Hi. by rewrite andb_false_r.
  Qed.

Lemma writeCell_in cells i c :
    0 <= i < w * h -> writeCell checked w h cells i c = Done (<[i := c]> cells).
  Proof.
    intros Hi. unfold writeCell.
    apply inRange_spec in Hi. rewrite Hi. by rewrite andb_false_r.
  Qed.

Lemma getCellType_in cells c :
    inGrid w h c = true ->
    getCellType checked w h cells (vx c) (vz c) = Done (cellAt w cells c).
  Proof.
    intros Hc. apply inGrid_spec in Hc. unfold getCellType.
    rewrite readCell_in; [done|]. apply linearize_range; lia.
  Qed.

Lemma setCellType_in cells c v :
    inGrid w h c = true ->
    setCellType checked w h cells (vx c) (vz c) v
    = Done (<[linearize w (vx c) (vz c) := v]> cells).
  Proof.
    intros Hc. apply inGrid_spec in Hc. unfold setCellType.
    rewrite writeCell_in; [done|]. apply linearize_range; lia.
  Qed.

  (** The array after the two [for] loops: [Solid] on every index of the
      grid, a hole elsewhere. *)
Lemma fillSolid_spec :
    0 <= w -> 0 <= h ->
    exists m, fillSolid checked w h ∅ = Done m /\
      forall i, m !! i = if decide (0 <= i < w * h) then Some Solid else None.
  Proof.
    intros Hw Hh. unfold fillSolid. rewrite forZ_forNat.
    assert (Hrow : forall z m, 0 <= z < h ->
      exists m', fillRow checked w h z (Done m) = Done m' /\
        forall i, m' !! i
          = if decide (z * w <= i < z * w + w) then Some Solid else m !! i).
    { intros z m Hz. unfold fillRow. rewrite forZ_forNat.
      assert (Hk : forall k : nat, Z.of_nat k <= w ->
        exists m', forNat k 0
            (fun x acc => m0 ← acc; writeCell checked w h m0 (z * w + x) Solid)
            (Done m) = Done m' /\
          forall i, m' !! i
            = if decide (z * w <= i < z * w + Z.of_nat k) then Some Solid else m !! i).
      { induction k as [|k IH]; intros Hle.
        - exists m. split; [done|]. intros i. case_decide; [lia|done].
        - destruct IH as (m' & E & L); [lia|].
          rewrite forNat_snoc, E. simpl.
          rewrite writeCell_in by nia.
          eexists. split; [done|]. intros i.
          rewrite lookup_insert. rewrite L.
          repeat case_decide; try done; lia. }
      destruct (Hk (Z.to_nat w)) as (m' & E & L); [lia|].
      exists m'. split; [done|]. intros i. rewrite L.
      repeat case_decide; try done; lia. }
    assert (Hk : forall k : nat, Z.of_nat k <= h ->
      exists m, forNat k 0 (fillRow checked w h) (Done ∅) = Done m /\
        forall i, m !! i
          = if decide (0 <= i < w * Z.of_nat k) then Some Solid else None).
    { induction k as [|k IH]; intros Hle.
      - exists ∅. split; [done|]. intros i. rewrite lookup_empty.
        case_decide; [lia|done].
      - destruct IH as (m & E & L); [lia|].
        rewrite forNat_snoc, E.
        destruct (Hrow (0 + Z.of_nat k) m) as (m' & E' & L'); [lia|].
        exists m'. split; [done|]. intros i. rewrite L', L.
        repeat case_decide; try done; nia. }
    destruct (Hk (Z.to_nat h)) as (m & E & L); [lia|].
    exists m. split; [done|]. intros i. rewrite L.
    repeat case_decide; try done; nia.
  Qed.
End GridFacts.

(** ** One carving step on the counts of cells and connections *)

Lemma odd_mod x : Z.odd x = true <-> x mod 2 = 1.
Proof.
  rewrite Z.odd_spec. split.
  - intros [k ->]. lia.
  - intros H. exists (x / 2). lia.
Qed.

Lemma even_mod x : Z.even x = true <-> x mod 2 = 0.
Proof.
  rewrite Z.even_spec. split.
  - intros [k ->]. lia.
  - intros H. exists (x / 2). lia.
Qed.

Lemma same_spec u c : same u c = true <-> u = c.
Proof.
  unfold same. rewrite andb_true_iff, !Z.eqb_eq.
  destruct u, c; simpl. split; [intros [-> ->]; done|intros [=]; done].
Qed.

Ltac split_tests :=
  repeat match goal with
  | |- context [?a =? ?b] =>
      destruct (Z.eqb_spec a b); simpl; try (exfalso; lia)
  end.

Ltac abstract_bools :=
  repeat match goal with
  | |- context [?E (mkVec ?a ?b)] => generalize (E (mkVec a b)); intro
  end;
  repeat match goal with b : bool |- _ => destruct b end.

Lemma conn_step (E E' : Vector2 -> bool) c0 d :
  vx c0 mod 2 = 1 -> vz c0 mod 2 = 1 ->
  (forall u, E' u = E u || same u c0 || same u (stepIn c0 d 1)) ->
  (forall a b, Z.abs (a - vx c0) + Z.abs (b - vz c0) = 1 -> E (mkVec a b) = false) ->
  (forall a b, a mod 2 = 0 -> b mod 2 = 0 -> E (mkVec a b) = false) ->
  E c0 = false -> E (stepIn c0 d 2) = true ->
  forall u,
    ind (E' u && E' (stepIn u Right 1)) + ind (E' u && E' (stepIn u Down 1))
    = ind (E u && E (stepIn u Right 1)) + ind (E u && E (stepIn u Down 1))
      + ind (same u (firstOf c0 d)) + ind (same u (secondOf c0 d)).
Proof.
  intros Hx Hz HE' Hnb Hee Hc0 Ht u.
  assert (Hc0' : forall a b, a = vx c0 -> b = vz c0 -> E (mkVec a b) = false).
  { intros a b -> ->. by destruct c0. }
  assert (Ht' : forall a b, a = vx (stepIn c0 d 2) -> b = vz (stepIn c0 d 2) ->
                 E (mkVec a b) = true).
  { intros a b -> ->. by destruct (stepIn c0 d 2). }
  clear Hc0 Ht. rewrite !HE'. clear HE'.
  destruct u as [x z], c0 as [x0 z0]. unfold same.
  destruct d; simpl in *; split_tests;
    repeat match goal with
    | |- context [E (mkVec ?a ?b)] =>
        first [ rewrite (Hc0' a b) by lia
              | rewrite (Ht' a b) by lia
              | rewrite (Hnb a b) by lia
              | rewrite (Hee a b) by lia ]
    end; simpl; abstract_bools; reflexivity.
Qed.

(** ** The grid under a write *)

Section Writes.
Variables w h : Z.
Hypothesis Hw : 0 < w.

Lemma inGrid_index c : inGrid w h c = true ->
    0 <= linearize w (vx c) (vz c) < w * h.
  Proof. intros Hc%inGrid_spec. apply linearize_range; lia. Qed.

Lemma index_inj u c : inGrid w h u = true -> inGrid w h c = true ->
    linearize w (vx u) (vz u) = linearize w (vx c) (vz c) -> u = c.
  Proof.
    intros Hu%inGrid_spec Hc%inGrid_spec E.
    apply linearize_inj in E as [? ?]; [|lia..].
    destruct u, c; simpl in *; congruence.
  Qed.

Lemma isEmpty_inGrid m c : isEmpty w h m c = true -> inGrid w h c = true.
  Proof. unfold isEmpty. by intros [? _]%andb_true_iff. Qed.


Lemma isEmpty_not_isSolid m c : isEmpty w h m c = true -> isSolid w h m c = false.
  Proof.
    unfold isEmpty, isSolid. intros [-> E]%andb_true_iff. simpl.
    apply bool_decide_eq_true in E. rewrite E.
    by apply bool_decide_eq_false.
  Qed.

Lemma isEmpty_insert m c u :
    inGrid w h c = true ->
    isEmpty w h (<[linearize w (vx c) (vz c) := Empty]> m) u
    = isEmpty w h m u || same u c.
  Proof.
    intros Hc. unfold isEmpty, cellAt.
    destruct (same u c) eqn:Es.
    - apply same_spec in Es. subst u. rewrite Hc, lookup_insert_eq.
      rewrite bool_decide_eq_true_2 by done. by rewrite orb_true_r.
    - rewrite orb_false_r. destruct (inGrid w h u) eqn:Hu; [|done]. simpl.
      rewrite lookup_insert_ne; [done|].
      intros E. apply index_inj in E; [|done..].
      assert (same u c = true) by (by apply same_spec). congruence.
  Qed.

Lemma isSolid_insert m c u :
    inGrid w h c = true ->
    isSolid w h (<[linearize w (vx c) (vz c) := Empty]> m) u
    = isSolid w h m u && negb (same u c).
  Proof.
    intros Hc. unfold isSolid, cellAt.
    destruct (same u c) eqn:Es.
    - apply same_spec in Es. subst u. rewrite Hc, lookup_insert_eq.
      rewrite bool_decide_eq_false_2 by congruence. simpl. by rewrite andb_false_r.
    - rewrite andb_true_r. destruct (inGrid w h u) eqn:Hu; [|done]. simpl.
      rewrite lookup_insert_ne; [done|].
      intros E. apply index_inj in E; [|done..].
      assert (same u c = true) by (by apply same_spec). congruence.
  Qed.

Lemma isEmpty_carve m c d u :
    inGrid w h c = true -> inGrid w h (stepIn c d 1) = true ->
    isEmpty w h (carve w m c d) u
    = isEmpty w h m u || same u c || same u (stepIn c d 1).
  Proof. intros Hc Hb. unfold carve. by rewrite !isEmpty_insert. Qed.

Lemma isSolid_carve m c d u :
    inGrid w h c = true -> inGrid w h (stepIn c d 1) = true ->
    isSolid w h (carve w m c d) u
    = isSolid w h m u && negb (same u c) && negb (same u (stepIn c d 1)).
  Proof. intros Hc Hb. unfold carve. by rewrite !isSolid_insert. Qed.

Lemma wellFormed_insert m i :
    wellFormed w h m -> 0 <= i < w * h -> wellFormed w h (<[i := Empty]> m).
  Proof.
    intros Hm Hi j. rewrite lookup_insert. case_decide; subst.
    - split; [done|]. by eexists.
    - apply Hm.
  Qed.

Lemma wellFormed_carve m c d :
    wellFormed w h m -> inGrid w h c = true -> inGrid w h (stepIn c d 1) = true ->
    wellFormed w h (carve w m c d).
  Proof.
    intros Hm Hc Hb. unfold carve.
    by repeat (apply wellFormed_insert; [|by apply inGrid_index]).
  Qed.

Lemma reach_mono m m' s c :
    (forall u, isEmpty w h m u = true -> isEmpty w h m' u = true) ->
    reach w h m s c -> reach w h m' s c.
  Proof.
    intros Hmono. induction 1 as [Hs|c d Hc IH Hn].
    - apply reach_start. by apply Hmono.
    - apply reach_step; [done|]. by apply Hmono.
  Qed.

Lemma reach_step_to m s c d c' :
    reach w h m s c -> stepIn c d 1 = c' -> isEmpty w h m c' = true ->
    reach w h m s c'.
  Proof. intros Hr <- He. by apply reach_step. Qed.

Lemma reach_isEmpty m s c : reach w h m s c -> isEmpty w h m c = true.
  Proof. by destruct 1. Qed.
End Writes.

(** ** Attaching one intersection to the carved tree *)

Section Attach.
Variables w h : Z.
Variable start : Vector2.
Hypothesis Hw : 0 < w.

Lemma gridSum_same c0 :
    inGrid w h c0 = true -> gridSum w h (fun u => ind (same u c0)) = 1.
  Proof.
    intros Hc. rewrite <- (gridSum_delta w h c0 Hc).
    apply gridSum_ext. intros u _. f_equal.
    destruct (same u c0) eqn:E.
    - apply same_spec in E. by rewrite bool_decide_eq_true_2.
    - rewrite bool_decide_eq_false_2; [done|].
      intros ->. assert (same c0 c0 = true) by (by apply same_spec). congruence.
  Qed.

Lemma isIntersection_spec c :
    isIntersection w h c = true <->
    inGrid w h c = true /\ vx c mod 2 = 1 /\ vz c mod 2 = 1.
  Proof.
    unfold isIntersection. rewrite !andb_true_iff, !odd_mod. tauto.
  Qed.

Lemma between_inGrid c d :
    inGrid w h c = true -> inGrid w h (stepIn c d 2) = true ->
    inGrid w h (stepIn c d 1) = true.
  Proof.
    rewrite !inGrid_spec. destruct c as [x z], d; simpl; lia.
  Qed.

Section Step.
Variables (m : gmap Z CellType) (unvisited : Z) (c0 : Vector2) (d : Direction).
Hypothesis HI : Inv w h start m unvisited.
Hypothesis Hc0 : isIntersection w h c0 = true.
Hypothesis Hsolid : isSolid w h m c0 = true.
Hypothesis Ht : isIntersection w h (stepIn c0 d 2) = true.
Hypothesis Hempty : isEmpty w h m (stepIn c0 d 2) = true.

Local Abbreviation E := (isEmpty w h m).
Local Abbreviation E' := (isEmpty w h (carve w m c0 d)).

Lemma step_c0_grid : inGrid w h c0 = true.
    Proof. by apply isIntersection_spec in Hc0 as [? _]. Qed.

Lemma step_b_grid : inGrid w h (stepIn c0 d 1) = true.
    Proof.
      apply between_inGrid; [apply step_c0_grid|].
      by apply isIntersection_spec in Ht as [? _].
    Qed.

Lemma step_E' u : E' u = E u || same u c0 || same u (stepIn c0 d 1).
    Proof. apply isEmpty_carve; [apply step_c0_grid|apply step_b_grid]. Qed.

Lemma step_c0_not_empty : E c0 = false.
    Proof.
      destruct (E c0) eqn:He; [|done].
      apply isEmpty_not_isSolid in He. congruence.
    Qed.

Lemma step_even_even a b : a mod 2 = 0 -> b mod 2 = 0 -> E (mkVec a b) = false.
    Proof.
      intros Ha Hb. destruct (E (mkVec a b)) eqn:He; [|done].
      apply (inv_hlink _ _ _ _ _ HI) in He as [Ho _]; [|by apply even_mod].
      apply odd_mod in Ho. simpl in Ho. lia.
    Qed.

Lemma step_neighbours a b :
      Z.abs (a - vx c0) + Z.abs (b - vz c0) = 1 -> E (mkVec a b) = false.
    Proof.
      intros Hab. destruct (E (mkVec a b)) eqn:He; [|done]. exfalso.
      pose proof step_c0_not_empty as Hn.
      pose proof (proj1 (isIntersection_spec _) Hc0) as (_ & Hx & Hz).
      destruct c0 as [x0 z0]. simpl in Hx, Hz, Hab.
      destruct (decide (b = z0)) as [->|Hb].
      - apply (inv_hlink _ _ _ _ _ HI) in He as (_ & H1 & H2);
          [|apply even_mod; simpl; lia]. simpl in H1, H2.
        destruct (decide (a = x0 + 1)) as [->|].
        + replace (x0 + 1 - 1) with x0 in H1 by lia. congruence.
        + replace (a + 1) with x0 in H2 by lia. congruence.
      - assert (a = x0) as -> by lia.
        apply (inv_vlink _ _ _ _ _ HI) in He as (_ & H1 & H2);
          [|apply even_mod; simpl; lia]. simpl in H1, H2.
        destruct (decide (b = z0 + 1)) as [->|].
        + replace (z0 + 1 - 1) with z0 in H1 by lia. congruence.
        + replace (b + 1) with z0 in H2 by lia. congruence.
    Qed.

Lemma step_b_not_empty : E (stepIn c0 d 1) = false.
    Proof.
      replace (stepIn c0 d 1)
        with (mkVec (vx (stepIn c0 d 1)) (vz (stepIn c0 d 1)))
        by (by destruct (stepIn c0 d 1)).
      apply step_neighbours. destruct c0 as [x0 z0], d; simpl; lia.
    Qed.

Lemma step_mono u : E u = true -> E' u = true.
    Proof. intros He. by rewrite step_E', He. Qed.

Lemma step_emptyCount :
      emptyCount w h (carve w m c0 d) = emptyCount w h m + 2.
    Proof.
      unfold emptyCount.
      rewrite (gridSum_ext _ _ _
        (fun u => ind (E u) + ind (same u c0) + ind (same u (stepIn c0 d 1)))).
      - rewrite !gridSum_add, !gridSum_same; [lia|apply step_b_grid|apply step_c0_grid].
      - intros u _. rewrite step_E'.
        pose proof step_c0_not_empty as H1. pose proof step_b_not_empty as H2.
        destruct (same u c0) eqn:E1.
        + apply same_spec in E1. subst u. rewrite H1. simpl.
          replace (same c0 (stepIn c0 d 1)) with false; [done|].
          symmetry. apply not_true_is_false. intros E2%same_spec.
          destruct c0 as [x0 z0], d; simpl in E2; injection E2; lia.
        + destruct (same u (stepIn c0 d 1)) eqn:E2.
          * apply same_spec in E2. subst u. by rewrite H2.
          * by destruct (E u).
    Qed.

Lemma step_connections :
      connections w h (carve w m c0 d) = connections w h m + 2.
    Proof.
      unfold connections, connected.
      pose proof (proj1 (isIntersection_spec _) Hc0) as (Hg & Hx & Hz).
      pose proof (proj1 (isIntersection_spec _) Ht) as (Hgt & _).
      pose proof step_b_grid as Hgb.
      rewrite (gridSum_ext _ _ _
        (fun u => (ind (E u && E (stepIn u Right 1)) + ind (E u && E (stepIn u Down 1)))
                  + ind (same u (firstOf c0 d)) + ind (same u (secondOf c0 d)))).
      - rewrite !gridSum_add, !gridSum_same; [lia|by destruct d..].
      - intros u _.
        apply (conn_step E E' c0 d); try done.
        + apply step_E'.
        + apply step_neighbours.
        + apply step_even_even.
        + apply step_c0_not_empty.
    Qed.

Lemma step_solidIntersections :
      solidIntersections w h m = solidIntersections w h (carve w m c0 d) + 1.
    Proof.
      unfold solidIntersections.
      rewrite <- (gridSum_same c0 step_c0_grid), <- gridSum_add.
      apply gridSum_ext. intros u _.
      rewrite isSolid_carve; [|apply step_c0_grid|apply step_b_grid].
      destruct (same u c0) eqn:E1.
      - apply same_spec in E1. subst u. by rewrite Hc0, Hsolid.
      - destruct (same u (stepIn c0 d 1)) eqn:E2.
        + apply same_spec in E2. subst u.
          replace (isIntersection w h (stepIn c0 d 1)) with false; [done|].
          symmetry. apply not_true_is_false. intros Hb.
          apply isIntersection_spec in Hb as (_ & Hbx & Hbz).
          pose proof (proj1 (isIntersection_spec _) Hc0) as (_ & Hx & Hz).
          destruct c0 as [x0 z0], d; simpl in *; lia.
        + simpl. rewrite !andb_true_r. lia.
    Qed.

Lemma step_reach_new :
      reach w h (carve w m c0 d) start (stepIn c0 d 1) /\
      reach w h (carve w m c0 d) start c0.
    Proof.
      assert (Hrt : reach w h (carve w m c0 d) start (stepIn c0 d 2)).
      { apply (reach_mono w h m); [apply step_mono|].
        by apply (inv_reach _ _ _ _ _ HI). }
      assert (Hb : E' (stepIn c0 d 1) = true).
      { rewrite step_E'. replace (same (stepIn c0 d 1) (stepIn c0 d 1)) with true.
        - apply orb_true_r.
        - symmetry. by apply same_spec. }
      assert (Hc : E' c0 = true).
      { rewrite step_E'. replace (same c0 c0) with true.
        - by rewrite orb_true_r.
        - symmetry. by apply same_spec. }
      assert (Hrb : reach w h (carve w m c0 d) start (stepIn c0 d 1)).
      { apply (reach_step_to w h _ _ (stepIn c0 d 2) (opposite d)); [done| |done].
        destruct c0 as [x0 z0], d; simpl; f_equal; lia. }
      split; [done|].
      apply (reach_step_to w h _ _ (stepIn c0 d 1) (opposite d)); [done| |done].
      destruct c0 as [x0 z0], d; simpl; f_equal; lia.
    Qed.

    (** The tree grows by the leaf [c0], hung on [stepIn c0 d 2]. *)
Lemma attach : Inv w h start (carve w m c0 d) (unvisited - 1).
    Proof.
      pose proof (proj1 (isIntersection_spec _) Hc0) as (Hg & Hx & Hz).
      pose proof step_b_grid as Hgb.
      pose proof step_E' as HE'.
      pose proof step_mono as Hmono.
      pose proof step_reach_new as [Hrb Hrc].
      pose proof (reach_isEmpty _ _ _ _ _ Hrb) as HEb.
      pose proof (reach_isEmpty _ _ _ _ _ Hrc) as HEc.
      pose proof (Hmono _ Hempty) as HEt.
      pose proof step_emptyCount as Hcnt.
      pose proof step_connections as Hconn.
      pose proof step_solidIntersections as Hsol.
      assert (Hpick : forall u, E' u = true ->
        forall u', u' = u -> E' u' = true) by (by intros u Hu u' ->).
      split.
      - by apply wellFormed_carve; [apply (inv_wf _ _ _ _ _ HI)|..].
      - apply Hmono, (inv_start _ _ _ _ _ HI).
      - intros c He Hev. rewrite HE' in He.
        apply orb_true_iff in He as [He|Hb].
        apply orb_true_iff in He as [He|Hc].
        + destruct (inv_hlink _ _ _ _ _ HI c He Hev) as (? & ? & ?). auto.
        + apply same_spec in Hc. subst c. apply even_mod in Hev. lia.
        + apply same_spec in Hb. subst c. apply even_mod in Hev.
          rewrite odd_mod. clear HE' Hmono Hrb Hrc Hcnt Hconn Hsol.
          destruct c0 as [x0 z0], d; simpl in *; try lia;
            (split; [done|]; split;
             first [ apply (Hpick _ HEt); f_equal; lia
                   | apply (Hpick _ HEc); f_equal; lia ]).
      - intros c He Hev. rewrite HE' in He.
        apply orb_true_iff in He as [He|Hb].
        apply orb_true_iff in He as [He|Hc].
        + destruct (inv_vlink _ _ _ _ _ HI c He Hev) as (? & ? & ?). auto.
        + apply same_spec in Hc. subst c. apply even_mod in Hev. lia.
        + apply same_spec in Hb. subst c. apply even_mod in Hev.
          rewrite odd_mod. clear HE' Hmono Hrb Hrc Hcnt Hconn Hsol.
          destruct c0 as [x0 z0], d; simpl in *; try lia;
            (split; [done|]; split;
             first [ apply (Hpick _ HEt); f_equal; lia
                   | apply (Hpick _ HEc); f_equal; lia ]).
      - intros c He. rewrite HE' in He.
        apply orb_true_iff in He as [He|Hb].
        apply orb_true_iff in He as [He|Hc].
        + apply (reach_mono w h m); [done|].
          by apply (inv_reach _ _ _ _ _ HI).
        + apply same_spec in Hc. by subst c.
        + apply same_spec in Hb. by subst c.
      - pose proof (inv_count _ _ _ _ _ HI). lia.
      - pose proof (inv_unvisited _ _ _ _ _ HI). lia.
    Qed.
End Step.
End Attach.

(** ** Replaying a recorded trail *)

Section Replay.
Variable checked : bool.
Variables w h : Z.
Variable start : Vector2.

Lemma carve_comm m c d c' d' :
    carve w (carve w m c d) c' d' = carve w (carve w m c' d') c d.
  Proof.
    apply map_eq. intros k. unfold carve. rewrite !lookup_insert.
    repeat case_decide; congruence.
  Qed.

Lemma carveAll_carve m c d steps :
    carveAll w (carve w m c d) steps = carve w (carveAll w m steps) c d.
  Proof.
    induction steps as [|s rest IH]; [done|].
    simpl. rewrite IH. apply carve_comm.
  Qed.

Lemma replay_unfold fuel m path curr unvisited :
    WilsonMaze.replay checked w h fuel m path curr unvisited
    = (c ← getCellType checked w h m (vx curr) (vz curr);
       if decide (c = Some Solid) then
         match fuel with
         | O => Starved
         | S fuel' =>
           cells1 ← setCellType checked w h m (vx curr) (vz curr) Empty;
           match path !! hash curr with
           | None => Throw TypeError
           | Some dir =>
             cells2 ← setCellType checked w h cells1
                        (vx (stepIn curr dir 1)) (vz (stepIn curr dir 1)) Empty;
             WilsonMaze.replay checked w h fuel' cells2 path (stepIn curr dir 2)
               (unvisited - 1)
           end
         end
       else Done (m, unvisited)).
  Proof. by destruct fuel. Qed.

Lemma isSolid_cellAt m c :
    isSolid w h m c = true -> cellAt w m c = Some Solid.
  Proof.
    unfold isSolid. intros [_ H]%andb_true_iff. by apply bool_decide_eq_true in H.
  Qed.

Lemma isEmpty_cellAt m c :
    isEmpty w h m c = true -> cellAt w m c = Some Empty.
  Proof.
    unfold isEmpty. intros [_ H]%andb_true_iff. by apply bool_decide_eq_true in H.
  Qed.

Lemma intersection_not_between c c0 d :
    isIntersection w h c = true -> isIntersection w h c0 = true ->
    same c (stepIn c0 d 1) = false.
  Proof.
    intros (_ & Hx & Hz)%isIntersection_spec (_ & Hx0 & Hz0)%isIntersection_spec.
    apply not_true_is_false. intros ->%same_spec.
    destruct c0 as [x0 z0], d; simpl in *; lia.
  Qed.

Lemma onTrail_carve m path c0 d s :
    isIntersection w h c0 = true -> isIntersection w h (stepIn c0 d 2) = true ->
    s.1 <> c0 -> onTrail w h m path s -> onTrail w h (carve w m c0 d) path s.
  Proof.
    intros Hc0 Ht Hne (Hi & Hs & Hp & Hn). split_and!; try done.
    rewrite isSolid_carve.
    - rewrite Hs, (intersection_not_between _ c0 d) by done.
      replace (same s.1 c0) with false; [done|].
      symmetry. apply not_true_is_false. by intros ?%same_spec.
    - by apply isIntersection_spec in Hc0 as [? _].
    - by apply step_b_grid.
  Qed.

Lemma chained_head from steps t s :
    chained from (s :: steps) t -> s.1 = from.
  Proof. by intros [? _]. Qed.

  (** The replay loop carves exactly the trail, if it is given the steps
      for it. *)
Lemma replay_spec steps : forall fuel m path from t unvisited,
    Trail w h m path from steps t -> isEmpty w h m t = true ->
    WilsonMaze.replay checked w h fuel m path from unvisited
    = if decide (length steps <= fuel)%nat
      then Done (carveAll w m steps, unvisited - Z.of_nat (length steps))
      else Starved.
  Proof.
    induction steps as [|s rest IH]; intros fuel m path from t unvisited
      (Hch & Hnd & Hall & Hti) He; rewrite replay_unfold.
    - simpl in Hch. subst from.
      rewrite getCellType_in by by apply isEmpty_inGrid in He.
      rewrite (isEmpty_cellAt _ _ He). simpl.
      do 2 f_equal. lia.
    - destruct Hch as [Hs Hch]. subst from.
      apply Forall_cons in Hall as [(Hi & Hso & Hp & Hn) Hall].
      pose proof (proj1 (isIntersection_spec _ _ _) Hi) as (Hg & _).
      rewrite getCellType_in by done.
      rewrite (isSolid_cellAt _ _ Hso). simpl.
      destruct fuel as [|fuel]; [by rewrite decide_False by (simpl; lia)|].
      rewrite setCellType_in by done. simpl. rewrite Hp.
      rewrite setCellType_in by by apply step_b_grid. simpl.
      fold (carve w m s.1 s.2).
      simpl in Hnd. apply NoDup_cons in Hnd as [Hnotin Hnd].
      rewrite (IH fuel (carve w m s.1 s.2) path _ t).
      + simpl length. repeat case_decide; try lia.
        * do 2 f_equal; [|lia]. simpl. apply carveAll_carve.
        * done.
      + split_and!; try done.
        apply Forall_forall. intros s' Hs'.
        apply onTrail_carve; try done.
        * intros E. apply Hnotin. apply elem_of_app. left.
          apply list_elem_of_fmap. by exists s'.
        * by apply (proj1 (Forall_forall _ _) Hall).
      + rewrite isEmpty_carve; [|done|by apply step_b_grid].
        by rewrite He.
  Qed.

Lemma isSolid_carveAll m steps u :
    Forall (fun s => isIntersection w h s.1 = true /\
                     isIntersection w h (stepIn s.1 s.2 2) = true) steps ->
    isIntersection w h u = true -> u ∉ steps.*1 ->
    isSolid w h (carveAll w m steps) u = isSolid w h m u.
  Proof.
    induction steps as [|s rest IH]; intros Hall Hu Hnotin; [done|].
    apply Forall_cons in Hall as [[Hi Hn] Hall].
    simpl. rewrite isSolid_carve.
    - rewrite IH; [|done..|].
      + rewrite (intersection_not_between _ s.1 s.2) by done.
        replace (same u s.1) with false; [by rewrite !andb_true_r|].
        symmetry. apply not_true_is_false. intros ->%same_spec.
        apply Hnotin. simpl. left.
      + intros Hin. apply Hnotin. simpl. by right.
    - by apply isIntersection_spec in Hi as [? _].
    - by apply step_b_grid.
  Qed.

  (** Carving a trail that ends on a carved cell keeps the tree. *)
Lemma carveAll_inv steps : forall m path from t unvisited,
    Inv w h start m unvisited ->
    Trail w h m path from steps t -> isEmpty w h m t = true ->
    Inv w h start (carveAll w m steps) (unvisited - Z.of_nat (length steps)) /\
    isEmpty w h (carveAll w m steps) from = true.
  Proof.
    induction steps as [|s rest IH]; intros m path from t unvisited HI
      (Hch & Hnd & Hall & Hti) He.
    - simpl in *. subst from. split; [|done].
      by replace (unvisited - Z.of_nat 0) with unvisited by lia.
    - destruct Hch as [Hs Hch]. subst from.
      pose proof Hall as Hall'.
      apply Forall_cons in Hall as [(Hi & Hso & Hp & Hn) Hall].
      simpl in Hnd. apply NoDup_cons in Hnd as [Hnotin Hnd].
      destruct (IH m path (stepIn s.1 s.2 2) t unvisited HI) as [HI' He'];
        [by split_and!|done|].
      assert (Hso' : isSolid w h (carveAll w m rest) s.1 = true).
      { rewrite isSolid_carveAll; [done| |done|].
        - eapply Forall_impl; [exact Hall|]. by intros s' (? & _ & _ & ?).
        - intros Hin. apply Hnotin. apply elem_of_app. by left. }
      split.
      + simpl carveAll.
        replace (unvisited - Z.of_nat (length (s :: rest)))
          with (unvisited - Z.of_nat (length rest) - 1) by (simpl length; lia).
        by apply attach.
      + simpl carveAll. rewrite isEmpty_carve.
        * replace (same s.1 s.1) with true; [by rewrite orb_true_r|].
          symmetry. by apply same_spec.
        * by apply isIntersection_spec in Hi as [? _].
        * by apply step_b_grid.
  Qed.
End Replay.

(** ** The random walk records a loop-erased trail *)

Section Walk.
Variable checked : bool.
Variables w h : Z.
Hypothesis Hw_odd : Z.odd w = true.
Hypothesis Hh_odd : Z.odd h = true.
Hypothesis Hw_max : w <= 65537.
Hypothesis Hh_max : h <= 65537.

Lemma intersection_bounds c :
    isIntersection w h c = true ->
    1 <= vx c <= w - 2 /\ 1 <= vz c <= h - 2 /\ vx c mod 2 = 1 /\ vz c mod 2 = 1.
  Proof.
    intros (Hg%inGrid_spec & Hx & Hz)%isIntersection_spec.
    apply odd_mod in Hw_odd, Hh_odd. lia.
  Qed.

Lemma hash_intersection_inj c c' :
    isIntersection w h c = true -> isIntersection w h c' = true ->
    hash c = hash c' -> c = c'.
  Proof.
    intros Hc%intersection_bounds Hc'%intersection_bounds.
    apply hash_inj; lia.
  Qed.

Lemma step_intersection c d :
    isIntersection w h c = true -> outside w h (stepIn c d 2) = false ->
    isIntersection w h (stepIn c d 2) = true.
  Proof.
    intros (Hg%inGrid_spec & Hx & Hz)%isIntersection_spec Hout.
    apply isIntersection_spec. rewrite inGrid_spec.
    unfold outside in Hout. rewrite !orb_false_iff in Hout.
    destruct Hout as [[[H1 H2] H3] H4].
    apply Z.ltb_ge in H1, H2.
    rewrite Z.gtb_ltb in H3, H4. apply Z.ltb_ge in H3, H4.
    destruct c as [x z], d; simpl in *; lia.
  Qed.

Lemma stepIn_moves c d : stepIn c d 2 <> c.
  Proof. destruct c as [x z], d; simpl; intros [=]; lia. Qed.

Lemma chained_app from s1 s2 to :
    chained from (s1 ++ s2) to <->
    exists mid, chained from s1 mid /\ chained mid s2 to.
  Proof.
    revert from. induction s1 as [|s rest IH]; intros from; simpl.
    - split; [intros H; by exists from|intros (mid & -> & H); done].
    - rewrite IH. split.
      + intros (Hs & mid & H1 & H2). by exists mid.
      + intros (mid & (Hs & H1) & H2). split; [done|]. by exists mid.
  Qed.

Lemma walk_unfold ds m path curr :
    WilsonMaze.randomWalk_loop checked w h ds m path curr
    = (c ← getCellType checked w h m (vx curr) (vz curr);
       if decide (c = Some Solid) then
         match ds with
         | [] => Starved
         | r :: ds' =>
           let dir := WilsonMaze.randomDir r in
           let nextPos := stepIn curr dir 2 in
           if outside w h nextPos
           then WilsonMaze.randomWalk_loop checked w h ds' m path curr
           else
             let path' := <[hash curr := dir]> path in
             n ← getCellType checked w h m (vx nextPos) (vz nextPos);
             if decide (n <> Some Solid) then Done (path', ds')
             else WilsonMaze.randomWalk_loop checked w h ds' m path' nextPos
         end
       else Done (path, ds)).
  Proof. by destruct ds. Qed.

Section Trail.
Variable m : gmap Z CellType.
Variable from : Vector2.

Lemma onTrail_record path curr dir s :
      isIntersection w h curr = true -> s.1 <> curr ->
      onTrail w h m path s -> onTrail w h m (<[hash curr := dir]> path) s.
    Proof.
      intros Hc Hne (Hi & Hs & Hp & Hn). split_and!; try done.
      rewrite lookup_insert_ne; [done|].
      intros E. apply Hne. symmetry. by apply hash_intersection_inj.
    Qed.

    (** One recorded step: the trail is cut back to the cell the walk
        returns to, or grows by the cell it leaves. *)
Lemma Trail_step path steps curr dir :
      Trail w h m path from steps curr ->
      isSolid w h m curr = true ->
      outside w h (stepIn curr dir 2) = false ->
      exists steps',
        Trail w h m (<[hash curr := dir]> path) from steps' (stepIn curr dir 2).
    Proof.
      intros (Hch & Hnd & Hall & Hci) Hso Hout.
      pose proof (step_intersection _ _ Hci Hout) as Hni.
      apply NoDup_app in Hnd as (Hnd1 & Hnd2 & _).
      assert (Hold : forall s, s ∈ steps ->
                onTrail w h m (<[hash curr := dir]> path) s).
      { intros s Hs. apply onTrail_record; [done| |].
        - intros E. apply (Hnd2 curr); [|left].
          apply list_elem_of_fmap. by exists s.
        - by apply (proj1 (Forall_forall _ _) Hall). }
      destruct (decide (stepIn curr dir 2 ∈ steps.*1)) as [Hin|Hnotin].
      - apply list_elem_of_fmap in Hin as (s & Hs1 & Hs).
        apply list_elem_of_split in Hs as (pre & post & ->).
        exists pre. apply chained_app in Hch as (mid & Hpre & Hmid & _).
        rewrite fmap_app in Hnd1. apply NoDup_app in Hnd1 as (Hp1 & Hp2 & Hp3).
        split_and!.
        + by rewrite Hs1, Hmid.
        + apply NoDup_app. split_and!; [done| |apply NoDup_singleton].
          intros u Hu ->%list_elem_of_singleton.
          apply (Hp2 _ Hu). rewrite Hs1. left.
        + apply Forall_forall. intros s' Hs'. apply Hold.
          apply elem_of_app. by left.
        + done.
      - exists (steps ++ [(curr, dir)]). split_and!.
        + apply chained_app. exists curr. by split.
        + rewrite fmap_app. simpl. apply NoDup_app. split_and!.
          * apply NoDup_app. split_and!; [done|done|apply NoDup_singleton].
          * intros u Hu ->%list_elem_of_singleton.
            apply elem_of_app in Hu as [Hu|Hu%list_elem_of_singleton]; [done|].
            by apply (stepIn_moves curr dir).
          * apply NoDup_singleton.
        + apply Forall_app. split.
          * by apply Forall_forall.
          * apply Forall_singleton. split_and!; try done.
            simpl. apply lookup_insert_eq.
        + done.
    Qed.

Hypothesis Hwf : wellFormed w h m.

Lemma cell_cases c :
      inGrid w h c = true ->
      cellAt w m c = Some Solid \/ cellAt w m c = Some Empty.
    Proof.
      intros Hc. pose proof (inGrid_index w h c Hc) as Hi.
      apply Hwf in Hi as [[|] Hv]; unfold cellAt; rewrite Hv; auto.
    Qed.

Lemma walk_spec ds : forall path curr steps path' ds',
      Trail w h m path from steps curr ->
      WilsonMaze.randomWalk_loop checked w h ds m path curr = Done (path', ds') ->
      exists steps' t,
        Trail w h m path' from steps' t /\ isEmpty w h m t = true.
    Proof.
      induction ds as [|r ds IH]; intros path curr steps path' ds' HT;
        pose proof HT as (_ & _ & _ & Hci);
        pose proof (proj1 (isIntersection_spec _ _ _) Hci) as (Hg & _);
        rewrite walk_unfold, getCellType_in by done; simpl;
        destruct (cell_cases curr Hg) as [Hc|Hc]; rewrite Hc; simpl.
      - done.
      - intros [= <- <-]. exists steps, curr. split; [done|].
        unfold isEmpty. rewrite Hg, Hc. by rewrite bool_decide_eq_true_2.
      - destruct (outside w h (stepIn curr (WilsonMaze.randomDir r) 2)) eqn:Hout.
        + apply (IH _ _ _ _ _ HT).
        + assert (Hso : isSolid w h m curr = true).
          { unfold isSolid. rewrite Hg, Hc. by rewrite bool_decide_eq_true_2. }
          destruct (Trail_step _ _ _ (WilsonMaze.randomDir r) HT Hso Hout)
            as (steps' & HT').
          pose proof HT' as (_ & _ & _ & Hni).
          pose proof (proj1 (isIntersection_spec _ _ _) Hni) as (Hgn & _).
          rewrite getCellType_in by done. simpl.
          destruct (cell_cases _ Hgn) as [Hn|Hn]; rewrite Hn; simpl.
          * apply (IH _ _ _ _ _ HT').
          * intros [= <- <-]. exists steps', (stepIn curr (WilsonMaze.randomDir r) 2).
            split; [done|].
            unfold isEmpty. rewrite Hgn, Hn. by rewrite bool_decide_eq_true_2.
      - intros [= <- <-]. exists steps, curr. split; [done|].
        unfold isEmpty. rewrite Hg, Hc. by rewrite bool_decide_eq_true_2.
    Qed.
End Trail.
End Walk.

(** ** More on sums *)

Lemma sumUpto_nonneg n f :
  (forall i, 0 <= i < Z.of_nat n -> 0 <= f i) -> 0 <= sumUpto n f.
Proof.
  induction n as [|n IH]; intros H; simpl; [lia|].
  assert (0 <= sumUpto n f) by (apply IH; intros; apply H; lia).
  assert (0 <= f (Z.of_nat n)) by (apply H; lia). lia.
Qed.

Lemma gridSum_nonneg w h f :
  (forall c, inGrid w h c = true -> 0 <= f c) -> 0 <= gridSum w h f.
Proof.
  intros H. rewrite gridSum_sumUpto.
  apply sumUpto_nonneg. intros z Hz. apply sumUpto_nonneg. intros x Hx.
  apply H. apply inGrid_spec. simpl. lia.
Qed.

Lemma gridSum_scale w h k f :
  gridSum w h (fun c => k * f c) = k * gridSum w h f.
Proof.
  rewrite !gridSum_sumUpto, <- sumUpto_scale.
  apply sumUpto_ext. intros z _. apply sumUpto_scale.
Qed.

Lemma gridSum_ge w h f c :
  (forall u, inGrid w h u = true -> 0 <= f u) -> inGrid w h c = true ->
  f c <= gridSum w h f.
Proof.
  intros Hf Hc.
  rewrite (gridSum_ext w h f
    (fun u => f c * ind (same u c) + (f u - f c * ind (same u c))))
    by (intros; lia).
  rewrite gridSum_add, gridSum_scale, gridSum_same by done.
  assert (0 <= gridSum w h (fun u => f u - f c * ind (same u c))); [|lia].
  apply gridSum_nonneg. intros u Hu.
  destruct (same u c) eqn:E.
  - apply same_spec in E. subst. simpl. lia.
  - simpl. specialize (Hf u Hu). lia.
Qed.

(** ** The generation loop keeps the tree *)

Section Generate.
Variable checked : bool.
Variables w h : Z.
Variable start : Vector2.
Hypothesis Hw_odd : Z.odd w = true.
Hypothesis Hh_odd : Z.odd h = true.
Hypothesis Hw_min : 3 <= w.
Hypothesis Hh_min : 3 <= h.
Hypothesis Hw_max : w <= 65537.
Hypothesis Hh_max : h <= 65537.

Lemma randomOddCell_intersection r1 r2 :
    isIntersection w h (WilsonMaze.randomOddCell w h r1 r2) = true.
  Proof.
    pose proof (randomOdd_range r1 w Hw_min Hw_odd).
    pose proof (randomOdd_range r2 h Hh_min Hh_odd).
    apply isIntersection_spec. rewrite inGrid_spec.
    unfold WilsonMaze.randomOddCell. simpl. lia.
  Qed.

Lemma Trail_nil m c :
    isIntersection w h c = true -> Trail w h m ∅ c [] c.
  Proof.
    intros Hc. split_and!; [done|apply NoDup_singleton|done|done].
  Qed.

Lemma generateStep_inv fuel ds m unvisited m' unvisited' ds' :
    Inv w h start m unvisited ->
    WilsonMaze.generateStep checked w h fuel ds m unvisited
      = Done (m', unvisited', ds') ->
    Inv w h start m' unvisited' /\ unvisited' <= unvisited.
  Proof.
    intros HI. unfold WilsonMaze.generateStep.
    destruct ds as [|r1 [|r2 ds1]]; [done..|].
    unfold WilsonMaze.randomWalk.
    destruct (WilsonMaze.randomWalk_loop checked w h ds1 m ∅ _)
      as [[path ds2]| |] eqn:Hwalk; [|done..]. simpl.
    eapply (walk_spec checked w h Hw_odd Hh_odd Hw_max Hh_max) in Hwalk
      as (steps & t & HT & He);
      [|apply (inv_wf _ _ _ _ _ HI)|apply Trail_nil, randomOddCell_intersection].
    rewrite (replay_spec checked w h steps _ _ _ _ t) by done.
    case_decide; [|done]. simpl. intros [= <- <- <-].
    split; [|lia].
    by eapply carveAll_inv.
  Qed.

Lemma generate_loop_inv fuel : forall ds m unvisited m',
    Inv w h start m unvisited ->
    WilsonMaze.generate_loop checked w h fuel ds m unvisited = Done m' ->
    exists unvisited', Inv w h start m' unvisited' /\ unvisited' <= 0.
  Proof.
    induction fuel as [|fuel IH]; intros ds m unvisited m' HI; simpl;
      destruct (Z.gtb_spec unvisited 0) as [Hgt|Hle]; try done.
    - intros [= <-]. exists unvisited. split; [done|lia].
    - destruct (WilsonMaze.generateStep checked w h (S fuel) ds m unvisited)
        as [[[m1 u1] ds1]| |] eqn:Hstep; [|done..].
      apply generateStep_inv in Hstep as [HI1 _]; [|done].
      simpl. by apply IH.
    - intros [= <-]. exists unvisited. split; [done|lia].
  Qed.

  (** Once the counter is spent, every intersection is carved. *)
Lemma all_carved m unvisited c :
    Inv w h start m unvisited -> unvisited <= 0 ->
    isIntersection w h c = true -> isEmpty w h m c = true.
  Proof.
    intros HI Hu Hc.
    pose proof (proj1 (isIntersection_spec _ _ _) Hc) as (Hg & _).
    pose proof (inv_unvisited _ _ _ _ _ HI) as Hcount.
    unfold solidIntersections in Hcount.
    pose proof (gridSum_ge w h
      (fun c => ind (isIntersection w h c && isSolid w h m c)) c) as Hge.
    simpl in Hge. rewrite Hc in Hge. simpl in Hge.
    destruct (cell_cases w h m (inv_wf _ _ _ _ _ HI) c Hg) as [Hs|He].
    - unfold isSolid in Hge. rewrite Hg, Hs in Hge.
      rewrite bool_decide_eq_true_2 in Hge by done. simpl in Hge.
      assert (1 <= unvisited); [|lia]. rewrite Hcount. apply Hge; [|done].
      intros u _. by destruct (_ && _).
    - unfold isEmpty. rewrite Hg, He. by rewrite bool_decide_eq_true_2.
  Qed.

  (** The ring of boundary cells stays [Solid]. *)
Lemma boundary_solid m unvisited c :
    Inv w h start m unvisited ->
    onBoundary w h c = true -> isSolid w h m c = true.
  Proof.
    intros HI Hb. unfold onBoundary in Hb.
    apply andb_true_iff in Hb as [Hg Hb].
    destruct (isEmpty w h m c) eqn:He.
    - exfalso. apply odd_mod in Hw_odd, Hh_odd.
      pose proof (proj1 (inGrid_spec _ _ _) Hg) as Hgc.
      rewrite !orb_true_iff, !Z.eqb_eq in Hb.
      destruct (decide (vx c = 0 \/ vx c = w - 1)) as [Hx|Hx].
      + destruct (inv_hlink _ _ _ _ _ HI c He) as (_ & H1 & H2).
        { apply even_mod. lia. }
        apply isEmpty_inGrid, inGrid_spec in H1, H2. simpl in H1, H2. lia.
      + destruct (inv_vlink _ _ _ _ _ HI c He) as (_ & H1 & H2).
        { apply even_mod. lia. }
        apply isEmpty_inGrid, inGrid_spec in H1, H2. simpl in H1, H2. lia.
    - destruct (cell_cases w h m (inv_wf _ _ _ _ _ HI) c Hg) as [Hs|He'].
      + unfold isSolid. rewrite Hg, Hs. by rewrite bool_decide_eq_true_2.
      + unfold isEmpty in He. rewrite Hg, He' in He.
        by rewrite bool_decide_eq_true_2 in He.
  Qed.
End Generate.

(** ** The grid the constructor hands to [generateMaze] *)

Section Initial.
Variables w h : Z.
Variable start : Vector2.
Variable m1 : gmap Z CellType.
Hypothesis Hw : 0 <= w.
Hypothesis Hh : 0 <= h.
Hypothesis Hm1 : forall i, m1 !! i = if decide (0 <= i < w * h) then Some Solid else None.
Hypothesis Hstart : isIntersection w h start = true.

Local Abbreviation m2 := (<[linearize w (vx start) (vz start) := Empty]> m1).

Lemma initial_isEmpty u : isEmpty w h m2 u = same u start.
  Proof.
    pose proof (proj1 (isIntersection_spec _ _ _) Hstart) as (Hg & _).
    rewrite isEmpty_insert by done.
    unfold isEmpty, cellAt. rewrite Hm1.
    case_decide; rewrite bool_decide_eq_false_2 by congruence;
      by rewrite andb_false_r.
  Qed.

Lemma initial_isSolid u : isSolid w h m2 u = inGrid w h u && negb (same u start).
  Proof.
    pose proof (proj1 (isIntersection_spec _ _ _) Hstart) as (Hg & _).
    rewrite isSolid_insert by done. f_equal.
    unfold isSolid, cellAt. rewrite Hm1.
    destruct (inGrid w h u) eqn:Hu; [|done].
    apply inGrid_index in Hu. rewrite decide_True by done.
    by rewrite bool_decide_eq_true_2.
  Qed.

Lemma initial_inv : Inv w h start m2 ((w / 2) * (h / 2) - 1).
  Proof.
    pose proof (proj1 (isIntersection_spec _ _ _) Hstart) as (Hg & Hx & Hz).
    assert (Hss : same start start = true) by (by apply same_spec).
    split.
    - intros i. rewrite lookup_insert. case_decide as Hi.
      + subst i. split; [intros _; by apply inGrid_index|by eexists].
      + rewrite Hm1. case_decide as Hr.
        * split; [done|by eexists].
        * split; [by intros [? ?]|done].
    - by rewrite initial_isEmpty.
    - intros c Hc Hev. rewrite initial_isEmpty in Hc.
      apply same_spec in Hc. subst. apply even_mod in Hev. lia.
    - intros c Hc Hev. rewrite initial_isEmpty in Hc.
      apply same_spec in Hc. subst. apply even_mod in Hev. lia.
    - intros c Hc. rewrite initial_isEmpty in Hc.
      apply same_spec in Hc. subst. apply reach_start. by rewrite initial_isEmpty.
    - unfold emptyCount, connections.
      rewrite (gridSum_ext _ _ _ (fun u => ind (same u start)))
        by (intros; by rewrite initial_isEmpty).
      rewrite gridSum_same by done.
      rewrite (gridSum_ext _ _ _ (fun _ => 0)); [by rewrite gridSum_zero|].
      intros u _. unfold connected. rewrite !initial_isEmpty.
      destruct (same u start) eqn:E; [|done].
      apply same_spec in E. subst u.
      replace (same (stepIn start Right 1) start) with false.
      replace (same (stepIn start Down 1) start) with false; [done|].
      + symmetry. apply not_true_is_false. intros E%same_spec.
        destruct start; simpl in E; injection E; lia.
      + symmetry. apply not_true_is_false. intros E%same_spec.
        destruct start; simpl in E; injection E; lia.
    - unfold solidIntersections.
      rewrite <- (gridSum_intersections w h Hw Hh).
      rewrite (gridSum_ext w h (fun c => ind (isIntersection w h c))
        (fun c => ind (isIntersection w h c && isSolid w h m2 c)
                  + ind (same c start))).
      + rewrite gridSum_add, gridSum_same by done. lia.
      + intros u Hu. rewrite initial_isSolid, Hu.
        destruct (same u start) eqn:E.
        * apply same_spec in E. subst u. by rewrite Hstart.
        * simpl. rewrite andb_true_r. lia.
  Qed.
End Initial.

(** ** The constructor *)

Lemma normalize_odd n : Z.odd (WilsonMaze.normalize n) = true.
Proof.
  unfold WilsonMaze.normalize. apply odd_mod.
  destruct (Z.eqb_spec (Z.rem n 2) 0) as [E|E].
  - apply Z.rem_divide in E; [|lia]. destruct E as [k ->]. lia.
  - assert (n mod 2 <> 0); [|lia].
    intros Hm. apply E. apply Z.rem_divide; [lia|].
    exists (n / 2). lia.
Qed.

Lemma normalize_cases n :
  (Z.even n = true /\ WilsonMaze.normalize n = n + 1) \/
  (Z.odd n = true /\ WilsonMaze.normalize n = n).
Proof.
  pose proof (normalize_odd n) as Ho. unfold WilsonMaze.normalize in *.
  destruct (Z.eqb_spec (Z.rem n 2) 0) as [E|E].
  - left. split; [|done]. rewrite <- Z.negb_odd.
    replace n with (n + 1 - 1) by lia.
    rewrite Z.odd_sub, Ho. done.
  - right. rewrite Z.add_0_r in Ho. split; [done|lia].
Qed.

Lemma normalize_idem n : WilsonMaze.normalize (WilsonMaze.normalize n) = WilsonMaze.normalize n.
Proof.
  destruct (normalize_cases (WilsonMaze.normalize n)) as [[He _]|[_ E]]; [|done].
  rewrite <- Z.negb_odd, normalize_odd in He. done.
Qed.

Lemma default_start_intersection w h :
  3 <= w -> 3 <= h -> isIntersection w h (mkVec 1 1) = true.
Proof.
  intros Hw Hh. apply isIntersection_spec. rewrite inGrid_spec. simpl. lia.
Qed.

Lemma generate_loop_spent checked w h fuel ds m unvisited :
  unvisited <= 0 ->
  WilsonMaze.generate_loop checked w h fuel ds m unvisited = Done m.
Proof.
  intros Hu. destruct fuel; simpl; by destruct (Z.gtb_spec unvisited 0); try lia.
Qed.

Section Constructor.
Variable checked : bool.
Variables (fuel : nat) (ds : list Rand) (W H : Z) (goalPos : option Vector2).

Local Abbreviation w := (WilsonMaze.normalize W).
Local Abbreviation h := (WilsonMaze.normalize H).
Local Abbreviation start := (mkVec 1 1).

Hypothesis Hw : 3 <= w <= 65537.
Hypothesis Hh : 3 <= h <= 65537.

  (** What a returned maze is, in terms of the tree invariant. *)
Lemma initialCells_too_big i :
    4294967296 <= w * h ->
    WilsonMaze.initialCells checked w h i = Throw RangeError.
  Proof.
    intros Hbig. unfold WilsonMaze.initialCells, newArray.
    destruct (Z.ltb_spec (w * h) 4294967296); [lia|].
    by rewrite andb_false_r.
  Qed.

Lemma initialCells_spec :
    w * h < 4294967296 ->
    exists m1,
      WilsonMaze.initialCells checked w h (linearize w 1 1)
        = Done (<[linearize w 1 1 := Empty]> m1) /\
      forall i, m1 !! i = if decide (0 <= i < w * h) then Some Solid else None.
  Proof.
    intros Hsize. unfold WilsonMaze.initialCells.
    destruct (fillSolid_spec checked w h) as (m1 & Hfill & Hm1); [lia..|].
    exists m1. split; [|done].
    pose proof (default_start_intersection w h (proj1 Hw) (proj1 Hh)) as Hs.
    pose proof (proj1 (isIntersection_spec _ _ _) Hs) as (Hg & _).
    unfold newArray.
    destruct (Z.leb_spec 0 (w * h)); [|nia].
    destruct (Z.ltb_spec (w * h) 4294967296); [|lia].
    simpl. rewrite Hfill. simpl.
    by rewrite writeCell_in by (by apply (inGrid_index w h start)).
  Qed.

  (** What a returned maze is, in terms of the tree invariant. *)
Lemma new_inv mz :
    WilsonMaze.new checked fuel ds W H None goalPos = Done mz ->
    WilsonMaze.width mz = w /\ WilsonMaze.height mz = h /\
    WilsonMaze.startIndex mz = linearize w 1 1 /\
    exists unvisited,
      Inv w h start (WilsonMaze.cells mz) unvisited /\ unvisited <= 0.
  Proof.
    unfold WilsonMaze.new. simpl.
    destruct (Z.lt_ge_cases (w * h) 4294967296) as [Hsize|Hbig];
      [|by rewrite initialCells_too_big by lia].
    destruct (initialCells_spec Hsize) as (m1 & -> & Hm1). simpl.
    pose proof (default_start_intersection w h (proj1 Hw) (proj1 Hh)) as Hs.
    destruct (WilsonMaze.generateMaze _ _ _ _ _ _) as [m3| |] eqn:Hgen; [|done..].
    simpl. intros [= <-]. simpl. split_and!; try done.
    unfold WilsonMaze.generateMaze in Hgen.
    eapply generate_loop_inv in Hgen; try done; try lia; try apply normalize_odd.
    apply (initial_inv w h start m1); try done; lia.
  Qed.
End Constructor.

(** ** The checked reading of the array never reports an access *)

Local Arguments WilsonMaze.randomWalk_loop : simpl never.

Section Modes.
Variables w h : Z.
Variable start : Vector2.
Hypothesis Hw_odd : Z.odd w = true.
Hypothesis Hh_odd : Z.odd h = true.
Hypothesis Hw_min : 3 <= w.
Hypothesis Hh_min : 3 <= h.
Hypothesis Hw_max : w <= 65537.
Hypothesis Hh_max : h <= 65537.

Lemma walk_any_mode m from ds : forall path curr steps,
    wellFormed w h m -> Trail w h m path from steps curr ->
    WilsonMaze.randomWalk_loop true w h ds m path curr
    = WilsonMaze.randomWalk_loop false w h ds m path curr.
  Proof.
    induction ds as [|r ds IH]; intros path curr steps Hwf HT;
      pose proof HT as (_ & _ & _ & Hci);
      pose proof (proj1 (isIntersection_spec _ _ _) Hci) as (Hg & _);
      rewrite (walk_unfold true), (walk_unfold false), !getCellType_in by done;
      simpl; [done|].
    destruct (cell_cases w h m Hwf curr Hg) as [Hc|Hc]; rewrite Hc; simpl; [|done].
    destruct (outside w h (stepIn curr (WilsonMaze.randomDir r) 2)) eqn:Hout.
    - exact (IH path curr steps Hwf HT).
    - assert (Hso : isSolid w h m curr = true).
      { unfold isSolid. rewrite Hg, Hc. by rewrite bool_decide_eq_true_2. }
      destruct (Trail_step w h Hw_odd Hh_odd Hw_max Hh_max m from _ _ _
                  (WilsonMaze.randomDir r) HT Hso Hout) as (steps' & HT').
      pose proof HT' as (_ & _ & _ & Hni).
      pose proof (proj1 (isIntersection_spec _ _ _) Hni) as (Hgn & _).
      rewrite !getCellType_in by done. simpl.
      destruct (cell_cases w h m Hwf _ Hgn) as [Hn|Hn];
        pose proof Hn as Hn'; unfold cellAt in Hn'; rewrite ?Hn, ?Hn'; simpl; [|done].
      exact (IH _ _ steps' Hwf HT').
  Qed.

Lemma generateStep_any_mode fuel ds m unvisited :
    Inv w h start m unvisited ->
    WilsonMaze.generateStep true w h fuel ds m unvisited
    = WilsonMaze.generateStep false w h fuel ds m unvisited.
  Proof.
    intros HI. unfold WilsonMaze.generateStep.
    destruct ds as [|r1 [|r2 ds1]]; [done..|].
    unfold WilsonMaze.randomWalk.
    pose proof (randomOddCell_intersection w h Hw_odd Hh_odd Hw_min Hh_min r1 r2) as Hc.
    rewrite (walk_any_mode m _ ds1 ∅ _ [] (inv_wf _ _ _ _ _ HI) (Trail_nil w h m _ Hc)).
    destruct (WilsonMaze.randomWalk_loop false w h ds1 m ∅ _)
      as [[path ds2]| |] eqn:Hwalk; [|done..]. simpl.
    eapply (walk_spec false w h Hw_odd Hh_odd Hw_max Hh_max) in Hwalk
      as (steps & t & HT & He);
      [|apply (inv_wf _ _ _ _ _ HI)|by apply Trail_nil].
    by rewrite !(replay_spec _ w h steps _ _ _ _ t).
  Qed.

Lemma generate_loop_any_mode fuel : forall ds m unvisited,
    Inv w h start m unvisited ->
    WilsonMaze.generate_loop true w h fuel ds m unvisited
    = WilsonMaze.generate_loop false w h fuel ds m unvisited.
  Proof.
    induction fuel as [|fuel IH]; intros ds m unvisited HI; simpl; [done|].
    destruct (Z.gtb_spec unvisited 0) as [Hgt|Hle]; [|done].
    rewrite (generateStep_any_mode _ _ _ _ HI).
    destruct (WilsonMaze.generateStep false w h (S fuel) ds m unvisited)
      as [[[m1 u1] ds1]| |] eqn:Hstep; [|done..].
    apply (generateStep_inv false w h start) in Hstep as [HI1 _]; try done.
    simpl. by apply IH.
  Qed.
End Modes.

Lemma new_any_mode fuel ds W H goalPos :
  3 <= WilsonMaze.normalize W <= 65537 ->
  3 <= WilsonMaze.normalize H <= 65537 ->
  WilsonMaze.new true fuel ds W H None goalPos
  = WilsonMaze.new false fuel ds W H None goalPos.
Proof.
  intros Hw Hh. unfold WilsonMaze.new. simpl.
  destruct (Z.lt_ge_cases (WilsonMaze.normalize W * WilsonMaze.normalize H) 4294967296)
    as [Hsize|Hbig]; [|by rewrite !initialCells_too_big by lia].
  destruct (initialCells_spec true W H Hw Hh Hsize) as (m1 & -> & Hm1).
  destruct (initialCells_spec false W H Hw Hh Hsize) as (m1' & -> & Hm1').
  assert (m1' = m1) as -> by (apply map_eq; intros i; by rewrite Hm1, Hm1').
  simpl. unfold WilsonMaze.generateMaze.
  rewrite (generate_loop_any_mode _ _ (mkVec 1 1)); try done; try lia;
    try apply normalize_odd.
  apply initial_inv; try done; try lia.
  apply default_start_intersection; lia.
Qed.

(** * The claims *)

Lemma new_dims checked fuel ds W H sp gp mz :
  WilsonMaze.new checked fuel ds W H sp gp = Done mz ->
  WilsonMaze.width mz = WilsonMaze.normalize W /\
  WilsonMaze.height mz = WilsonMaze.normalize H /\
  WilsonMaze.startIndex mz
    = linearize (WilsonMaze.normalize W) (vx (default (mkVec 1 1) sp))
        (vz (default (mkVec 1 1) sp)) /\
  WilsonMaze.goalIndex mz
    = linearize (WilsonMaze.normalize W)
        (vx (default (mkVec (WilsonMaze.normalize W - 2) (WilsonMaze.normalize H - 2)) gp))
        (vz (default (mkVec (WilsonMaze.normalize W - 2) (WilsonMaze.normalize H - 2)) gp)).
Proof.
  unfold WilsonMaze.new. simpl.
  destruct (WilsonMaze.initialCells _ _ _ _) as [m2| |]; [|done..]. simpl.
  destruct (WilsonMaze.generateMaze _ _ _ _ _ _) as [m3| |]; [|done..]. simpl.
  by intros [= <-].
Qed.

Lemma normalize_bounds W :
  2 <= W -> 3 <= WilsonMaze.normalize W /\ W <= WilsonMaze.normalize W <= W + 1.
Proof.
  intros HW. pose proof (normalize_odd W) as Ho. apply odd_mod in Ho.
  destruct (normalize_cases W) as [[_ E]|[_ E]]; lia.
Qed.

(** C6. For every coordinate [(x, z)] of a maze, [0 <= x < width] and
    [0 <= z < height], delinearizing the linearized coordinate
    [z * width + x] gives [(x, z)] back. *)
Theorem C6_delinearize_linearize (mz : WilsonMaze.t) (x z : Z) :
  0 <= x < WilsonMaze.width mz -> 0 <= z < WilsonMaze.height mz ->
  linearize (WilsonMaze.width mz) x z = z * WilsonMaze.width mz + x /\
  delinearize (WilsonMaze.width mz) (linearize (WilsonMaze.width mz) x z) = mkVec x z.
Proof.
  intros Hx Hz. split; [done|]. apply delinearize_linearize; lia.
Qed.

Lemma C6_witness :
  0 <= 2 < WilsonMaze.width maze_3x3 /\ 0 <= 1 < WilsonMaze.height maze_3x3 /\
  linearize (WilsonMaze.width maze_3x3) 2 1 = 1 * WilsonMaze.width maze_3x3 + 2 /\
  delinearize (WilsonMaze.width maze_3x3) (linearize (WilsonMaze.width maze_3x3) 2 1)
    = mkVec 2 1.
Proof.
  split; [simpl; lia|]. split; [simpl; lia|].
  apply (C6_delinearize_linearize maze_3x3 2 1); simpl; lia.
Defined.

(** C7. The dimensions of a returned maze are odd, not below the
    requested ones and at most one above them: an even request is
    incremented, an odd one is kept.  The normalization comes first: the
    constructor behaves on the request as on the normalized dimensions. *)
Theorem C7_dimensions_normalized checked fuel ds W H sp gp mz :
  WilsonMaze.new checked fuel ds W H sp gp = Done mz ->
  (Z.odd (WilsonMaze.width mz) = true /\
   W <= WilsonMaze.width mz <= W + 1 /\
   (Z.even W = true -> WilsonMaze.width mz = W + 1) /\
   (Z.odd W = true -> WilsonMaze.width mz = W)) /\
  (Z.odd (WilsonMaze.height mz) = true /\
   H <= WilsonMaze.height mz <= H + 1 /\
   (Z.even H = true -> WilsonMaze.height mz = H + 1) /\
   (Z.odd H = true -> WilsonMaze.height mz = H)) /\
  WilsonMaze.new checked fuel ds W H sp gp
  = WilsonMaze.new checked fuel ds (WilsonMaze.width mz) (WilsonMaze.height mz) sp gp.
Proof.
  intros Hnew. destruct (new_dims _ _ _ _ _ _ _ _ Hnew) as (-> & -> & _).
  assert (Hdim : forall n,
    Z.odd (WilsonMaze.normalize n) = true /\
    n <= WilsonMaze.normalize n <= n + 1 /\
    (Z.even n = true -> WilsonMaze.normalize n = n + 1) /\
    (Z.odd n = true -> WilsonMaze.normalize n = n)).
  { intros n. split; [apply normalize_odd|].
    destruct (normalize_cases n) as [[He E]|[Ho E]]; rewrite E.
    - split_and!; [lia|lia|done|]. rewrite <- Z.negb_even, He. done.
    - split_and!; [lia|lia| |done]. rewrite <- Z.negb_odd, Ho. done. }
  split_and!; try apply Hdim.
  unfold WilsonMaze.new. by rewrite !normalize_idem.
Qed.

Lemma C7_witness :
  exists mz, WilsonMaze.new false 10 sample_draws 4 5 None None = Done mz /\
    WilsonMaze.width mz = 5 /\ WilsonMaze.height mz = 5.
Proof.
  assert (E : { mz | WilsonMaze.new false 10 sample_draws 4 5 None None = Done mz }).
  { eexists. vm_compute. reflexivity. }
  destruct E as [mz E]. exists mz. split; [exact E|].
  destruct (C7_dimensions_normalized false 10 sample_draws 4 5 None None mz E)
    as ((_ & _ & Hw & _) & (_ & _ & _ & Hh) & _).
  split; [apply Hw|apply Hh]; reflexivity.
Defined.

(** C3, as the code has it. The constructor does not validate its
    dimensions: [generate(0, 5)] is not rejected.  Whatever the random
    draws, it normalizes the request to 1 x 5, allocates the five cells,
    marks index 2 [Empty] and returns that maze. *)
Theorem C3_no_dimension_check checked fuel ds :
  WilsonMaze.new checked fuel ds 0 5 None None = Done maze_1x5.
Proof.
  unfold WilsonMaze.new.
  change (WilsonMaze.normalize 0) with 1. change (WilsonMaze.normalize 5) with 5.
  assert (E : WilsonMaze.initialCells checked 1 5 (linearize 1 1 1) = Done cells_1x5)
    by (destruct checked; vm_compute; reflexivity).
  simpl default. simpl vx. simpl vz. rewrite E. simpl.
  unfold WilsonMaze.generateMaze. by rewrite generate_loop_spent.
Qed.

(** C3 fails on the code: the call [generate(0, 5)] returns a maze. *)
Lemma C3_counterexample :
  WilsonMaze.new false 0 [] 0 5 None None = Done maze_1x5 /\
  ~ (exists e, WilsonMaze.new false 0 [] 0 5 None None = Throw e).
Proof.
  assert (E : WilsonMaze.new false 0 [] 0 5 None None = Done maze_1x5)
    by (vm_compute; reflexivity).
  split; [done|]. rewrite E. by intros [e ?].
Qed.

(** ** Generation does not throw *)

Section NoThrow.
Variable checked : bool.
Variables w h : Z.
Variable start : Vector2.
Hypothesis Hw_odd : Z.odd w = true.
Hypothesis Hh_odd : Z.odd h = true.
Hypothesis Hw_min : 3 <= w.
Hypothesis Hh_min : 3 <= h.
Hypothesis Hw_max : w <= 65537.
Hypothesis Hh_max : h <= 65537.

Lemma walk_no_throw m from ds : forall path curr steps e,
    wellFormed w h m -> Trail w h m path from steps curr ->
    WilsonMaze.randomWalk_loop checked w h ds m path curr <> Throw e.
  Proof.
    induction ds as [|r ds IH]; intros path curr steps e Hwf HT;
      pose proof HT as (_ & _ & _ & Hci);
      pose proof (proj1 (isIntersection_spec _ _ _) Hci) as (Hg & _);
      rewrite walk_unfold, getCellType_in by done; simpl;
      destruct (cell_cases w h m Hwf curr Hg) as [Hc|Hc]; rewrite Hc; simpl;
      try done.
    destruct (outside w h (stepIn curr (WilsonMaze.randomDir r) 2)) eqn:Hout.
    - exact (IH path curr steps e Hwf HT).
    - assert (Hso : isSolid w h m curr = true).
      { unfold isSolid. rewrite Hg, Hc. by rewrite bool_decide_eq_true_2. }
      destruct (Trail_step w h Hw_odd Hh_odd Hw_max Hh_max m from _ _ _
                  (WilsonMaze.randomDir r) HT Hso Hout) as (steps' & HT').
      pose proof HT' as (_ & _ & _ & Hni).
      pose proof (proj1 (isIntersection_spec _ _ _) Hni) as (Hgn & _).
      rewrite getCellType_in by done. simpl.
      destruct (cell_cases w h m Hwf _ Hgn) as [Hn|Hn];
        pose proof Hn as Hn'; unfold cellAt in Hn'; rewrite ?Hn, ?Hn'; simpl;
        [|done].
      exact (IH _ _ steps' e Hwf HT').
  Qed.

Lemma generateStep_no_throw fuel ds m unvisited e :
    Inv w h start m unvisited ->
    WilsonMaze.generateStep checked w h fuel ds m unvisited <> Throw e.
  Proof.
    intros HI. unfold WilsonMaze.generateStep.
    destruct ds as [|r1 [|r2 ds1]]; [done..|].
    unfold WilsonMaze.randomWalk.
    pose proof (randomOddCell_intersection w h Hw_odd Hh_odd Hw_min Hh_min r1 r2) as Hc.
    destruct (WilsonMaze.randomWalk_loop checked w h ds1 m ∅ _)
      as [[path ds2]|e'|] eqn:Hwalk; [| |done].
    - simpl.
      eapply (walk_spec checked w h Hw_odd Hh_odd Hw_max Hh_max) in Hwalk
        as (steps & t & HT & He);
        [|apply (inv_wf _ _ _ _ _ HI)|by apply Trail_nil].
      rewrite (replay_spec _ w h steps _ _ _ _ t) by done.
      by case_decide.
    - exfalso. revert Hwalk.
      apply (walk_no_throw m (WilsonMaze.randomOddCell w h r1 r2) ds1 ∅ _ [] e'
               (inv_wf _ _ _ _ _ HI)).
      by apply Trail_nil.
  Qed.

Lemma generate_loop_no_throw fuel : forall ds m unvisited e,
    Inv w h start m unvisited ->
    WilsonMaze.generate_loop checked w h fuel ds m unvisited <> Throw e.
  Proof.
    induction fuel as [|fuel IH]; intros ds m unvisited e HI; simpl;
      destruct (Z.gtb_spec unvisited 0) as [Hgt|Hle]; try done.
    destruct (WilsonMaze.generateStep checked w h (S fuel) ds m unvisited)
      as [[[m1 u1] ds1]|e'|] eqn:Hstep; [| |done].
    - apply (generateStep_inv checked w h start) in Hstep as [HI1 _]; try done.
      simpl. by apply IH.
    - exfalso. by apply (generateStep_no_throw _ _ _ _ e' HI) in Hstep.
  Qed.
End NoThrow.

(** What a maze returned for a request in the domain of [hash] is: the
    invariant of the generation loop with the counter spent. *)
Lemma generated checked fuel ds W H mz :
  2 <= W -> 2 <= H ->
  WilsonMaze.width mz <= 65537 -> WilsonMaze.height mz <= 65537 ->
  WilsonMaze.new checked fuel ds W H None None = Done mz ->
  3 <= WilsonMaze.width mz /\ 3 <= WilsonMaze.height mz /\
  Z.odd (WilsonMaze.width mz) = true /\ Z.odd (WilsonMaze.height mz) = true /\
  WilsonMaze.startPos mz = mkVec 1 1 /\
  WilsonMaze.goalPos mz = mkVec (WilsonMaze.width mz - 2) (WilsonMaze.height mz - 2) /\
  exists unvisited,
    Inv (WilsonMaze.width mz) (WilsonMaze.height mz) (mkVec 1 1)
      (WilsonMaze.cells mz) unvisited /\ unvisited <= 0.
Proof.
  intros HW HH Hwm Hhm Hnew.
  destruct (new_dims _ _ _ _ _ _ _ _ Hnew) as (Ew & Eh & Es & Eg).
  destruct (normalize_bounds W HW) as [Hw3 _].
  destruct (normalize_bounds H HH) as [Hh3 _].
  rewrite Ew, Eh in *.
  destruct (new_inv checked fuel ds W H None) with (mz := mz)
    as (_ & _ & _ & unv & HI & Hu); [lia|lia|done|].
  split_and!; try done; try apply normalize_odd.
  - unfold WilsonMaze.startPos. rewrite Ew, Es. simpl.
    apply delinearize_linearize; lia.
  - unfold WilsonMaze.goalPos. rewrite Ew, Eg. simpl.
    apply delinearize_linearize; lia.
  - by exists unv.
Qed.

(** C4, as the code has it. For a request of at least 2 x 2 whose
    normalized dimensions are at most 65537 (the domain on which [hash]
    tells the intersections apart), a maze generated without explicit
    start and goal has start (1,1) and goal (width-2, height-2), and both
    cells are [Empty].  [generate(2, 2)] gives, whatever the draws, the
    3 x 3 maze whose only [Empty] cell is (1,1), start and goal at once. *)
Theorem C4_start_goal_empty :
  (forall checked fuel ds W H mz,
     2 <= W -> 2 <= H ->
     WilsonMaze.width mz <= 65537 -> WilsonMaze.height mz <= 65537 ->
     WilsonMaze.new checked fuel ds W H None None = Done mz ->
     WilsonMaze.startPos mz = mkVec 1 1 /\
     WilsonMaze.goalPos mz
       = mkVec (WilsonMaze.width mz - 2) (WilsonMaze.height mz - 2) /\
     isEmpty (WilsonMaze.width mz) (WilsonMaze.height mz) (WilsonMaze.cells mz)
       (WilsonMaze.startPos mz) = true /\
     isEmpty (WilsonMaze.width mz) (WilsonMaze.height mz) (WilsonMaze.cells mz)
       (WilsonMaze.goalPos mz) = true) /\
  (forall checked fuel ds,
     WilsonMaze.new checked fuel ds 2 2 None None = Done maze_3x3 /\
     WilsonMaze.startPos maze_3x3 = mkVec 1 1 /\
     WilsonMaze.goalPos maze_3x3 = mkVec 1 1 /\
     emptyCount 3 3 (WilsonMaze.cells maze_3x3) = 1).
Proof.
  split.
  - intros checked fuel ds W H mz HW HH Hwm Hhm Hnew.
    destruct (generated _ _ _ _ _ _ HW HH Hwm Hhm Hnew)
      as (Hw3 & Hh3 & Hwo & Hho & -> & -> & unv & HI & Hu).
    split_and!; try done.
    + apply (inv_start _ _ _ _ _ HI).
    + eapply all_carved; [exact HI|exact Hu|].
      apply isIntersection_spec. rewrite inGrid_spec. simpl.
      apply odd_mod in Hwo, Hho. lia.
  - intros checked fuel ds. split_and!; try reflexivity.
    unfold WilsonMaze.new.
    change (WilsonMaze.normalize 2) with 3.
    assert (E : WilsonMaze.initialCells checked 3 3 (linearize 3 1 1) = Done cells_3x3)
      by (destruct checked; vm_compute; reflexivity).
    simpl default. simpl vx. simpl vz. rewrite E. simpl.
    unfold WilsonMaze.generateMaze. by rewrite generate_loop_spent.
Qed.

Lemma C4_witness :
  exists mz, WilsonMaze.new false 10 sample_draws 4 5 None None = Done mz /\
    WilsonMaze.goalPos mz = mkVec 3 3 /\
    isEmpty 5 5 (WilsonMaze.cells mz) (mkVec 3 3) = true.
Proof.
  assert (E : { mz | WilsonMaze.new false 10 sample_draws 4 5 None None = Done mz }).
  { eexists. vm_compute. reflexivity. }
  destruct E as [mz E]. exists mz. split; [exact E|].
  destruct (new_dims _ _ _ _ _ _ _ _ E) as (Ew & Eh & _).
  change (WilsonMaze.normalize 4) with 5 in Ew.
  change (WilsonMaze.normalize 5) with 5 in Eh.
  destruct (proj1 C4_start_goal_empty false 10%nat sample_draws 4 5 mz)
    as (_ & Hg & _ & He); [lia|lia|lia|lia|exact E|].
  rewrite Hg in He. rewrite Ew, Eh in Hg, He. done.
Defined.

(** C4 fails on the code for a 1 x 1 request: the goal is (-1,-1), its
    index -2 is no cell of the array, and the goal cell is not [Empty]. *)
Lemma C4_counterexample :
  exists mz, WilsonMaze.new false 0 [] 1 1 None None = Done mz /\
    WilsonMaze.width mz = 1 /\ WilsonMaze.height mz = 1 /\
    WilsonMaze.goalIndex mz = -2 /\
    WilsonMaze.cells mz !! WilsonMaze.goalIndex mz = None /\
    isEmpty 1 1 (WilsonMaze.cells mz) (mkVec (1 - 2) (1 - 2)) = false.
Proof. eexists. split; [vm_compute; reflexivity|]. by vm_compute. Qed.

(** C9, as the code has it. For a request of at least 2 x 2 whose
    normalized dimensions are at most 65537, the start and goal indices
    are indices of the array, and construction and generation never touch
    the array outside [0, width * height): the run that reports such an
    access is the plain run. *)
Theorem C9_accesses_in_bounds fuel ds W H :
  2 <= W -> 2 <= H ->
  WilsonMaze.normalize W <= 65537 -> WilsonMaze.normalize H <= 65537 ->
  let w := WilsonMaze.normalize W in
  let h := WilsonMaze.normalize H in
  0 <= linearize w 1 1 < w * h /\
  0 <= linearize w (w - 2) (h - 2) < w * h /\
  WilsonMaze.new true fuel ds W H None None
  = WilsonMaze.new false fuel ds W H None None /\
  WilsonMaze.new false fuel ds W H None None <> Throw OutOfBounds /\
  forall mz, WilsonMaze.new false fuel ds W H None None = Done mz ->
    WilsonMaze.startIndex mz = linearize w 1 1 /\
    WilsonMaze.goalIndex mz = linearize w (w - 2) (h - 2).
Proof.
  intros HW HH Hwm Hhm w h.
  destruct (normalize_bounds W HW) as [Hw3 _].
  destruct (normalize_bounds H HH) as [Hh3 _].
  assert (Hmode : WilsonMaze.new true fuel ds W H None None
                  = WilsonMaze.new false fuel ds W H None None)
    by (apply new_any_mode; lia).
  split; [apply linearize_range; lia|].
  split; [apply linearize_range; subst w h; lia|].
  split; [done|]. split.
  - unfold WilsonMaze.new. simpl.
    destruct (Z.lt_ge_cases (WilsonMaze.normalize W * WilsonMaze.normalize H) 4294967296)
      as [Hsize|Hbig]; [|by rewrite initialCells_too_big by lia].
    destruct (initialCells_spec false W H) as (m1 & -> & Hm1); [lia..|]. simpl.
    unfold WilsonMaze.generateMaze.
    destruct (WilsonMaze.generate_loop _ _ _ _ _ _ _) as [m3|e|] eqn:Hgen; try done.
    exfalso. revert Hgen.
    apply (generate_loop_no_throw false _ _ (mkVec 1 1)); try done; try lia;
      try apply normalize_odd.
    apply initial_inv; try done; try lia.
    apply default_start_intersection; lia.
  - intros mz Hnew. by destruct (new_dims _ _ _ _ _ _ _ _ Hnew) as (_ & _ & ? & ?).
Qed.

Lemma C9_witness :
  0 <= linearize 5 1 1 < 5 * 5 /\
  0 <= linearize 5 (5 - 2) (5 - 2) < 5 * 5 /\
  WilsonMaze.new true 10 sample_draws 4 5 None None
  = WilsonMaze.new false 10 sample_draws 4 5 None None.
Proof.
  destruct (C9_accesses_in_bounds 10 sample_draws 4 5) as (H1 & H2 & H3 & _).
  - lia.
  - lia.
  - vm_compute. discriminate.
  - vm_compute. discriminate.
  - split; [exact H1|]. split; [exact H2|exact H3].
Defined.

(** C9 fails on the code for a 1 x 1 request: the start index 2 is
    outside the one-cell array, and the constructor writes there. *)
Lemma C9_counterexample :
  exists mz, WilsonMaze.new false 0 [] 1 1 None None = Done mz /\
    WilsonMaze.startIndex mz = 2 /\
    WilsonMaze.width mz * WilsonMaze.height mz = 1 /\
    ~ (0 <= WilsonMaze.startIndex mz < WilsonMaze.width mz * WilsonMaze.height mz) /\
    WilsonMaze.new true 0 [] 1 1 None None = Throw OutOfBounds.
Proof.
  eexists. split; [vm_compute; reflexivity|]. simpl.
  split; [done|]. split; [done|]. split; [lia|]. by vm_compute.
Qed.

(** C5, as the code has it. On a grid of odd dimensions of at least 3,
    the cell chosen to start a walk is an intersection of the grid, with
    both coordinates odd, [1 <= x <= width-2] and [1 <= z <= height-2].
    It may be a carved cell: then the walk and the replay end at once, the
    iteration leaves the grid and the counter as they were, and the loop
    draws again. *)
Theorem C5_walk_start checked w h r1 r2 :
  3 <= w -> 3 <= h -> Z.odd w = true -> Z.odd h = true ->
  let c := WilsonMaze.randomOddCell w h r1 r2 in
  (Z.odd (vx c) = true /\ Z.odd (vz c) = true /\
   1 <= vx c <= w - 2 /\ 1 <= vz c <= h - 2) /\
  forall fuel ds cells unvisited,
    isEmpty w h cells c = true ->
    WilsonMaze.generateStep checked w h fuel (r1 :: r2 :: ds) cells unvisited
    = Done (cells, unvisited, ds).
Proof.
  intros Hw Hh Hwo Hho c.
  pose proof (randomOddCell_intersection w h Hwo Hho Hw Hh r1 r2) as Hc.
  fold c in Hc.
  pose proof (proj1 (isIntersection_spec _ _ _) Hc) as (Hg & Hx & Hz).
  split.
  - rewrite !odd_mod. apply inGrid_spec in Hg. apply odd_mod in Hwo, Hho. lia.
  - intros fuel ds cells unvisited He.
    unfold WilsonMaze.generateStep, WilsonMaze.randomWalk. fold c.
    rewrite walk_unfold, getCellType_in by done.
    rewrite (isEmpty_cellAt _ _ _ _ He). simpl.
    rewrite replay_unfold, getCellType_in by done.
    by rewrite (isEmpty_cellAt _ _ _ _ He).
Qed.

Lemma C5_witness :
  WilsonMaze.randomOddCell 3 3 (rand 1 2) (rand 1 3) = mkVec 1 1 /\
  isEmpty 3 3 cells_3x3 (mkVec 1 1) = true /\
  WilsonMaze.generateStep false 3 3 3 [rand 1 2; rand 1 3; rand 0 4] cells_3x3 3
  = Done (cells_3x3, 3, [rand 0 4]).
Proof.
  split; [reflexivity|]. split; [reflexivity|].
  apply (C5_walk_start false 3 3 (rand 1 2) (rand 1 3)); try lia; reflexivity.
Defined.

(** C5 fails on the code: in the first iteration on a 5 x 5 grid, with
    the counter at 3, the draws 0 and 0 choose (1,1), the start cell,
    which is carved. *)
Lemma C5_counterexample :
  exists cells,
    WilsonMaze.initialCells false 5 5 (linearize 5 1 1) = Done cells /\
    (5 / 2) * (5 / 2) - 1 > 0 /\
    WilsonMaze.randomOddCell 5 5 (rand 0 1) (rand 0 1) = mkVec 1 1 /\
    isEmpty 5 5 cells (WilsonMaze.randomOddCell 5 5 (rand 0 1) (rand 0 1)) = true.
Proof. eexists. split; [vm_compute; reflexivity|]. by vm_compute. Qed.

(** C10, as the code has it. For a maze generated for a request of at
    least 2 x 2 whose normalized dimensions are at most 65537, every
    boundary cell is [Solid], and every [Empty] cell is an intersection
    of [1, width-2] x [1, height-2] or the cell between two [Empty]
    intersections. *)
Theorem C10_boundary_solid checked fuel ds W H mz :
  2 <= W -> 2 <= H ->
  WilsonMaze.width mz <= 65537 -> WilsonMaze.height mz <= 65537 ->
  WilsonMaze.new checked fuel ds W H None None = Done mz ->
  let w := WilsonMaze.width mz in
  let h := WilsonMaze.height mz in
  let cells := WilsonMaze.cells mz in
  (forall c, onBoundary w h c = true -> isSolid w h cells c = true) /\
  (forall c, isEmpty w h cells c = true ->
     1 <= vx c <= w - 2 /\ 1 <= vz c <= h - 2 /\
     ((Z.odd (vx c) = true /\ Z.odd (vz c) = true) \/
      (Z.even (vx c) = true /\ Z.odd (vz c) = true /\
       isEmpty w h cells (mkVec (vx c - 1) (vz c)) = true /\
       isEmpty w h cells (mkVec (vx c + 1) (vz c)) = true) \/
      (Z.odd (vx c) = true /\ Z.even (vz c) = true /\
       isEmpty w h cells (mkVec (vx c) (vz c - 1)) = true /\
       isEmpty w h cells (mkVec (vx c) (vz c + 1)) = true))).
Proof.
  intros HW HH Hwm Hhm Hnew w h cells.
  destruct (generated _ _ _ _ _ _ HW HH Hwm Hhm Hnew)
    as (Hw3 & Hh3 & Hwo & Hho & _ & _ & unv & HI & Hu).
  fold w h cells in HI, Hwo, Hho, Hw3, Hh3.
  assert (Hb : forall c, onBoundary w h c = true -> isSolid w h cells c = true).
  { intros c Hc. by eapply boundary_solid. }
  split; [done|].
  intros c He.
  assert (Hin : 1 <= vx c <= w - 2 /\ 1 <= vz c <= h - 2).
  { pose proof (isEmpty_inGrid _ _ _ _ He) as Hg.
    destruct (onBoundary w h c) eqn:Hob.
    - apply Hb in Hob. apply isEmpty_not_isSolid in He. congruence.
    - unfold onBoundary in Hob. rewrite Hg in Hob. simpl in Hob.
      rewrite !orb_false_iff, !Z.eqb_neq in Hob.
      apply inGrid_spec in Hg. lia. }
  split; [apply Hin|]. split; [apply Hin|].
  destruct (Z.odd (vx c)) eqn:Ex, (Z.odd (vz c)) eqn:Ez.
  - by left.
  - right. right. rewrite <- Z.negb_odd, Ez.
    destruct (inv_vlink _ _ _ _ _ HI c He) as (_ & ? & ?); [|done].
    by rewrite <- Z.negb_odd, Ez.
  - right. left. rewrite <- Z.negb_odd, Ex.
    destruct (inv_hlink _ _ _ _ _ HI c He) as (_ & ? & ?); [|done].
    by rewrite <- Z.negb_odd, Ex.
  - exfalso. destruct (inv_hlink _ _ _ _ _ HI c He) as (Ho & _).
    + by rewrite <- Z.negb_odd, Ex.
    + congruence.
Qed.

Lemma C10_witness :
  exists mz, WilsonMaze.new false 10 sample_draws 4 5 None None = Done mz /\
    isSolid 5 5 (WilsonMaze.cells mz) (mkVec 4 3) = true.
Proof.
  assert (E : { mz | WilsonMaze.new false 10 sample_draws 4 5 None None = Done mz }).
  { eexists. vm_compute. reflexivity. }
  destruct E as [mz E]. exists mz. split; [exact E|].
  destruct (new_dims _ _ _ _ _ _ _ _ E) as (Ew & Eh & _).
  change (WilsonMaze.normalize 4) with 5 in Ew.
  change (WilsonMaze.normalize 5) with 5 in Eh.
  destruct (C10_boundary_solid false 10 sample_draws 4 5 mz) as [Hb _];
    [lia|lia|lia|lia|exact E|].
  rewrite Ew, Eh in Hb. by apply Hb.
Defined.

(** C1, as the code has it. For a maze generated for a request of at
    least 3 x 3 whose normalized dimensions are at most 65537, every
    [Empty] cell is reached by a breadth-first traversal from the start
    cell. *)
Theorem C1_connected checked fuel ds W H mz :
  3 <= W -> 3 <= H ->
  WilsonMaze.width mz <= 65537 -> WilsonMaze.height mz <= 65537 ->
  WilsonMaze.new checked fuel ds W H None None = Done mz ->
  forall c,
    isEmpty (WilsonMaze.width mz) (WilsonMaze.height mz) (WilsonMaze.cells mz) c = true ->
    reach (WilsonMaze.width mz) (WilsonMaze.height mz) (WilsonMaze.cells mz)
      (WilsonMaze.startPos mz) c.
Proof.
  intros HW HH Hwm Hhm Hnew c He.
  destruct (generated checked fuel ds W H mz) as (_ & _ & _ & _ & -> & _ & unv & HI & _);
    [lia|lia|done..|].
  by apply (inv_reach _ _ _ _ _ HI).
Qed.

Lemma C1_witness :
  exists mz, WilsonMaze.new false 10 sample_draws 5 5 None None = Done mz /\
    isEmpty 5 5 (WilsonMaze.cells mz) (mkVec 3 1) = true /\
    reach 5 5 (WilsonMaze.cells mz) (mkVec 1 1) (mkVec 3 1).
Proof.
  assert (E : { mz | WilsonMaze.new false 10 sample_draws 5 5 None None = Done mz /\
                     isEmpty 5 5 (WilsonMaze.cells mz) (mkVec 3 1) = true }).
  { eexists. split; [vm_compute; reflexivity|vm_compute; reflexivity]. }
  destruct E as [mz [E He]]. exists mz. split; [exact E|]. split; [exact He|].
  destruct (new_dims _ _ _ _ _ _ _ _ E) as (Ew & Eh & Es & _).
  change (WilsonMaze.normalize 5) with 5 in Ew, Eh, Es.
  pose proof (C1_connected false 10 sample_draws 5 5 mz) as Hr.
  unfold WilsonMaze.startPos in Hr. rewrite Ew, Eh, Es in Hr.
  apply Hr; [lia|lia|lia|lia|exact E|exact He].
Defined.

(** C2, as the code has it. For a maze generated for a request of at
    least 3 x 3 whose normalized dimensions are at most 65537, the
    [Empty] cells form a spanning tree: every intersection is [Empty],
    and the number of [Empty] cells is the number of grid-adjacent pairs
    of [Empty] cells plus one. *)
Theorem C2_spanning_tree checked fuel ds W H mz :
  3 <= W -> 3 <= H ->
  WilsonMaze.width mz <= 65537 -> WilsonMaze.height mz <= 65537 ->
  WilsonMaze.new checked fuel ds W H None None = Done mz ->
  let w := WilsonMaze.width mz in
  let h := WilsonMaze.height mz in
  emptyCount w h (WilsonMaze.cells mz) = connections w h (WilsonMaze.cells mz) + 1 /\
  forall c, isIntersection w h c = true -> isEmpty w h (WilsonMaze.cells mz) c = true.
Proof.
  intros HW HH Hwm Hhm Hnew w h.
  destruct (generated checked fuel ds W H mz) as (_ & _ & _ & _ & _ & _ & unv & HI & Hu);
    [lia|lia|done..|].
  split; [apply (inv_count _ _ _ _ _ HI)|].
  intros c Hc. by eapply all_carved.
Qed.

Lemma C2_witness :
  exists mz, WilsonMaze.new false 10 sample_draws 5 5 None None = Done mz /\
    emptyCount 5 5 (WilsonMaze.cells mz) = connections 5 5 (WilsonMaze.cells mz) + 1 /\
    emptyCount 5 5 (WilsonMaze.cells mz) = 7.
Proof.
  assert (E : { mz | WilsonMaze.new false 10 sample_draws 5 5 None None = Done mz /\
                     emptyCount 5 5 (WilsonMaze.cells mz) = 7 }).
  { eexists. split; [vm_compute; reflexivity|vm_compute; reflexivity]. }
  destruct E as [mz [E He]]. exists mz. split; [exact E|]. split; [|exact He].
  destruct (new_dims _ _ _ _ _ _ _ _ E) as (Ew & Eh & _).
  change (WilsonMaze.normalize 5) with 5 in Ew, Eh.
  destruct (C2_spanning_tree false 10 sample_draws 5 5 mz) as [Hc _];
    [lia|lia|lia|lia|exact E|].
  by rewrite Ew, Eh in Hc.
Defined.

(** ** The string keys of part_001 *)

Lemma split_at_comma s : forall s' t t',
  noComma s = true -> noComma s' = true ->
  s +:+ "," +:+ t = s' +:+ "," +:+ t' -> s = s' /\ t = t'.
Proof.
  induction s as [|a s IH]; intros [|a' s'] t t' Hs Hs' E; simpl in *.
  - injection E as E. by subst.
  - injection E as Ea Et. subst a'. by rewrite Ascii.eqb_refl in Hs'.
  - injection E as Ea Et. subst a. by rewrite Ascii.eqb_refl in Hs.
  - injection E as Ea Et. subst a'.
    apply andb_true_iff in Hs as [_ Hs]. apply andb_true_iff in Hs' as [_ Hs'].
    destruct (IH s' t t' Hs Hs' Et) as [-> ->]. done.
Qed.

Lemma noComma_pretty_N_go x : forall s,
  noComma s = true -> noComma (pretty_N_go x s) = true.
Proof.
  induction (N.lt_wf_0 x) as [x _ IH]; intros s Hs.
  assert (x = 0 \/ 0 < x)%N as [->|Hx] by lia.
  - by rewrite pretty_N_go_0.
  - rewrite pretty_N_go_step by done. apply IH.
    + by apply N.div_lt.
    + simpl. rewrite Hs. unfold pretty_N_char. by repeat case_match.
Qed.

Lemma noComma_pretty_Z (x : Z) : noComma (pretty x) = true.
Proof.
  assert (HN : forall n : N, noComma (pretty n) = true).
  { intros n. unfold pretty, pretty_N. case_decide; [done|].
    by apply noComma_pretty_N_go. }
  destruct x as [|p|p]; [done|apply HN|].
  unfold pretty, pretty_Z. simpl. apply HN.
Qed.

Lemma keyOf_inj c c' : Maze.keyOf c = Maze.keyOf c' -> c = c'.
Proof.
  unfold Maze.keyOf. intros E.
  apply split_at_comma in E as [Ex Ez]; [|apply noComma_pretty_Z..].
  apply (inj pretty) in Ex, Ez. destruct c, c'; simpl in *; congruence.
Qed.

Lemma randomDir_same r : Maze.randomDir r = Done (WilsonMaze.randomDir r).
Proof.
  unfold Maze.randomDir, WilsonMaze.randomDir.
  pose proof (floorTimes_range r 4) as Hr.
  assert (floorTimes r 4 = 0 \/ floorTimes r 4 = 1 \/ floorTimes r 4 = 2
          \/ floorTimes r 4 = 3) as [-> | [-> | [-> | ->]]] by lia; done.
Qed.

(** ** The two walks in step *)

Section TwoWalks.
Variable checked : bool.
Variables w h : Z.
Variable cells : gmap Z CellType.
Hypothesis Hw : w <= 65536.
Hypothesis Hh : h <= 65536.

Lemma maze_walk_unfold ds path curr :
    Maze.randomWalk_loop checked w h ds cells path curr
    = (c ← getCellType checked w h cells (vx curr) (vz curr);
       if decide (c = Some Solid) then
         match ds with
         | [] => Starved
         | r :: ds' =>
           dir ← Maze.randomDir r;
           let nextPos := stepIn curr dir 2 in
           if outside w h nextPos
           then Maze.randomWalk_loop checked w h ds' cells path curr
           else
             n ← getCellType checked w h cells (vx nextPos) (vz nextPos);
             if decide (n = Some Solid)
             then Maze.randomWalk_loop checked w h ds' cells
                    (<[Maze.keyOf curr := dir]> path) nextPos
             else Done (<[Maze.keyOf curr := dir]> path, ds')
         end
       else Done (path, ds)).
  Proof. by destruct ds. Qed.

Lemma samePath_record p1 p2 curr dir :
    samePath p1 p2 -> inHash curr ->
    samePath (<[hash curr := dir]> p1) (<[Maze.keyOf curr := dir]> p2).
  Proof.
    intros Hp Hc c Hin.
    destruct (decide (c = curr)) as [->|Hne].
    - by rewrite !lookup_insert_eq.
    - rewrite !lookup_insert_ne; [by apply Hp| |].
      + intros E. apply Hne. symmetry. by apply keyOf_inj.
      + intros E. apply Hne. symmetry.
        destruct Hc, Hin. by apply hash_inj.
  Qed.

Lemma inside_inHash c : outside w h c = false -> inHash c.
  Proof.
    unfold outside. rewrite !orb_false_iff.
    intros [[[H1 H2] H3] H4].
    apply Z.ltb_ge in H1, H2. rewrite Z.gtb_ltb in H3, H4.
    apply Z.ltb_ge in H3, H4. unfold inHash. lia.
  Qed.

Lemma walks_in_step ds : forall p1 p2 curr,
    samePath p1 p2 -> inHash curr ->
    sameRecord (WilsonMaze.randomWalk_loop checked w h ds cells p1 curr)
               (Maze.randomWalk_loop checked w h ds cells p2 curr).
  Proof.
    induction ds as [|r ds IH]; intros p1 p2 curr Hp Hc;
      rewrite walk_unfold, maze_walk_unfold;
      destruct (getCellType checked w h cells (vx curr) (vz curr)) as [c|e|];
      simpl; try done; case_decide; try done.
    rewrite randomDir_same. simpl.
    destruct (outside w h (stepIn curr (WilsonMaze.randomDir r) 2)) eqn:Hout;
      [by apply IH|].
    destruct (getCellType checked w h cells _ _) as [n|e|]; simpl; try done.
    pose proof (samePath_record _ _ _ (WilsonMaze.randomDir r) Hp Hc) as Hp'.
    destruct (decide (n = Some Solid)) as [->|Hn].
    - rewrite decide_False by (by intros ?). apply IH; [done|].
      by apply inside_inHash.
    - rewrite decide_True by done. done.
  Qed.
End TwoWalks.

(** C8, as the code has it. Given the same grid and the same draws, on a
    grid of at most 65536 x 65536 and from a start coordinate in
    [0, 65536), the walk of src/index.ts and the walk of part_001 end
    alike, use the same draws and record the same direction for every
    coordinate: both record the direction of the last step, also when it
    lands on a carved cell.  The maps differ in their keys only, [hash]
    against the coordinate string. *)
Theorem C8_same_record checked w h ds cells start :
  w <= 65536 -> h <= 65536 -> inHash start ->
  sameRecord (WilsonMaze.randomWalk checked w h ds cells start)
             (Maze.randomWalk checked w h ds cells start).
Proof.
  intros Hw Hh Hs.
  apply walks_in_step; try done; intros c _; by rewrite !lookup_empty.
Qed.

Lemma C8_witness :
  sameRecord
    (WilsonMaze.randomWalk false 5 3 (drawOf <$> [Right; Up; Left; Left]) cells_5x3 (mkVec 3 1))
    (Maze.randomWalk false 5 3 (drawOf <$> [Right; Up; Left; Left]) cells_5x3 (mkVec 3 1)).
Proof.
  apply (C8_same_record false 5 3); [lia|lia|].
  split; simpl; lia.
Defined.

(** C8 fails on the code: on the 5 x 3 grid with (1,1) carved, the walk
    from (3,1) that draws Left steps directly onto the carved cell; both
    variants then hold exactly one record, Left for (3,1). *)
Lemma C8_counterexample :
  cellAt 5 cells_5x3 (stepIn (mkVec 3 1) (WilsonMaze.randomDir (drawOf Left)) 2)
    = Some Empty /\
  WilsonMaze.randomWalk false 5 3 [drawOf Left] cells_5x3 (mkVec 3 1)
    = Done ({[hash (mkVec 3 1) := Left]}, []) /\
  Maze.randomWalk false 5 3 [drawOf Left] cells_5x3 (mkVec 3 1)
    = Done ({[Maze.keyOf (mkVec 3 1) := Left]}, []) /\
  samePath {[hash (mkVec 3 1) := Left]} {[Maze.keyOf (mkVec 3 1) := Left]}.
Proof.
  split; [by vm_compute|]. split; [by vm_compute|]. split; [by vm_compute|].
  intros c [Hx Hz].
  destruct (decide (c = mkVec 3 1)) as [->|Hne].
  - by rewrite !lookup_singleton_eq.
  - rewrite !lookup_singleton_ne; [done| |].
    + intros E. apply Hne. symmetry. by apply keyOf_inj.
    + intros E. apply Hne. symmetry. apply hash_inj; simpl; try lia; done.
Qed.

(** * Further properties of the code *)

(** ** [hash], [keyOf], [randomDir] *)

(** X1. [hash] is perfect on coordinates in [0, 2^16), as its comment
    says: two such coordinates have the same hash only if they are the
    same coordinate. *)
Theorem hash_perfect c c' :
  inHash c -> inHash c' -> (hash c = hash c' <-> c = c').
Proof.
  intros [Hx Hz] [Hx' Hz']. split; [|by intros ->].
  by apply hash_inj.
Qed.

Lemma hash_perfect_witness :
  inHash (mkVec 3 1) /\ inHash (mkVec 1 3) /\
  (hash (mkVec 3 1) = hash (mkVec 1 3) <-> mkVec 3 1 = mkVec 1 3).
Proof.
  assert (H1 : inHash (mkVec 3 1)) by (split; simpl; lia).
  assert (H2 : inHash (mkVec 1 3)) by (split; simpl; lia).
  split; [exact H1|]. split; [exact H2|].
  exact (hash_perfect (mkVec 3 1) (mkVec 1 3) H1 H2).
Defined.

Lemma land_low16 x : Z.land (x + 65536) 65535 = Z.land x 65535.
Proof.
  change 65535 with (Z.ones 16). rewrite !Z.land_ones by lia.
  change (2 ^ 16) with 65536. lia.
Qed.

Lemma toInt32_range n : -2147483648 <= toInt32 n < 2147483648.
Proof. unfold toInt32. lia. Qed.

(** X2. [hash] only sees the low 16 bits of each coordinate: shifting a
    coordinate by 65536 does not change the hash, for any integers.  The
    value is a signed 32-bit integer. *)
Theorem hash_wraps x z :
  hash (mkVec (x + 65536) z) = hash (mkVec x z) /\
  hash (mkVec x (z + 65536)) = hash (mkVec x z) /\
  -2147483648 <= hash (mkVec x z) < 2147483648.
Proof.
  unfold hash. simpl. rewrite !land_low16.
  split; [done|]. split; [done|]. apply toInt32_range.
Qed.

(** X3. The string key of part_001 tells all integer coordinates apart. *)
Theorem keyOf_injective c c' : Maze.keyOf c = Maze.keyOf c' <-> c = c'.
Proof. split; [apply keyOf_inj|by intros ->]. Qed.

(** X4. [Math.floor(Math.random() * 4)] is one of 0, 1, 2, 3, so the
    [default] branch of part_001's [randomDir] is never taken: it returns
    the direction that the cast of src/index.ts yields, and each of the
    four directions is the result of some draw. *)
Theorem randomDir_total :
  (forall r, 0 <= floorTimes r 4 <= 3 /\
             Maze.randomDir r = Done (WilsonMaze.randomDir r)) /\
  (forall d, exists r, WilsonMaze.randomDir r = d).
Proof.
  split.
  - intros r. pose proof (floorTimes_range r 4). split; [lia|].
    apply randomDir_same.
  - intros d. exists (drawOf d). by destruct d.
Qed.

(** ** Indices and cells *)

(** X5. For a positive width, [delinearize] takes an index of the grid to
    a coordinate of the grid, and [linearize] takes it back. *)
Theorem linearize_delinearize w h i :
  0 < w -> 0 <= i < w * h ->
  inGrid w h (delinearize w i) = true /\
  linearize w (vx (delinearize w i)) (vz (delinearize w i)) = i.
Proof.
  intros Hw Hi. unfold delinearize, linearize. simpl.
  rewrite Z.rem_mod_nonneg by lia.
  split.
  - apply inGrid_spec. simpl.
    pose proof (Z.mod_pos_bound i w Hw).
    assert (0 <= i / w) by (apply Z.div_pos; lia).
    assert (i / w < h); [|lia].
    apply Z.div_lt_upper_bound; lia.
  - pose proof (Z.div_mod i w). lia.
Qed.

Lemma linearize_delinearize_witness :
  0 < 5 /\ 0 <= 13 < 5 * 3 /\ delinearize 5 13 = mkVec 3 2 /\
  inGrid 5 3 (delinearize 5 13) = true /\
  linearize 5 (vx (delinearize 5 13)) (vz (delinearize 5 13)) = 13.
Proof.
  split; [lia|]. split; [lia|]. split; [reflexivity|].
  apply (linearize_delinearize 5 3 13); lia.
Defined.

(** X6. Within the grid, [setCellType] followed by [getCellType] reads the
    written value at the written coordinate and the old cell at every
    other coordinate, and neither reports an access. *)
Theorem get_after_set checked w h cells c v :
  inGrid w h c = true ->
  exists cells',
    setCellType checked w h cells (vx c) (vz c) v = Done cells' /\
    forall c', inGrid w h c' = true ->
      getCellType checked w h cells' (vx c') (vz c')
      = Done (if decide (c' = c) then Some v else cellAt w cells c').
Proof.
  intros Hc. eexists. split; [by apply setCellType_in|].
  intros c' Hc'. rewrite getCellType_in by done. f_equal.
  unfold cellAt. case_decide as E.
  - subst. apply lookup_insert_eq.
  - rewrite lookup_insert_ne; [done|].
    intros Hi. apply E. symmetry. by apply (index_inj w h).
Qed.

Lemma get_after_set_witness :
  inGrid 5 3 (mkVec 3 1) = true /\
  exists cells',
    setCellType true 5 3 cells_5x3 3 1 Empty = Done cells' /\
    getCellType true 5 3 cells' 3 1 = Done (Some Empty) /\
    getCellType true 5 3 cells' 2 1 = Done (Some Solid).
Proof.
  split; [reflexivity|].
  destruct (get_after_set true 5 3 cells_5x3 (mkVec 3 1) Empty) as (cells' & Hs & Hg);
    [reflexivity|].
  exists cells'. split; [exact Hs|]. split.
  - exact (Hg (mkVec 3 1) eq_refl).
  - exact (Hg (mkVec 2 1) eq_refl).
Defined.

Lemma initialCells_lookup checked w h s :
  0 <= w -> 0 <= h -> w * h < 4294967296 -> 0 <= s < w * h ->
  exists cells,
    WilsonMaze.initialCells checked w h s = Done cells /\
    forall i, cells !! i =
      if decide (0 <= i < w * h)
      then Some (if decide (i = s) then Empty else Solid) else None.
Proof.
  intros Hw Hh Hsize Hs. unfold WilsonMaze.initialCells, newArray.
  destruct (Z.leb_spec 0 (w * h)); [|nia].
  destruct (Z.ltb_spec (w * h) 4294967296); [|lia]. simpl.
  destruct (fillSolid_spec checked w h Hw Hh) as (m1 & -> & Hm1). simpl.
  rewrite writeCell_in by done. eexists. split; [done|].
  intros i. rewrite lookup_insert. case_decide as Ei.
  - subst i. rewrite decide_True by done. by rewrite decide_True.
  - rewrite Hm1. case_decide; [|done]. by rewrite decide_False by congruence.
Qed.

(** X7. The grid the constructor builds before generation: for
    non-negative dimensions whose product is an array length and a start
    index of the grid, every index of the grid holds [Solid] except the
    start index, which holds [Empty], and no other index is set. *)
Theorem initialCells_grid checked w h s :
  0 <= w -> 0 <= h -> w * h < 4294967296 -> 0 <= s < w * h ->
  exists cells,
    WilsonMaze.initialCells checked w h s = Done cells /\
    forall i, cells !! i =
      if decide (0 <= i < w * h)
      then Some (if decide (i = s) then Empty else Solid) else None.
Proof. apply initialCells_lookup. Qed.

Lemma initialCells_grid_witness :
  exists cells,
    WilsonMaze.initialCells true 5 3 6 = Done cells /\
    cells !! 6 = Some Empty /\ cells !! 14 = Some Solid /\ cells !! 15 = None.
Proof.
  destruct (initialCells_grid true 5 3 6) as (cells & Hc & Hl); [lia..|].
  exists cells. split; [exact Hc|].
  split; [|split]; rewrite Hl; reflexivity.
Defined.

(** ** The walk and its replay *)

Lemma wellFormed_of_lookup w h cells (f : Z -> CellType) :
  (forall i, cells !! i = if decide (0 <= i < w * h) then Some (f i) else None) ->
  wellFormed w h cells.
Proof.
  intros Hl i. rewrite Hl. case_decide as Hi.
  - split; [done|]. intros _. by eexists.
  - split; [by intros [? ?]|done].
Qed.

Lemma wellFormed_cells_5x5 : wellFormed 5 5 cells_5x5.
Proof.
  destruct (initialCells_lookup false 5 5 6) as (cells & Hc & Hl); [lia..|].
  assert (E : WilsonMaze.initialCells false 5 5 6 = Done cells_5x5)
    by (vm_compute; reflexivity).
  rewrite E in Hc. injection Hc as <-.
  by apply (wellFormed_of_lookup 5 5 _ (fun i => if decide (i = 6) then Empty else Solid)).
Qed.

(** X8. On a well-formed grid of odd dimensions of at most 65537, a
    random walk that returns has recorded a loop-erased trail: following
    the recorded directions from the start cell, two cells at a time,
    leads through pairwise distinct [Solid] intersections of the grid to
    an [Empty] intersection, where the walk stopped. *)
Theorem randomWalk_loop_erased checked w h ds cells start path ds' :
  Z.odd w = true -> Z.odd h = true -> w <= 65537 -> h <= 65537 ->
  wellFormed w h cells -> isIntersection w h start = true ->
  WilsonMaze.randomWalk checked w h ds cells start = Done (path, ds') ->
  exists steps t,
    chained start steps t /\
    NoDup (steps.*1 ++ [t]) /\
    Forall (fun s => isIntersection w h s.1 = true /\
                     isSolid w h cells s.1 = true /\
                     path !! hash s.1 = Some s.2 /\
                     isIntersection w h (stepIn s.1 s.2 2) = true) steps /\
    isIntersection w h t = true /\
    isEmpty w h cells t = true.
Proof.
  intros Hwo Hho Hw Hh Hwf Hs Hrun. unfold WilsonMaze.randomWalk in Hrun.
  eapply (walk_spec checked w h Hwo Hho Hw Hh) in Hrun as (steps & t & HT & He);
    [|done|by apply Trail_nil].
  destruct HT as (Hch & Hnd & Hall & Hti).
  by exists steps, t.
Qed.

Lemma randomWalk_loop_erased_witness :
  exists path,
    WilsonMaze.randomWalk false 5 5 (drawOf <$> [Up; Down; Left; Up]) cells_5x5
      (mkVec 3 3) = Done (path, []) /\
    exists steps t,
      chained (mkVec 3 3) steps t /\
      NoDup (steps.*1 ++ [t]) /\
      Forall (fun s => isIntersection 5 5 s.1 = true /\
                       isSolid 5 5 cells_5x5 s.1 = true /\
                       path !! hash s.1 = Some s.2 /\
                       isIntersection 5 5 (stepIn s.1 s.2 2) = true) steps /\
      isIntersection 5 5 t = true /\
      isEmpty 5 5 cells_5x5 t = true.
Proof.
  assert (E : { path | WilsonMaze.randomWalk false 5 5 (drawOf <$> [Up; Down; Left; Up])
                         cells_5x5 (mkVec 3 3) = Done (path, []) }).
  { eexists. vm_compute. reflexivity. }
  destruct E as [path E]. exists path. split; [exact E|].
  apply (randomWalk_loop_erased false 5 5 (drawOf <$> [Up; Down; Left; Up])
           cells_5x5 (mkVec 3 3) path []);
    [reflexivity|reflexivity|lia|lia|apply wellFormed_cells_5x5|reflexivity|exact E].
Defined.

(** X9. The replay loop carves exactly a recorded trail: given a trail
    from [from] to an [Empty] intersection [t], it marks every cell of the
    trail and the cell after it in the recorded direction [Empty], leaves
    the other cells, lowers the counter by the length of the trail, and
    needs that many iterations. *)
Theorem replay_carves_trail checked w h fuel cells path from steps t unvisited :
  chained from steps t ->
  NoDup (steps.*1 ++ [t]) ->
  Forall (fun s => isIntersection w h s.1 = true /\
                   isSolid w h cells s.1 = true /\
                   path !! hash s.1 = Some s.2 /\
                   isIntersection w h (stepIn s.1 s.2 2) = true) steps ->
  isIntersection w h t = true ->
  isEmpty w h cells t = true ->
  WilsonMaze.replay checked w h fuel cells path from unvisited
  = if decide (length steps <= fuel)%nat
    then Done (carveAll w cells steps, unvisited - Z.of_nat (length steps))
    else Starved.
Proof.
  intros Hch Hnd Hall Hti He.
  by apply (replay_spec checked w h steps fuel cells path from t).
Qed.

Lemma replay_carves_trail_witness :
  WilsonMaze.replay false 5 3 4 cells_5x3 {[hash (mkVec 3 1) := Left]} (mkVec 3 1) 1
  = Done (carveAll 5 cells_5x3 [(mkVec 3 1, Left)], 0) /\
  isEmpty 5 3 (carveAll 5 cells_5x3 [(mkVec 3 1, Left)]) (mkVec 2 1) = true.
Proof.
  split; [|reflexivity].
  apply (replay_carves_trail false 5 3 4 cells_5x3 {[hash (mkVec 3 1) := Left]}
           (mkVec 3 1) [(mkVec 3 1, Left)] (mkVec 1 1) 1).
  - split; reflexivity.
  - simpl. apply NoDup_cons. split; [|apply NoDup_singleton].
    intros Hin%list_elem_of_singleton. discriminate Hin.
  - apply Forall_singleton. split; [reflexivity|]. split; [reflexivity|].
    split; [|reflexivity]. simpl. apply lookup_singleton_eq.
  - reflexivity.
  - reflexivity.
Defined.

(** ** Errors *)

(** X10. The only validation the constructor has is the array
    allocation: when the product of the normalized dimensions is negative
    or at least 2^32, it throws a RangeError, whatever the other
    arguments. *)
Theorem new_RangeError checked fuel ds W H sp gp :
  ~ (0 <= WilsonMaze.normalize W * WilsonMaze.normalize H < 4294967296) ->
  WilsonMaze.new checked fuel ds W H sp gp = Throw RangeError.
Proof.
  intros Hn. unfold WilsonMaze.new, WilsonMaze.initialCells, newArray. simpl.
  destruct (Z.leb_spec 0 (WilsonMaze.normalize W * WilsonMaze.normalize H));
    destruct (Z.ltb_spec (WilsonMaze.normalize W * WilsonMaze.normalize H) 4294967296);
    try done; lia.
Qed.

Lemma new_RangeError_witness :
  WilsonMaze.normalize (-3) * WilsonMaze.normalize 5 = -15 /\
  WilsonMaze.new false 0 [] (-3) 5 None None = Throw RangeError.
Proof.
  split; [reflexivity|].
  apply (new_RangeError false 0 [] (-3) 5 None None). vm_compute. intros [H _]. by apply H.
Defined.



(** ** Generation only carves *)

Local Arguments WilsonMaze.replay : simpl never.








(** ** Generation can finish *)

Lemma sumUpto_pos n g :
  (forall i, 0 <= g i) -> 0 < sumUpto n g ->
  exists i, 0 <= i < Z.of_nat n /\ 0 < g i.
Proof.
  intros Hg. induction n as [|n IH]; simpl; [lia|]. intros Hs.
  destruct (Z.lt_ge_cases 0 (g (Z.of_nat n))) as [Hp|Hz].
  - exists (Z.of_nat n). lia.
  - destruct IH as (i & Hi & Hgi); [lia|]. exists i. lia.
Qed.

Lemma gridSum_pos w h f :
  (forall c, 0 <= f c) -> 0 < gridSum w h f ->
  exists c, inGrid w h c = true /\ 0 < f c.
Proof.
  intros Hf. rewrite gridSum_sumUpto. intros Hs.
  apply sumUpto_pos in Hs as (z & Hz & Hs).
  - apply sumUpto_pos in Hs as (x & Hx & Hs); [|by intros].
    exists (mkVec x z). split; [|done]. apply inGrid_spec. simpl. lia.
  - intros z. apply sumUpto_nonneg. by intros.
Qed.

Lemma randomDir_drawOf d : WilsonMaze.randomDir (drawOf d) = d.
Proof. by destruct d. Qed.



Section CanFinish.
Variable checked : bool.
Variables w h : Z.
Variable start : Vector2.
Hypothesis Hw_odd : Z.odd w = true.
Hypothesis Hh_odd : Z.odd h = true.
Hypothesis Hw_min : 3 <= w.
Hypothesis Hh_min : 3 <= h.


Section Grid.
Variables (m : gmap Z CellType) (unvisited : Z).
Hypothesis HI : Inv w h start m unvisited.
Hypothesis Hstart : isIntersection w h start = true.

Lemma exists_solid_intersection :
      0 < unvisited ->
      exists c, isIntersection w h c = true /\ isSolid w h m c = true.
    Proof.
      rewrite (inv_unvisited _ _ _ _ _ HI). unfold solidIntersections. intros Hp.
      apply gridSum_pos in Hp as (c & _ & Hc).
      - exists c. destruct (isIntersection w h c), (isSolid w h m c); simpl in *; done.
      - intros c. by destruct (_ && _).
    Qed.

    (** A [Solid] intersection next to an [Empty] one lies on the way from
        any [Solid] intersection to the start cell. *)
Lemma frontier (n : nat) : forall c,
      isIntersection w h c = true -> isSolid w h m c = true ->
      Z.abs (vx c - vx start) + Z.abs (vz c - vz start) <= 2 * Z.of_nat n ->
      exists c' d,
        isIntersection w h c' = true /\ isSolid w h m c' = true /\
        isIntersection w h (stepIn c' d 2) = true /\
        isEmpty w h m (stepIn c' d 2) = true.
    Proof.
      pose proof (inv_start _ _ _ _ _ HI) as Hse.
      pose proof (intersection_bounds w h Hw_odd Hh_odd start Hstart)
        as (Hsx & Hsz & Hsxo & Hszo).
      induction n as [|n IH]; intros c Hc Hs Hd;
        pose proof (intersection_bounds w h Hw_odd Hh_odd c Hc) as (Hx & Hz & Hxo & Hzo).
      - assert (c = start) as -> by (destruct c, start; simpl in *; f_equal; lia).
        apply isEmpty_not_isSolid in Hse. congruence.
      - destruct (decide (c = start)) as [->|Hne].
        { apply isEmpty_not_isSolid in Hse. congruence. }
        assert (exists d, isIntersection w h (stepIn c d 2) = true /\
                  Z.abs (vx (stepIn c d 2) - vx start)
                  + Z.abs (vz (stepIn c d 2) - vz start) <= 2 * Z.of_nat n)
          as (d & Hn & Hdn).
        { destruct (Z.lt_trichotomy (vx c) (vx start)) as [Hlt|[Heq|Hgt]].
          - exists Right. rewrite isIntersection_spec, inGrid_spec.
            destruct c, start; simpl in *. lia.
          - destruct (Z.lt_trichotomy (vz c) (vz start)) as [Hlt|[Heq'|Hgt]].
            + exists Down. rewrite isIntersection_spec, inGrid_spec.
              destruct c, start; simpl in *. lia.
            + exfalso. apply Hne. destruct c, start; simpl in *; f_equal; lia.
            + exists Up. rewrite isIntersection_spec, inGrid_spec.
              destruct c, start; simpl in *. lia.
          - exists Left. rewrite isIntersection_spec, inGrid_spec.
            destruct c, start; simpl in *. lia. }
        pose proof (proj1 (isIntersection_spec _ _ _) Hn) as (Hgn & _).
        destruct (cell_cases w h m (inv_wf _ _ _ _ _ HI) _ Hgn) as [Hcs|Hce].
        + apply (IH (stepIn c d 2)); [done| |done].
          unfold isSolid. rewrite Hgn, Hcs. by rewrite bool_decide_eq_true_2.
        + exists c, d. split_and!; try done.
          unfold isEmpty. rewrite Hgn, Hce. by rewrite bool_decide_eq_true_2.
    Qed.

End Grid.

End CanFinish.

Lemma initialCells_default checked w h :
  3 <= w -> 3 <= h -> w * h < 4294967296 ->
  exists m1,
    WilsonMaze.initialCells checked w h (linearize w 1 1)
      = Done (<[linearize w 1 1 := Empty]> m1) /\
    forall i, m1 !! i = if decide (0 <= i < w * h) then Some Solid else None.
Proof.
  intros Hw Hh Hsize. unfold WilsonMaze.initialCells.
  destruct (fillSolid_spec checked w h) as (m1 & Hfill & Hm1); [lia..|].
  exists m1. split; [|done].
  pose proof (default_start_intersection w h Hw Hh) as Hs.
  pose proof (proj1 (isIntersection_spec _ _ _) Hs) as (Hg & _).
  unfold newArray.
  destruct (Z.leb_spec 0 (w * h)); [|nia].
  destruct (Z.ltb_spec (w * h) 4294967296); [|lia].
  simpl. rewrite Hfill. simpl.
  by rewrite writeCell_in by (by apply (inGrid_index w h (mkVec 1 1))).
Qed.





(** ** The number of carved cells *)

Section Counting.
Variable checked : bool.
Variables w h : Z.
Variable start : Vector2.
Hypothesis Hw_odd : Z.odd w = true.
Hypothesis Hh_odd : Z.odd h = true.
Hypothesis Hw_min : 3 <= w.
Hypothesis Hh_min : 3 <= h.
Hypothesis Hw_max : w <= 65537.
Hypothesis Hh_max : h <= 65537.



End Counting.



(** ** The blocks of the world *)

Lemma blockKey_inj x y z x' y' z' :
  MazeWorld.blockKey x y z = MazeWorld.blockKey x' y' z' ->
  x = x' /\ y = y' /\ z = z'.
Proof.
  unfold MazeWorld.blockKey. intros E.
  apply split_at_comma in E as [Ex E]; [|apply noComma_pretty_Z..].
  apply split_at_comma in E as [Ey Ez]; [|apply noComma_pretty_Z..].
  apply (inj pretty) in Ex, Ey, Ez. done.
Qed.

Lemma arrayLength_above cells k :
  is_Some (cells !! k) -> 0 <= k < 4294967295 -> k < MazeWorld.arrayLength cells.
Proof.
  intros [c Hc] Hk. apply elem_of_map_to_list in Hc.
  unfold MazeWorld.arrayLength. induction (map_to_list cells) as [|kv l IH].
  - by apply elem_of_nil in Hc.
  - simpl. apply elem_of_cons in Hc as [<-|Hc].
    + simpl. destruct (Z.leb_spec 0 k); [|lia]. destruct (Z.ltb_spec k 4294967295); [|lia].
      simpl. lia.
    + specialize (IH Hc). destruct (_ && _); lia.
Qed.

Lemma arrayLength_nonneg cells : 0 <= MazeWorld.arrayLength cells.
Proof.
  unfold MazeWorld.arrayLength. induction (map_to_list cells) as [|kv l IH]; [done|].
  simpl. destruct (_ && _); lia.
Qed.

Section World.
Variable mz : WilsonMaze.t.

Local Abbreviation w := (WilsonMaze.width mz).
Local Abbreviation h := (WilsonMaze.height mz).
Local Abbreviation cells := (WilsonMaze.cells mz).

Hypothesis Hw : 0 < w.
Hypothesis Hwf : wellFormed w h cells.
Hypothesis Hsize : w * h < 4294967296.

  (** What the world holds at [(x, y, z)] once the cells below index [n]
      have been placed. *)
Local Abbreviation placed n blocks :=
    (forall x y z,
       blocks !! MazeWorld.blockKey x y z
       = if inGrid w h (mkVec x z) && (linearize w x z <? n) then
           if decide (y = 0) then Some (MazeWorld.floorId mz (linearize w x z))
           else if decide (y = 1 \/ y = 2) then
             if decide (cellAt w cells (mkVec x z) = Some Solid)
             then Some MazeWorld.BLOCK_TYPE_WALL else None
           else None
         else None).

Local Abbreviation body :=
    (fun index s => match cells !! index with
                    | Some cell => MazeWorld.placeCell mz cell index s
                    | None => s
                    end).

Lemma delinearize_inGrid i :
    0 <= i < w * h ->
    inGrid w h (delinearize w i) = true /\
    linearize w (vx (delinearize w i)) (vz (delinearize w i)) = i.
  Proof.
    intros Hi. unfold delinearize, linearize. simpl.
    rewrite Z.rem_mod_nonneg by lia.
    split; [|lia]. apply inGrid_spec. simpl.
    assert (i / w < h) by (apply Z.div_lt_upper_bound; lia).
    pose proof (Z.div_pos i w). lia.
  Qed.

Lemma placed_loop n : placed (Z.of_nat n) (forNat n 0 body ∅).
  Proof.
    induction n as [|n IH]; intros x y z.
    - simpl. rewrite lookup_empty.
      destruct (inGrid w h (mkVec x z)) eqn:Hg; [|done].
      apply inGrid_spec in Hg. simpl in Hg. unfold linearize.
      change (Z.of_nat 0) with 0.
      destruct (Z.ltb_spec (z * w + x) 0); [nia|done].
    - rewrite forNat_snoc, Z.add_0_l.
      set (blocks := forNat n 0 body ∅) in *.
      replace (Z.of_nat (S n)) with (Z.of_nat n + 1) by lia.
      remember (Z.of_nat n) as i eqn:Ei.
      destruct (cells !! i) as [c|] eqn:Hc.
      + assert (Hi : 0 <= i < w * h) by (apply Hwf; by eexists).
        destruct (delinearize_inGrid i Hi) as [Hgp Hlp].
        set (pos := delinearize w i) in *.
        destruct (decide (mkVec x z = pos)) as [Hpos|Hpos].
        * assert (vx pos = x /\ vz pos = z) as [Ex Ez] by (by rewrite <- Hpos).
          assert (Hg : inGrid w h (mkVec x z) = true) by (by rewrite Hpos).
          assert (Hl : linearize w x z = i) by (by rewrite <- Ex, <- Ez).
          rewrite Hg, Hl. destruct (Z.ltb_spec i (i + 1)); [|lia]. simpl.
          unfold cellAt. simpl. rewrite Hl, Hc.
          specialize (IH x y z). rewrite Hg, Hl, Z.ltb_irrefl in IH. simpl in IH.
          unfold MazeWorld.placeCell, MazeWorld.addBlock. fold pos. rewrite Ex, Ez.
          destruct (decide (y = 0)) as [->|Hy0]; [by rewrite lookup_insert_eq|].
          rewrite lookup_insert_ne by (intros E%blockKey_inj; lia).
          destruct (decide (y = 1 \/ y = 2)) as [Hy|Hy].
          -- destruct (decide (c = Solid)) as [->|Hcs].
             ++ rewrite (decide_True (P := Some Solid = Some Solid)) by done.
                destruct Hy as [-> | ->]; [|by rewrite lookup_insert_eq].
                rewrite lookup_insert_ne by (intros E%blockKey_inj; lia).
                by rewrite lookup_insert_eq.
             ++ rewrite (decide_False (P := Some c = Some Solid)) by congruence.
                by rewrite IH.
          -- destruct (decide (c = Solid));
               [rewrite !lookup_insert_ne by (intros E%blockKey_inj; lia)|];
               by rewrite IH.
        * assert (Hother : forall (b : gmap string Z) y' id,
                    <[MazeWorld.blockKey (vx pos) y' (vz pos) := id]> b
                      !! MazeWorld.blockKey x y z = b !! MazeWorld.blockKey x y z).
          { intros b y' id. apply lookup_insert_ne. intros (Ex & _ & Ez)%blockKey_inj.
            apply Hpos. destruct pos. simpl in *. by subst. }
          unfold MazeWorld.placeCell, MazeWorld.addBlock. fold pos.
          rewrite Hother.
          assert (E : (if decide (c = Solid)
                       then <[MazeWorld.blockKey (vx pos) 2 (vz pos) := MazeWorld.BLOCK_TYPE_WALL]>
                              (<[MazeWorld.blockKey (vx pos) 1 (vz pos) := MazeWorld.BLOCK_TYPE_WALL]> blocks)
                       else blocks) !! MazeWorld.blockKey x y z
                      = blocks !! MazeWorld.blockKey x y z).
          { destruct (decide (c = Solid)); [by rewrite !Hother|done]. }
          rewrite E, IH.
          destruct (inGrid w h (mkVec x z)) eqn:Hg; [|done]. simpl.
          assert (linearize w x z <> i).
          { intros El. apply Hpos. rewrite <- Hlp in El.
            pose proof (proj1 (inGrid_spec _ _ _) Hg) as Hxz.
            pose proof (proj1 (inGrid_spec _ _ _) Hgp) as Hp. simpl in Hxz.
            apply linearize_inj in El as [Ex Ez]; [|lia..].
            destruct pos. simpl in *. by subst. }
          destruct (Z.ltb_spec (linearize w x z) i),
                   (Z.ltb_spec (linearize w x z) (i + 1)); try lia; done.
      + rewrite IH.
        destruct (inGrid w h (mkVec x z)) eqn:Hg; [|done]. simpl.
        assert (linearize w x z <> i).
        { intros El. pose proof (inGrid_index w h _ Hg) as Hgi. simpl in Hgi.
          rewrite El in Hgi. apply Hwf in Hgi as [? Hgi]. congruence. }
        destruct (Z.ltb_spec (linearize w x z) i),
                 (Z.ltb_spec (linearize w x z) (i + 1)); try lia; done.
  Qed.

Lemma world_blocks x y z :
    MazeWorld.new mz !! MazeWorld.blockKey x y z
    = if inGrid w h (mkVec x z) then
        if decide (y = 0) then Some (MazeWorld.floorId mz (linearize w x z))
        else if decide (y = 1 \/ y = 2) then
          if decide (cellAt w cells (mkVec x z) = Some Solid)
          then Some MazeWorld.BLOCK_TYPE_WALL else None
        else None
      else None.
  Proof.
    unfold MazeWorld.new, MazeWorld.forEach. rewrite forZ_forNat.
    rewrite placed_loop.
    destruct (inGrid w h (mkVec x z)) eqn:Hg; [|done]. simpl.
    pose proof (inGrid_index w h _ Hg) as Hi. simpl in Hi.
    pose proof (arrayLength_nonneg cells).
    pose proof (arrayLength_above cells (linearize w x z)) as Ha.
    destruct (Z.ltb_spec (linearize w x z) (Z.of_nat (Z.to_nat (MazeWorld.arrayLength cells))));
      [done|].
    exfalso. assert (linearize w x z < MazeWorld.arrayLength cells); [|lia].
    apply Ha; [by apply Hwf|lia].
  Qed.



End World.

(** X16. The coordinate strings of the world: [`${x},${y},${z}`] tells
    any two integer block positions apart. *)
Theorem blockKey_injective x y z x' y' z' :
  MazeWorld.blockKey x y z = MazeWorld.blockKey x' y' z' <->
  x = x' /\ y = y' /\ z = z'.
Proof.
  split; [apply blockKey_inj|]. by intros (-> & -> & ->).
Qed.

(** X17. The blocks of the world, for a maze whose array holds a cell
    exactly on the indices of its grid: at every cell of the grid a floor
    block at [y = 0], of type START (2) on the start index, else GOAL (3)
    on the goal index, else FLOOR (1); a WALL block (4) at [y = 1] and at
    [y = 2] exactly on the [Solid] cells; no block at any other integer
    position. *)
Theorem world_blocks_placed mz x y z :
  0 < WilsonMaze.width mz ->
  wellFormed (WilsonMaze.width mz) (WilsonMaze.height mz) (WilsonMaze.cells mz) ->
  WilsonMaze.width mz * WilsonMaze.height mz < 4294967296 ->
  MazeWorld.new mz !! MazeWorld.blockKey x y z
  = if inGrid (WilsonMaze.width mz) (WilsonMaze.height mz) (mkVec x z) then
      if decide (y = 0)
      then Some (if decide (linearize (WilsonMaze.width mz) x z = WilsonMaze.startIndex mz)
                 then 2
                 else if decide (linearize (WilsonMaze.width mz) x z = WilsonMaze.goalIndex mz)
                 then 3 else 1)
      else if decide (y = 1 \/ y = 2) then
        if decide (cellAt (WilsonMaze.width mz) (WilsonMaze.cells mz) (mkVec x z) = Some Solid)
        then Some 4 else None
      else None
    else None.
Proof.
  intros Hw Hwf Hsize. by rewrite world_blocks.
Qed.

Lemma world_blocks_placed_witness :
  MazeWorld.new (WilsonMaze.mk 5 5 cells_5x5 6 18) !! MazeWorld.blockKey 1 0 1 = Some 2 /\
  MazeWorld.new (WilsonMaze.mk 5 5 cells_5x5 6 18) !! MazeWorld.blockKey 3 0 3 = Some 3 /\
  MazeWorld.new (WilsonMaze.mk 5 5 cells_5x5 6 18) !! MazeWorld.blockKey 1 1 1 = None /\
  MazeWorld.new (WilsonMaze.mk 5 5 cells_5x5 6 18) !! MazeWorld.blockKey 3 2 3 = Some 4 /\
  MazeWorld.new (WilsonMaze.mk 5 5 cells_5x5 6 18) !! MazeWorld.blockKey 3 3 3 = None /\
  MazeWorld.new (WilsonMaze.mk 5 5 cells_5x5 6 18) !! MazeWorld.blockKey 5 0 3 = None.
Proof.
  split_and!;
    (rewrite (world_blocks_placed (WilsonMaze.mk 5 5 cells_5x5 6 18));
     [reflexivity|simpl; lia|apply wellFormed_cells_5x5|simpl; lia]).
Defined.



Lemma new_size checked fuel ds W H sp gp mz :
  WilsonMaze.new checked fuel ds W H sp gp = Done mz ->
  WilsonMaze.width mz * WilsonMaze.height mz < 4294967296.
Proof.
  intros Hnew.
  destruct (new_dims _ _ _ _ _ _ _ _ Hnew) as (-> & -> & _ & _).
  revert Hnew. unfold WilsonMaze.new. simpl.
  unfold WilsonMaze.initialCells, newArray.
  destruct (Z.ltb_spec (WilsonMaze.normalize W * WilsonMaze.normalize H) 4294967296);
    [done|]. by rewrite andb_false_r.
Qed.



(** ** The earlier variant: [class Maze] of part_001 *)

Local Arguments Maze.randomWalk_loop : simpl never.
Local Arguments MazeGen.replay : simpl never.

(** The cell picker returns an intersection of the grid. *)
Lemma maze_randomOddCell_spec w h (n : nat) : forall ds c ds',
  0 < w -> 0 < h -> (length ds <= n)%nat ->
  MazeGen.randomOddCell w h ds = Done (c, ds') ->
  isIntersection w h c = true /\ (length ds' < length ds)%nat.
Proof.
  induction n as [|n IH]; intros [|r1 [|r2 ds]] c ds' Hw Hh Hn; simpl; try done.
  { simpl in Hn. lia. }
  pose proof (floorTimes_range r1 w Hw) as Hx. pose proof (floorTimes_range r2 h Hh) as Hz.
  destruct (Z.eqb_spec (Z.rem (floorTimes r1 w) 2) 1) as [Ex|Ex]; simpl.
  - destruct (Z.eqb_spec (Z.rem (floorTimes r2 h) 2) 1) as [Ez|Ez].
    + intros [= <- <-]. split; [|simpl; lia].
      apply isIntersection_spec. rewrite inGrid_spec. simpl.
      rewrite Z.rem_mod_nonneg in Ex, Ez by lia. lia.
    + intros Hr. apply IH in Hr as [Hc Hl]; [|done|done|simpl in Hn; lia].
      split; [done|simpl; lia].
  - intros Hr. apply IH in Hr as [Hc Hl]; [|done|done|simpl in Hn; lia].
    split; [done|simpl; lia].
Qed.

Section MazeTree.
Variable checked : bool.
Variables w h : Z.
Variable start : Vector2.
Hypothesis Hw_odd : Z.odd w = true.
Hypothesis Hh_odd : Z.odd h = true.
Hypothesis Hw_min : 3 <= w.
Hypothesis Hh_min : 3 <= h.

Lemma maze_replay_unfold fuel m path curr unvisited :
    MazeGen.replay checked w h fuel m path curr unvisited
    = (c ← getCellType checked w h m (vx curr) (vz curr);
       if decide (c = Some Solid) then
         match fuel with
         | O => Starved
         | S fuel' =>
           cells1 ← setCellType checked w h m (vx curr) (vz curr) Empty;
           match path !! Maze.keyOf curr with
           | None => Throw TypeError
           | Some dir =>
             cells2 ← setCellType checked w h cells1
                        (vx (stepIn curr dir 1)) (vz (stepIn curr dir 1)) Empty;
             MazeGen.replay checked w h fuel' cells2 path (stepIn curr dir 2)
               (unvisited - 1)
           end
         end
       else Done (m, unvisited)).
  Proof. by destruct fuel. Qed.

Lemma onTrailK_carve m path c0 d s :
    isIntersection w h c0 = true -> isIntersection w h (stepIn c0 d 2) = true ->
    s.1 <> c0 -> onTrailK w h m path s -> onTrailK w h (carve w m c0 d) path s.
  Proof.
    intros Hc0 Ht Hne (Hi & Hs & Hp & Hn). split_and!; try done.
    rewrite isSolid_carve.
    - rewrite Hs, (intersection_not_between w h _ c0 d) by done.
      replace (same s.1 c0) with false; [done|].
      symmetry. apply not_true_is_false. by intros ?%same_spec.
    - by apply isIntersection_spec in Hc0 as [? _].
    - apply between_inGrid.
      + by apply isIntersection_spec in Hc0 as [? _].
      + by apply isIntersection_spec in Ht as [? _].
  Qed.

  (** A trail keyed by coordinate strings is a trail for any record that
      holds its directions; the carving lemmas only use its cells. *)
Lemma TrailK_cells m path from steps t :
    TrailK w h m path from steps t ->
    chained from steps t /\ NoDup (steps.*1 ++ [t]) /\
    Forall (fun s => isIntersection w h s.1 = true /\ isSolid w h m s.1 = true /\
                     isIntersection w h (stepIn s.1 s.2 2) = true) steps /\
    isIntersection w h t = true.
  Proof.
    intros (Hch & Hnd & Hall & Hti). split_and!; try done.
    eapply Forall_impl; [exact Hall|]. by intros s (? & ? & _ & ?).
  Qed.

Lemma maze_replay_spec steps : forall fuel m path from t unvisited,
    TrailK w h m path from steps t -> isEmpty w h m t = true ->
    MazeGen.replay checked w h fuel m path from unvisited
    = if decide (length steps <= fuel)%nat
      then Done (carveAll w m steps, unvisited - Z.of_nat (length steps))
      else Starved.
  Proof.
    induction steps as [|s rest IH]; intros fuel m path from t unvisited
      (Hch & Hnd & Hall & Hti) He; rewrite maze_replay_unfold.
    - simpl in Hch. subst from.
      rewrite getCellType_in by (by apply isEmpty_inGrid in He).
      rewrite (isEmpty_cellAt _ _ _ _ He). simpl.
      do 2 f_equal. lia.
    - destruct Hch as [Hs Hch]. subst from.
      apply Forall_cons in Hall as [(Hi & Hso & Hp & Hn) Hall].
      pose proof (proj1 (isIntersection_spec _ _ _) Hi) as (Hg & _).
      pose proof (proj1 (isIntersection_spec _ _ _) Hn) as (Hgn & _).
      rewrite getCellType_in by done.
      rewrite (isSolid_cellAt _ _ _ _ Hso). simpl.
      destruct fuel as [|fuel]; [by rewrite decide_False by (simpl; lia)|].
      rewrite setCellType_in by done. simpl. rewrite Hp.
      rewrite setCellType_in by (by apply between_inGrid). simpl.
      fold (carve w m s.1 s.2).
      simpl in Hnd. apply NoDup_cons in Hnd as [Hnotin Hnd].
      rewrite (IH fuel (carve w m s.1 s.2) path _ t).
      + simpl length. repeat case_decide; try lia.
        * do 2 f_equal; [|lia]. simpl. apply carveAll_carve.
        * done.
      + split_and!; try done.
        apply Forall_forall. intros s' Hs'.
        apply onTrailK_carve; try done.
        * intros E. apply Hnotin. apply elem_of_app. left.
          apply list_elem_of_fmap. by exists s'.
        * by apply (proj1 (Forall_forall _ _) Hall).
      + rewrite isEmpty_carve by (first [lia | done | by apply between_inGrid]).
        by rewrite He.
  Qed.

  (** Carving a trail that ends on a carved cell keeps the tree, and turns
      two cells [Empty] for each of its steps. *)
Lemma maze_carveAll_inv steps : forall m from t unvisited,
    Inv w h start m unvisited ->
    chained from steps t -> NoDup (steps.*1 ++ [t]) ->
    Forall (fun s => isIntersection w h s.1 = true /\ isSolid w h m s.1 = true /\
                     isIntersection w h (stepIn s.1 s.2 2) = true) steps ->
    isEmpty w h m t = true ->
    Inv w h start (carveAll w m steps) (unvisited - Z.of_nat (length steps)) /\
    isEmpty w h (carveAll w m steps) from = true /\
    emptyCount w h (carveAll w m steps)
    = emptyCount w h m + 2 * Z.of_nat (length steps).
  Proof.
    induction steps as [|s rest IH]; intros m from t unvisited HI Hch Hnd Hall He.
    - simpl in *. subst from. split_and!; [|done|lia].
      by replace (unvisited - Z.of_nat 0) with unvisited by lia.
    - destruct Hch as [Hs Hch]. subst from.
      apply Forall_cons in Hall as [(Hi & Hso & Hn) Hall].
      simpl in Hnd. apply NoDup_cons in Hnd as [Hnotin Hnd].
      destruct (IH m (stepIn s.1 s.2 2) t unvisited HI) as (HI' & He' & Hcount);
        [done..|].
      assert (Hso' : isSolid w h (carveAll w m rest) s.1 = true).
      { rewrite isSolid_carveAll; [done| |done|].
        - eapply Forall_impl; [exact Hall|]. by intros s' (? & _ & ?).
        - intros Hin. apply Hnotin. apply elem_of_app. by left. }
      split_and!.
      + simpl carveAll.
        replace (unvisited - Z.of_nat (length (s :: rest)))
          with (unvisited - Z.of_nat (length rest) - 1) by (simpl length; lia).
        by apply attach.
      + pose proof (proj1 (isIntersection_spec _ _ _) Hi) as (Hg & _).
        pose proof (proj1 (isIntersection_spec _ _ _) Hn) as (Hgn & _).
        simpl carveAll.
        rewrite isEmpty_carve by (first [lia | done | by apply between_inGrid]).
        replace (same s.1 s.1) with true; [by rewrite orb_true_r|].
        symmetry. by apply same_spec.
      + simpl carveAll.
        rewrite (step_emptyCount w h start _ _ s.1 s.2 HI' Hi Hso' Hn He').
        rewrite Hcount. simpl length. lia.
  Qed.

Section TrailK.
Variable m : gmap Z CellType.
Variable from : Vector2.

Lemma onTrailK_record path curr dir s :
      s.1 <> curr ->
      onTrailK w h m path s -> onTrailK w h m (<[Maze.keyOf curr := dir]> path) s.
    Proof.
      intros Hne (Hi & Hs & Hp & Hn). split_and!; try done.
      rewrite lookup_insert_ne; [done|].
      intros E. apply Hne. symmetry. by apply keyOf_inj.
    Qed.

Lemma TrailK_step path steps curr dir :
      TrailK w h m path from steps curr ->
      isSolid w h m curr = true ->
      outside w h (stepIn curr dir 2) = false ->
      exists steps',
        TrailK w h m (<[Maze.keyOf curr := dir]> path) from steps' (stepIn curr dir 2).
    Proof.
      intros (Hch & Hnd & Hall & Hci) Hso Hout.
      pose proof (step_intersection w h _ _ Hci Hout) as Hni.
      apply NoDup_app in Hnd as (Hnd1 & Hnd2 & _).
      assert (Hold : forall s, s ∈ steps ->
                onTrailK w h m (<[Maze.keyOf curr := dir]> path) s).
      { intros s Hs. apply onTrailK_record.
        - intros E. apply (Hnd2 curr); [|left].
          apply list_elem_of_fmap. by exists s.
        - by apply (proj1 (Forall_forall _ _) Hall). }
      destruct (decide (stepIn curr dir 2 ∈ steps.*1)) as [Hin|Hnotin].
      - apply list_elem_of_fmap in Hin as (s & Hs1 & Hs).
        apply list_elem_of_split in Hs as (pre & post & ->).
        exists pre. apply chained_app in Hch as (mid & Hpre & Hmid & _).
        rewrite fmap_app in Hnd1. apply NoDup_app in Hnd1 as (Hp1 & Hp2 & Hp3).
        split_and!.
        + by rewrite Hs1, Hmid.
        + apply NoDup_app. split_and!; [done| |apply NoDup_singleton].
          intros u Hu ->%list_elem_of_singleton.
          apply (Hp2 _ Hu). rewrite Hs1. left.
        + apply Forall_forall. intros s' Hs'. apply Hold.
          apply elem_of_app. by left.
        + done.
      - exists (steps ++ [(curr, dir)]). split_and!.
        + apply chained_app. exists curr. by split.
        + rewrite fmap_app. simpl. apply NoDup_app. split_and!.
          * apply NoDup_app. split_and!; [done|done|apply NoDup_singleton].
          * intros u Hu ->%list_elem_of_singleton.
            apply elem_of_app in Hu as [Hu|Hu%list_elem_of_singleton]; [done|].
            by apply (stepIn_moves curr dir).
          * apply NoDup_singleton.
        + apply Forall_app. split.
          * by apply Forall_forall.
          * apply Forall_singleton. split_and!; try done.
            simpl. apply lookup_insert_eq.
        + done.
    Qed.

Hypothesis Hwf : wellFormed w h m.

Lemma maze_walk_spec ds : forall path curr steps path' ds',
      TrailK w h m path from steps curr ->
      Maze.randomWalk_loop checked w h ds m path curr = Done (path', ds') ->
      exists steps' t,
        TrailK w h m path' from steps' t /\ isEmpty w h m t = true.
    Proof.
      induction ds as [|r ds IH]; intros path curr steps path' ds' HT;
        pose proof HT as (_ & _ & _ & Hci);
        pose proof (proj1 (isIntersection_spec _ _ _) Hci) as (Hg & _);
        rewrite maze_walk_unfold, getCellType_in by done; simpl;
        destruct (cell_cases w h m Hwf curr Hg) as [Hc|Hc]; rewrite Hc; simpl.
      - done.
      - intros [= <- <-]. exists steps, curr. split; [done|].
        unfold isEmpty. rewrite Hg, Hc. by rewrite bool_decide_eq_true_2.
      - rewrite randomDir_same. simpl.
        destruct (outside w h (stepIn curr (WilsonMaze.randomDir r) 2)) eqn:Hout.
        + apply (IH _ _ _ _ _ HT).
        + assert (Hso : isSolid w h m curr = true).
          { unfold isSolid. rewrite Hg, Hc. by rewrite bool_decide_eq_true_2. }
          destruct (TrailK_step _ _ _ (WilsonMaze.randomDir r) HT Hso Hout)
            as (steps' & HT').
          pose proof HT' as (_ & _ & _ & Hni).
          pose proof (proj1 (isIntersection_spec _ _ _) Hni) as (Hgn & _).
          rewrite getCellType_in by done. simpl.
          destruct (cell_cases w h m Hwf _ Hgn) as [Hn|Hn]; rewrite Hn; simpl.
          * apply (IH _ _ _ _ _ HT').
          * intros [= <- <-]. exists steps', (stepIn curr (WilsonMaze.randomDir r) 2).
            split; [done|].
            unfold isEmpty. rewrite Hgn, Hn. by rewrite bool_decide_eq_true_2.
      - intros [= <- <-]. exists steps, curr. split; [done|].
        unfold isEmpty. rewrite Hg, Hc. by rewrite bool_decide_eq_true_2.
    Qed.
End TrailK.

Lemma maze_generateStep_inv fuel ds m unvisited m' unvisited' ds' :
    Inv w h start m unvisited ->
    MazeGen.generateStep checked w h fuel ds m unvisited
      = Done (m', unvisited', ds') ->
    Inv w h start m' unvisited' /\ unvisited' <= unvisited /\
    emptyCount w h m' + 2 * unvisited' = emptyCount w h m + 2 * unvisited.
  Proof.
    intros HI. unfold MazeGen.generateStep.
    destruct (MazeGen.randomOddCell w h ds) as [[c ds1]| |] eqn:Hcell; [|done..].
    apply (maze_randomOddCell_spec w h (length ds)) in Hcell as [Hc _]; [|lia|lia|done].
    simpl. unfold Maze.randomWalk.
    destruct (Maze.randomWalk_loop checked w h ds1 m ∅ c)
      as [[path ds2]| |] eqn:Hwalk; [|done..]. simpl.
    assert (HT0 : TrailK w h m ∅ c [] c)
      by (split_and!; [done|apply NoDup_singleton|done|done]).
    eapply (maze_walk_spec m c (inv_wf _ _ _ _ _ HI)) in Hwalk
      as (steps & t & HT & He); [|exact HT0].
    rewrite (maze_replay_spec steps _ _ _ _ t) by done.
    case_decide; [|done]. simpl. intros [= <- <- <-].
    destruct (TrailK_cells _ _ _ _ _ HT) as (Hch & Hnd & Hall & _).
    destruct (maze_carveAll_inv steps m c t unvisited HI Hch Hnd Hall He)
      as (HI' & _ & Hcount).
    split_and!; [done|lia|lia].
  Qed.

Lemma maze_generate_loop_inv fuel : forall ds m unvisited m',
    Inv w h start m unvisited ->
    MazeGen.generate_loop checked w h fuel ds m unvisited = Done m' ->
    exists unvisited', Inv w h start m' unvisited' /\ unvisited' <= 0 /\
      emptyCount w h m' + 2 * unvisited' = emptyCount w h m + 2 * unvisited.
  Proof.
    induction fuel as [|fuel IH]; intros ds m unvisited m' HI; simpl;
      destruct (Z.gtb_spec unvisited 0) as [Hgt|Hle]; try done.
    - intros [= <-]. exists unvisited. split_and!; [done|lia|done].
    - destruct (MazeGen.generateStep checked w h (S fuel) ds m unvisited)
        as [[[m1 u1] ds1]| |] eqn:Hstep; [|done..].
      apply maze_generateStep_inv in Hstep as (HI1 & _ & Hc); [|done].
      simpl. intros Hrun.
      destruct (IH _ _ _ _ HI1 Hrun) as (u' & HI' & Hu' & Hc').
      exists u'. split_and!; [done..|lia].
    - intros [= <-]. exists unvisited. split_and!; [done|lia|done].
  Qed.

Lemma maze_walk_no_throw m from ds : forall path curr steps e,
    wellFormed w h m -> TrailK w h m path from steps curr ->
    Maze.randomWalk_loop checked w h ds m path curr <> Throw e.
  Proof.
    induction ds as [|r ds IH]; intros path curr steps e Hwf HT;
      pose proof HT as (_ & _ & _ & Hci);
      pose proof (proj1 (isIntersection_spec _ _ _) Hci) as (Hg & _);
      rewrite maze_walk_unfold, getCellType_in by done; simpl;
      destruct (cell_cases w h m Hwf curr Hg) as [Hc|Hc]; rewrite Hc; simpl;
      try done.
    rewrite randomDir_same. simpl.
    destruct (outside w h (stepIn curr (WilsonMaze.randomDir r) 2)) eqn:Hout.
    - exact (IH path curr steps e Hwf HT).
    - assert (Hso : isSolid w h m curr = true).
      { unfold isSolid. rewrite Hg, Hc. by rewrite bool_decide_eq_true_2. }
      destruct (TrailK_step m from _ _ _ (WilsonMaze.randomDir r) HT Hso Hout)
        as (steps' & HT').
      pose proof HT' as (_ & _ & _ & Hni).
      pose proof (proj1 (isIntersection_spec _ _ _) Hni) as (Hgn & _).
      rewrite getCellType_in by done. simpl.
      destruct (cell_cases w h m Hwf _ Hgn) as [Hn|Hn]; rewrite Hn; simpl; [|done].
      exact (IH _ _ steps' e Hwf HT').
  Qed.

Lemma maze_randomOddCell_no_throw ds e : MazeGen.randomOddCell w h ds <> Throw e.
  Proof.
    assert (H : forall n ds, (length ds <= n)%nat -> MazeGen.randomOddCell w h ds <> Throw e).
    { clear ds. induction n as [|n IH]; intros [|r1 [|r2 ds]] Hn; simpl; try done.
      { simpl in Hn. lia. }
      destruct (_ && _); [done|]. apply IH. simpl in Hn. lia. }
    by apply (H (length ds)).
  Qed.

Lemma maze_generateStep_no_throw fuel ds m unvisited e :
    Inv w h start m unvisited ->
    MazeGen.generateStep checked w h fuel ds m unvisited <> Throw e.
  Proof.
    intros HI. unfold MazeGen.generateStep.
    destruct (MazeGen.randomOddCell w h ds) as [[c ds1]|e'|] eqn:Hcell; [| |done].
    2:{ by apply maze_randomOddCell_no_throw in Hcell. }
    apply (maze_randomOddCell_spec w h (length ds)) in Hcell as [Hc _]; [|lia|lia|done].
    simpl. unfold Maze.randomWalk.
    assert (HT0 : TrailK w h m ∅ c [] c)
      by (split_and!; [done|apply NoDup_singleton|done|done]).
    destruct (Maze.randomWalk_loop checked w h ds1 m ∅ c)
      as [[path ds2]|e'|] eqn:Hwalk; [| |done].
    - simpl.
      eapply (maze_walk_spec m c (inv_wf _ _ _ _ _ HI)) in Hwalk
        as (steps & t & HT & He); [|exact HT0].
      rewrite (maze_replay_spec steps _ _ _ _ t) by done.
      by case_decide.
    - exfalso. revert Hwalk.
      by apply (maze_walk_no_throw m c ds1 ∅ c [] e' (inv_wf _ _ _ _ _ HI)).
  Qed.

Lemma maze_generate_loop_no_throw fuel : forall ds m unvisited e,
    Inv w h start m unvisited ->
    MazeGen.generate_loop checked w h fuel ds m unvisited <> Throw e.
  Proof.
    induction fuel as [|fuel IH]; intros ds m unvisited e HI; simpl;
      destruct (Z.gtb_spec unvisited 0) as [Hgt|Hle]; try done.
    destruct (MazeGen.generateStep checked w h (S fuel) ds m unvisited)
      as [[[m1 u1] ds1]|e'|] eqn:Hstep; [| |done].
    - apply maze_generateStep_inv in Hstep as (HI1 & _); [|done].
      simpl. by apply IH.
    - exfalso. by apply (maze_generateStep_no_throw _ _ _ _ e' HI) in Hstep.
  Qed.
End MazeTree.

(** What a maze returned by the constructor of part_001 is. *)
Lemma maze_generated checked fuel ds W H mz :
  2 <= W -> 2 <= H ->
  MazeGen.new checked fuel ds W H = Done mz ->
  let w := WilsonMaze.width mz in
  let h := WilsonMaze.height mz in
  w = WilsonMaze.normalize W /\ h = WilsonMaze.normalize H /\
  3 <= w /\ 3 <= h /\ Z.odd w = true /\ Z.odd h = true /\
  WilsonMaze.startPos mz = mkVec 1 1 /\
  WilsonMaze.goalPos mz = mkVec (w - 2) (h - 2) /\
  Inv w h (mkVec 1 1) (WilsonMaze.cells mz) 0 /\
  emptyCount w h (WilsonMaze.cells mz) = 2 * ((w / 2) * (h / 2)) - 1.
Proof.
  intros HW HH. unfold MazeGen.new.
  destruct (normalize_bounds W HW) as [Hw3 _].
  destruct (normalize_bounds H HH) as [Hh3 _].
  pose proof (default_start_intersection _ _ Hw3 Hh3) as Hs.
  destruct (Z.lt_ge_cases (WilsonMaze.normalize W * WilsonMaze.normalize H) 4294967296)
    as [Hsize|Hbig].
  2:{ unfold WilsonMaze.initialCells, newArray.
      destruct (Z.ltb_spec (WilsonMaze.normalize W * WilsonMaze.normalize H) 4294967296);
        [lia|]. by rewrite andb_false_r. }
  destruct (initialCells_default checked _ _ Hw3 Hh3 Hsize) as (m1 & -> & Hm1).
  simpl. unfold MazeGen.generateMaze.
  destruct (MazeGen.generate_loop _ _ _ _ _ _ _) as [m3| |] eqn:Hgen; [|done..].
  simpl. intros [= <-]. simpl.
  eapply (maze_generate_loop_inv checked _ _ (mkVec 1 1)) in Hgen
    as (u' & HI' & Hu' & Hc); try done; try apply normalize_odd;
    [|apply (initial_inv _ _ (mkVec 1 1) m1); try done; lia].
  assert (Hu0 : 0 <= u').
  { rewrite (inv_unvisited _ _ _ _ _ HI'). apply gridSum_nonneg.
    intros c. by destruct (_ && _). }
  assert (u' = 0) as -> by lia.
  assert (E1 : emptyCount (WilsonMaze.normalize W) (WilsonMaze.normalize H)
                 (<[linearize (WilsonMaze.normalize W) 1 1 := Empty]> m1) = 1).
  { unfold emptyCount.
    rewrite (gridSum_ext _ _ _ (fun u => ind (same u (mkVec 1 1)))).
    - apply gridSum_same. by apply isIntersection_spec in Hs as [? _].
    - intros u _. by rewrite (initial_isEmpty _ _ (mkVec 1 1) m1 Hm1 Hs). }
  split_and!; try done; try apply normalize_odd.
  - unfold WilsonMaze.startPos. simpl. apply delinearize_linearize; lia.
  - unfold WilsonMaze.goalPos. simpl. apply delinearize_linearize; lia.
  - lia.
Qed.

(** X20. The cell picker of part_001 on a grid of positive dimensions:
    when the resampling loop returns, the cell is an intersection of the
    grid (inside the grid, both coordinates odd), and the loop has used up
    some of the draws. *)
Theorem maze_randomOddCell_intersection w h ds c ds' :
  0 < w -> 0 < h ->
  MazeGen.randomOddCell w h ds = Done (c, ds') ->
  isIntersection w h c = true /\ (length ds' < length ds)%nat.
Proof.
  intros Hw Hh. by apply (maze_randomOddCell_spec w h (length ds)).
Qed.

Lemma maze_randomOddCell_intersection_witness :
  isIntersection 5 5 (mkVec 3 1) = true /\ (length [rand 0 1] < 5)%nat.
Proof.
  apply (maze_randomOddCell_intersection 5 5
           [rand 0 5; rand 1 5; rand 3 5; rand 1 5; rand 0 1] (mkVec 3 1) [rand 0 1]);
    [lia|lia|vm_compute; reflexivity].
Defined.

(** X21. On a grid of width at most 1 the resampling loop of part_001
    never returns: no draw gives an odd [x], so every supply of draws is
    used up. *)
Theorem maze_randomOddCell_diverges w h ds :
  w <= 1 -> MazeGen.randomOddCell w h ds = Starved.
Proof.
  intros Hw.
  assert (H : forall n ds, (length ds <= n)%nat -> MazeGen.randomOddCell w h ds = Starved).
  { clear ds. induction n as [|n IH]; intros [|r1 [|r2 ds]] Hn; simpl; try done.
    { simpl in Hn. lia. }
    assert (Hx : floorTimes r1 w <= 0).
    { unfold floorTimes. pose proof (rden_pos r1).
      assert (Z.of_N (rnum r1) < rden r1) by (unfold rden; lia).
      destruct (Z.le_gt_cases w 0).
      - apply Z.div_le_upper_bound; [done|]. nia.
      - assert (w = 1) as -> by lia. rewrite Z.mul_1_r.
        rewrite Z.div_small by lia. done. }
    assert (Er : (Z.rem (floorTimes r1 w) 2 =? 1) = false).
    { apply Z.eqb_neq. pose proof (Z.rem_nonpos (floorTimes r1 w) 2). lia. }
    rewrite Er. simpl. apply IH. simpl in Hn. lia. }
  by apply (H (length ds)).
Qed.

Lemma maze_randomOddCell_diverges_witness :
  MazeGen.randomOddCell 1 5 [rand 0 2; rand 1 2; rand 1 3; rand 2 3] = Starved.
Proof.
  apply (maze_randomOddCell_diverges 1 5); lia.
Defined.

(** X22. The generator of part_001 builds a spanning tree, for every
    request of at least 2 x 2 (its walk record is keyed by coordinate
    strings, so no bound on the dimensions is needed): every [Empty] cell
    is reached from the start cell, and the number of [Empty] cells is the
    number of connections plus one. *)
Theorem maze_spanning_tree checked fuel ds W H mz :
  2 <= W -> 2 <= H ->
  MazeGen.new checked fuel ds W H = Done mz ->
  (forall c, isEmpty (WilsonMaze.width mz) (WilsonMaze.height mz) (WilsonMaze.cells mz) c = true ->
     reach (WilsonMaze.width mz) (WilsonMaze.height mz) (WilsonMaze.cells mz)
       (WilsonMaze.startPos mz) c) /\
  emptyCount (WilsonMaze.width mz) (WilsonMaze.height mz) (WilsonMaze.cells mz)
  = connections (WilsonMaze.width mz) (WilsonMaze.height mz) (WilsonMaze.cells mz) + 1.
Proof.
  intros HW HH Hnew.
  destruct (maze_generated _ _ _ _ _ _ HW HH Hnew)
    as (_ & _ & _ & _ & _ & _ & -> & _ & HI & _).
  split; [apply (inv_reach _ _ _ _ _ HI)|apply (inv_count _ _ _ _ _ HI)].
Qed.

(** X23. The cells of a maze of part_001, for every request of at least
    2 x 2: start (1,1) and goal (width-2, height-2); every intersection is
    [Empty], every boundary cell is [Solid], and exactly
    [2 * floor(width/2) * floor(height/2) - 1] cells are [Empty]. *)
Theorem maze_cells checked fuel ds W H mz :
  2 <= W -> 2 <= H ->
  MazeGen.new checked fuel ds W H = Done mz ->
  let w := WilsonMaze.width mz in
  let h := WilsonMaze.height mz in
  WilsonMaze.startPos mz = mkVec 1 1 /\
  WilsonMaze.goalPos mz = mkVec (w - 2) (h - 2) /\
  (forall c, isIntersection w h c = true -> isEmpty w h (WilsonMaze.cells mz) c = true) /\
  (forall c, onBoundary w h c = true -> isSolid w h (WilsonMaze.cells mz) c = true) /\
  emptyCount w h (WilsonMaze.cells mz) = 2 * ((w / 2) * (h / 2)) - 1.
Proof.
  intros HW HH Hnew.
  destruct (maze_generated _ _ _ _ _ _ HW HH Hnew)
    as (_ & _ & Hw3 & Hh3 & Hwo & Hho & Es & Eg & HI & Hc).
  intros w h. split_and!; try done.
  - intros c Hi. by eapply all_carved; eauto.
  - intros c Hb. by eapply boundary_solid; eauto.
Qed.

(** X25. The constructor of part_001 throws nothing but the RangeError
    of an array that is too long, for every request of at least 2 x 2,
    every supply of draws and in both readings of the array: no access
    leaves the array, the replay finds a recorded direction at every cell
    it visits, and [randomDir] never reaches its [throw]. *)
Theorem maze_throws_only_RangeError checked fuel ds W H e :
  2 <= W -> 2 <= H ->
  MazeGen.new checked fuel ds W H = Throw e ->
  e = RangeError /\ 4294967296 <= WilsonMaze.normalize W * WilsonMaze.normalize H.
Proof.
  intros HW HH. unfold MazeGen.new.
  destruct (normalize_bounds W HW) as [Hw3 _].
  destruct (normalize_bounds H HH) as [Hh3 _].
  pose proof (default_start_intersection _ _ Hw3 Hh3) as Hs.
  destruct (Z.lt_ge_cases (WilsonMaze.normalize W * WilsonMaze.normalize H) 4294967296)
    as [Hsize|Hbig].
  2:{ unfold WilsonMaze.initialCells, newArray.
      destruct (Z.ltb_spec (WilsonMaze.normalize W * WilsonMaze.normalize H) 4294967296);
        [lia|]. rewrite andb_false_r. simpl. by intros [= <-]. }
  destruct (initialCells_default checked _ _ Hw3 Hh3 Hsize) as (m1 & -> & Hm1).
  simpl. unfold MazeGen.generateMaze.
  destruct (MazeGen.generate_loop _ _ _ _ _ _ _) as [m3|e'|] eqn:Hgen; [done| |done].
  exfalso. revert Hgen.
  apply (maze_generate_loop_no_throw checked _ _ (mkVec 1 1)); try done;
    try apply normalize_odd.
  apply (initial_inv _ _ (mkVec 1 1) m1); try done; lia.
Qed.

Lemma maze_spanning_tree_witness :
  exists mz, MazeGen.new false 3 maze_draws 4 5 = Done mz /\
    emptyCount 5 5 (WilsonMaze.cells mz) = connections 5 5 (WilsonMaze.cells mz) + 1.
Proof.
  assert (E : { mz | MazeGen.new false 3 maze_draws 4 5 = Done mz }).
  { eexists. vm_compute. reflexivity. }
  destruct E as [mz E]. exists mz. split; [exact E|].
  destruct (maze_generated false 3 maze_draws 4 5 mz) as (Ew & Eh & _); [lia|lia|exact E|].
  change (WilsonMaze.normalize 4) with 5 in Ew.
  change (WilsonMaze.normalize 5) with 5 in Eh.
  destruct (maze_spanning_tree false 3 maze_draws 4 5 mz) as [_ Hc]; [lia|lia|exact E|].
  rewrite Ew, Eh in Hc. exact Hc.
Defined.

Lemma maze_cells_witness :
  exists mz, MazeGen.new false 3 maze_draws 4 5 = Done mz /\
    WilsonMaze.goalPos mz = mkVec 3 3 /\ emptyCount 5 5 (WilsonMaze.cells mz) = 7.
Proof.
  assert (E : { mz | MazeGen.new false 3 maze_draws 4 5 = Done mz }).
  { eexists. vm_compute. reflexivity. }
  destruct E as [mz E]. exists mz. split; [exact E|].
  destruct (maze_generated false 3 maze_draws 4 5 mz) as (Ew & Eh & _); [lia|lia|exact E|].
  change (WilsonMaze.normalize 4) with 5 in Ew.
  change (WilsonMaze.normalize 5) with 5 in Eh.
  destruct (maze_cells false 3 maze_draws 4 5 mz) as (_ & Hg & _ & _ & Hc);
    [lia|lia|exact E|].
  rewrite Ew, Eh in Hg, Hc. split; [exact Hg|exact Hc].
Defined.

Lemma maze_throws_only_RangeError_witness :
  RangeError = RangeError /\
  4294967296 <= WilsonMaze.normalize 65536 * WilsonMaze.normalize 65536.
Proof.
  apply (maze_throws_only_RangeError false 0 [] 65536 65536 RangeError);
    [lia|lia|vm_compute; reflexivity].
Defined.

(** ** The generator of part_001 can finish, on every grid *)

Lemma floorTimes_rand x n :
  0 <= x < n -> floorTimes (rand (Z.to_N x) (Z.to_N n)) n = x.
Proof.
  intros Hx. unfold floorTimes, rden, rand. simpl.
  replace (Z.of_N (Z.to_N x) + Z.of_N (Z.to_N n - Z.to_N x - 1) + 1) with n by lia.
  rewrite Z2N.id by lia. apply Z.div_mul. lia.
Qed.

Section MazeCanFinish.
Variable checked : bool.
Variables w h : Z.
Variable start : Vector2.
Hypothesis Hw_odd : Z.odd w = true.
Hypothesis Hh_odd : Z.odd h = true.
Hypothesis Hw_min : 3 <= w.
Hypothesis Hh_min : 3 <= h.

Lemma maze_one_more m fuel ds c d :
    isIntersection w h c = true -> isSolid w h m c = true ->
    isIntersection w h (stepIn c d 2) = true ->
    isEmpty w h m (stepIn c d 2) = true ->
    forall unvisited,
    MazeGen.generateStep checked w h (S fuel)
      (rand (Z.to_N (vx c)) (Z.to_N w) :: rand (Z.to_N (vz c)) (Z.to_N h) :: drawOf d :: ds)
      m unvisited
    = Done (carve w m c d, unvisited - 1, ds).
  Proof.
    intros Hc Hs Hn He unvisited.
    pose proof (proj1 (isIntersection_spec _ _ _) Hc) as (Hg & Hx & Hz).
    pose proof (proj1 (isIntersection_spec _ _ _) Hn) as (Hgn & _).
    pose proof (proj1 (inGrid_spec _ _ _) Hg) as Hr.
    unfold MazeGen.generateStep. simpl MazeGen.randomOddCell.
    rewrite !floorTimes_rand by lia.
    rewrite !Z.rem_mod_nonneg, Hx, Hz by lia. simpl.
    replace (mkVec (vx c) (vz c)) with c by (by destruct c).
    unfold Maze.randomWalk.
    rewrite maze_walk_unfold, getCellType_in by done.
    rewrite (isSolid_cellAt _ _ _ _ Hs). simpl.
    rewrite randomDir_same, randomDir_drawOf. simpl.
    assert (Hout : outside w h (stepIn c d 2) = false).
    { apply inGrid_spec in Hgn. unfold outside.
      rewrite !orb_false_iff, !Z.ltb_ge, !Z.gtb_ltb, !Z.ltb_ge. lia. }
    rewrite Hout, getCellType_in by done.
    rewrite (isEmpty_cellAt _ _ _ _ He). simpl.
    rewrite (maze_replay_spec checked w h [(c, d)] _ _ _ _ (stepIn c d 2)); [done| |done].
    split_and!; try done.
    - simpl. apply NoDup_cons. split; [|apply NoDup_singleton].
      intros Hin%list_elem_of_singleton. by apply (stepIn_moves c d).
    - apply Forall_singleton. split_and!; try done. simpl. apply lookup_insert_eq.
  Qed.

Lemma maze_can_finish (n : nat) : forall m unvisited,
    Inv w h start m unvisited -> isIntersection w h start = true ->
    unvisited <= Z.of_nat n ->
    exists fuel ds m', MazeGen.generate_loop checked w h fuel ds m unvisited = Done m'.
  Proof.
    induction n as [|n IH]; intros m unvisited HI Hstart Hu.
    - exists O, [], m. simpl. by destruct (Z.gtb_spec unvisited 0); [lia|].
    - destruct (Z.le_gt_cases unvisited 0) as [Hle|Hgt].
      { exists O, [], m. simpl. by destruct (Z.gtb_spec unvisited 0); [lia|]. }
      destruct (exists_solid_intersection w h start m unvisited HI) as (c0 & Hc0 & Hs0);
        [lia|].
      destruct (frontier w h start Hw_odd Hh_odd m unvisited HI Hstart
                  (Z.to_nat (Z.abs (vx c0 - vx start) + Z.abs (vz c0 - vz start))) c0)
        as (c & d & Hc & Hs & Hn & He); [done|done|lia|].
      destruct (IH (carve w m c d) (unvisited - 1)) as (fuel & ds & m' & Hrun);
        [by apply attach|done|lia|].
      exists (S fuel),
        (rand (Z.to_N (vx c)) (Z.to_N w) :: rand (Z.to_N (vz c)) (Z.to_N h)
           :: drawOf d :: ds), m'.
      change (MazeGen.generate_loop checked w h (S fuel)
                (rand (Z.to_N (vx c)) (Z.to_N w) :: rand (Z.to_N (vz c)) (Z.to_N h)
                   :: drawOf d :: ds) m unvisited)
        with (if unvisited >? 0 then
                '(cells', unvisited', ds') ←
                  MazeGen.generateStep checked w h (S fuel)
                    (rand (Z.to_N (vx c)) (Z.to_N w) :: rand (Z.to_N (vz c)) (Z.to_N h)
                       :: drawOf d :: ds) m unvisited;
                MazeGen.generate_loop checked w h fuel ds' cells' unvisited'
              else Done m).
      destruct (Z.gtb_spec unvisited 0); [|lia].
      rewrite (maze_one_more m fuel ds c d Hc Hs Hn He unvisited).
      exact Hrun.
  Qed.
End MazeCanFinish.

(** X24. The generator of part_001 can finish: for every request of at
    least 2 x 2 whose array can be allocated there are random draws for
    which the constructor returns a maze. *)
Theorem maze_generation_can_finish checked W H :
  2 <= W -> 2 <= H ->
  WilsonMaze.normalize W * WilsonMaze.normalize H < 4294967296 ->
  exists fuel ds mz, MazeGen.new checked fuel ds W H = Done mz.
Proof.
  intros HW HH Hsize.
  destruct (normalize_bounds W HW) as [Hw3 _].
  destruct (normalize_bounds H HH) as [Hh3 _].
  pose proof (default_start_intersection _ _ Hw3 Hh3) as Hs.
  destruct (initialCells_default checked _ _ Hw3 Hh3 Hsize) as (m1 & Hinit & Hm1).
  edestruct (maze_can_finish checked (WilsonMaze.normalize W) (WilsonMaze.normalize H)
               (mkVec 1 1) (normalize_odd W) (normalize_odd H)
               (Z.to_nat ((WilsonMaze.normalize W / 2) * (WilsonMaze.normalize H / 2)))
               (<[linearize (WilsonMaze.normalize W) 1 1 := Empty]> m1)
               ((WilsonMaze.normalize W / 2) * (WilsonMaze.normalize H / 2) - 1))
    as (fuel & ds & m' & Hrun).
  - apply initial_inv; try done; lia.
  - done.
  - assert (0 <= WilsonMaze.normalize W / 2 * (WilsonMaze.normalize H / 2)); [|lia].
    apply Z.mul_nonneg_nonneg; lia.
  - exists fuel, ds. eexists. unfold MazeGen.new.
    rewrite Hinit. simpl. unfold MazeGen.generateMaze. rewrite Hrun. done.
Qed.

Lemma maze_generation_can_finish_witness :
  exists fuel ds mz, MazeGen.new false fuel ds 65540 4 = Done mz.
Proof.
  apply (maze_generation_can_finish false 65540 4); try lia; vm_compute; reflexivity.
Defined.

(** ** Explicit start and goal positions *)

Lemma initialCells_at checked w h start :
  0 <= w -> 0 <= h -> w * h < 4294967296 -> inGrid w h start = true ->
  exists m1,
    WilsonMaze.initialCells checked w h (linearize w (vx start) (vz start))
      = Done (<[linearize w (vx start) (vz start) := Empty]> m1) /\
    forall i, m1 !! i = if decide (0 <= i < w * h) then Some Solid else None.
Proof.
  intros Hw Hh Hsize Hg. unfold WilsonMaze.initialCells.
  destruct (fillSolid_spec checked w h) as (m1 & Hfill & Hm1); [lia..|].
  exists m1. split; [|done].
  unfold newArray.
  destruct (Z.leb_spec 0 (w * h)); [|nia].
  destruct (Z.ltb_spec (w * h) 4294967296); [|lia].
  simpl. rewrite Hfill. simpl.
  by rewrite writeCell_in by (by apply (inGrid_index w h start)).
Qed.

Lemma new_inv_at checked fuel ds W H sp gp mz :
  2 <= W -> 2 <= H ->
  WilsonMaze.normalize W <= 65537 -> WilsonMaze.normalize H <= 65537 ->
  isIntersection (WilsonMaze.normalize W) (WilsonMaze.normalize H) sp = true ->
  WilsonMaze.new checked fuel ds W H (Some sp) gp = Done mz ->
  WilsonMaze.width mz = WilsonMaze.normalize W /\
  WilsonMaze.height mz = WilsonMaze.normalize H /\
  WilsonMaze.startPos mz = sp /\
  exists unvisited,
    Inv (WilsonMaze.width mz) (WilsonMaze.height mz) sp (WilsonMaze.cells mz) unvisited /\
    unvisited <= 0.
Proof.
  intros HW HH Hwm Hhm Hsp Hnew.
  destruct (new_dims _ _ _ _ _ _ _ _ Hnew) as (Ew & Eh & Es & _). simpl in Es.
  pose proof (new_size _ _ _ _ _ _ _ _ Hnew) as Hsize.
  destruct (normalize_bounds W HW) as [Hw3 _].
  destruct (normalize_bounds H HH) as [Hh3 _].
  rewrite Ew, Eh in *.
  pose proof (proj1 (isIntersection_spec _ _ _) Hsp) as (Hg & _).
  pose proof (proj1 (inGrid_spec _ _ _) Hg) as Hr.
  split_and!; try done.
  { unfold WilsonMaze.startPos. rewrite Ew, Es.
    rewrite delinearize_linearize by lia. by destruct sp. }
  revert Hnew. unfold WilsonMaze.new. simpl.
  destruct (initialCells_at checked (WilsonMaze.normalize W) (WilsonMaze.normalize H) sp)
    as (m1 & -> & Hm1); [lia..|done|].
  simpl.
  destruct (WilsonMaze.generateMaze _ _ _ _ _ _) as [m3| |] eqn:Hgen; [|done..].
  simpl. intros [= <-]. simpl.
  unfold WilsonMaze.generateMaze in Hgen.
  eapply (generate_loop_inv checked _ _ sp) in Hgen; try done;
    try apply normalize_odd.
  apply (initial_inv _ _ sp m1); try done; lia.
Qed.

(** X26. An explicit start position: when the start passed to the
    constructor is an intersection of the normalized grid (at least 2 x 2
    requested, dimensions at most 65537), the maze is a spanning tree
    rooted there: [startPos()] gives the position back, its cell is
    [Empty], every [Empty] cell is reached from it, every intersection is
    [Empty], and the [Empty] cells number the connections plus one. *)
Theorem explicit_start_tree checked fuel ds W H sp gp mz :
  2 <= W -> 2 <= H ->
  WilsonMaze.normalize W <= 65537 -> WilsonMaze.normalize H <= 65537 ->
  isIntersection (WilsonMaze.normalize W) (WilsonMaze.normalize H) sp = true ->
  WilsonMaze.new checked fuel ds W H (Some sp) gp = Done mz ->
  let w := WilsonMaze.width mz in
  let h := WilsonMaze.height mz in
  WilsonMaze.startPos mz = sp /\
  isEmpty w h (WilsonMaze.cells mz) sp = true /\
  (forall c, isEmpty w h (WilsonMaze.cells mz) c = true ->
     reach w h (WilsonMaze.cells mz) sp c) /\
  (forall c, isIntersection w h c = true -> isEmpty w h (WilsonMaze.cells mz) c = true) /\
  emptyCount w h (WilsonMaze.cells mz) = connections w h (WilsonMaze.cells mz) + 1.
Proof.
  intros HW HH Hwm Hhm Hsp Hnew.
  destruct (new_inv_at _ _ _ _ _ _ _ _ HW HH Hwm Hhm Hsp Hnew)
    as (Ew & Eh & Es & unv & HI & Hu).
  intros w h. split_and!.
  - done.
  - apply (inv_start _ _ _ _ _ HI).
  - apply (inv_reach _ _ _ _ _ HI).
  - intros c Hc. by eapply all_carved; eauto.
  - apply (inv_count _ _ _ _ _ HI).
Qed.

Lemma explicit_start_tree_witness :
  exists mz,
    WilsonMaze.new false 10
      ([rand 0 2; rand 0 2] ++ (drawOf <$> [Right; Down]) ++
       [rand 0 2; rand 1 2] ++ [drawOf Right])
      4 5 (Some (mkVec 3 3)) None = Done mz /\
    WilsonMaze.startPos mz = mkVec 3 3 /\
    isEmpty 5 5 (WilsonMaze.cells mz) (mkVec 1 1) = true.
Proof.
  eexists ?[mz].
  assert (E : WilsonMaze.new false 10
      ([rand 0 2; rand 0 2] ++ (drawOf <$> [Right; Down]) ++
       [rand 0 2; rand 1 2] ++ [drawOf Right])
      4 5 (Some (mkVec 3 3)) None = Done ?mz) by (vm_compute; reflexivity).
  split; [exact E|].
  destruct (explicit_start_tree false 10 _ 4 5 (mkVec 3 3) None _
              ltac:(lia) ltac:(lia) ltac:(vm_compute; discriminate)
              ltac:(vm_compute; discriminate) ltac:(reflexivity) E)
    as (Hs & _ & _ & Hall & _).
  split; [exact Hs|]. by apply Hall.
Defined.

(** X27. The goal position is not validated: with the default start (at
    least 2 x 2 requested, dimensions at most 65537), a goal passed to the
    constructor on the boundary of the grid is accepted, and its cell is
    [Solid] in every maze that is returned. *)
Theorem boundary_goal_stays_solid checked fuel ds W H gp mz :
  2 <= W -> 2 <= H ->
  WilsonMaze.normalize W <= 65537 -> WilsonMaze.normalize H <= 65537 ->
  onBoundary (WilsonMaze.normalize W) (WilsonMaze.normalize H) gp = true ->
  WilsonMaze.new checked fuel ds W H None (Some gp) = Done mz ->
  WilsonMaze.goalPos mz = gp /\
  isSolid (WilsonMaze.width mz) (WilsonMaze.height mz) (WilsonMaze.cells mz)
    (WilsonMaze.goalPos mz) = true.
Proof.
  intros HW HH Hwm Hhm Hgp Hnew.
  destruct (new_dims _ _ _ _ _ _ _ _ Hnew) as (Ew & Eh & _ & Eg). simpl in Eg.
  destruct (normalize_bounds W HW) as [Hw3 _].
  destruct (normalize_bounds H HH) as [Hh3 _].
  destruct (new_inv checked fuel ds W H (Some gp)) with (mz := mz)
    as (_ & _ & _ & unv & HI & Hu); [lia|lia|done|].
  assert (Hg : inGrid (WilsonMaze.normalize W) (WilsonMaze.normalize H) gp = true).
  { unfold onBoundary in Hgp. by apply andb_true_iff in Hgp as [? _]. }
  pose proof (proj1 (inGrid_spec _ _ _) Hg) as Hr.
  assert (Egp : WilsonMaze.goalPos mz = gp).
  { unfold WilsonMaze.goalPos. rewrite Ew, Eg.
    rewrite delinearize_linearize by lia. by destruct gp. }
  split; [done|]. rewrite Egp, Ew, Eh.
  eapply boundary_solid; eauto using normalize_odd.
Qed.

Lemma boundary_goal_stays_solid_witness :
  exists mz, WilsonMaze.new false 10 sample_draws 4 5 None (Some (mkVec 4 3)) = Done mz /\
    isSolid 5 5 (WilsonMaze.cells mz) (mkVec 4 3) = true.
Proof.
  eexists ?[mz].
  assert (E : WilsonMaze.new false 10 sample_draws 4 5 None (Some (mkVec 4 3)) = Done ?mz)
    by (vm_compute; reflexivity).
  split; [exact E|].
  destruct (boundary_goal_stays_solid false 10 _ 4 5 (mkVec 4 3) _
              ltac:(lia) ltac:(lia) ltac:(vm_compute; discriminate)
              ltac:(vm_compute; discriminate) ltac:(reflexivity) E) as [Hg Hs].
  exact Hs.
Defined.

(** ** The player callbacks *)

(** X28. [onTick] marks the floor under the player at every tick: the
    positions it compares are objects, the player's position is a new
    one at every tick, so the test that should spare the start and the
    goal cell always succeeds, and the VISITED block is set there too. *)
Theorem onTick_always_marks currentMaze fx fz hp :
  (Server.onTick currentMaze fx fz hp).1
  = [Server.mkSetBlock fx 0 fz MazeWorld.BLOCK_TYPE_VISITED].
Proof.
  unfold Server.onTick, Server.startPos, Server.goalPos, Server.alloc.
  cbv beta iota zeta delta [Server.next Server.objs].
  rewrite !(proj2 (Nat.eqb_neq _ _)) by lia.
  cbv beta iota delta [negb andb]. by rewrite lookup_insert_eq.
Qed.

Lemma collisions_in_goal events :
  Server.collisions true events = (true, []).
Proof.
  induction events as [|e events IH]; [done|].
  simpl. unfold Server.onBlockCollision.
  rewrite orb_true_r. simpl. by rewrite IH.
Qed.

(** X29. The congratulation is sent once for all players: in a session
    that starts with [playerInGoal] unset, the two messages go to the
    player of the first collision that starts on a GOAL block, and no
    later collision, of this or any other player, sends anything. *)
Theorem collisions_congratulate_once events :
  (Server.collisions false events).2
  = match find (fun e => Server.started e
                         && (Server.blockTypeId e =? MazeWorld.BLOCK_TYPE_GOAL)) events with
    | Some e => [(Server.player e, Server.Congratulations);
                 (Server.player e, Server.HowToGenerate)]
    | None => []
    end.
Proof.
  induction events as [|e events IH]; [done|].
  simpl. unfold Server.onBlockCollision.
  destruct (Server.started e); simpl.
  - destruct (Server.blockTypeId e =? MazeWorld.BLOCK_TYPE_GOAL); simpl.
    + by rewrite collisions_in_goal.
    + destruct (Server.collisions false events) as [flag sent]. exact IH.
  - destruct (Server.collisions false events) as [flag sent]. exact IH.
Qed.
